(** * Key backup core of the e2e chat application

    A shallow embedding of
    - [src/services/cryptography/ProductionShamirService.js] (threshold
      splitting, Lagrange reconstruction, share encryption wrapper),
    - [src/services/cryptography/EccService.js] (ECIES-style encryption and
      the wire format of an encrypted share),
    - the Solidity contracts [SecureShareContract] and [SecureShareRegistry]
      (one custodian per encrypted share, and the registry that owns them),
    - [src/services/contracts/SecureShareRegistryService.js] (the retry
      loop every transaction of the client goes through),

    followed by the properties proved of them.

    JavaScript.  A [BigInt] is a [Z]; [/] and [%] on BigInts truncate
    towards zero, which is [Z.quot] and [Z.rem].  A [Uint8Array] is a
    [list Z] of values below 256.  A [throw] is the [Throw] outcome of
    [js_result] and carries the message of the [Error] object; [async]
    functions are embedded by what they resolve to.  Randomness,
    [Date.now()] and the libraries of the runtime are inputs.  Logging
    ([console.error]) and [_wipeMemory], which zeroes buffers after the
    result is built, leave no trace in a result and are left out.

    Solidity.  A [uint256] is a [Z] with the overflow checks of the 0.8
    compiler written out; a mapping is a total function; a transaction
    returns a new state or reverts and leaves the state alone.  Events are
    not recorded, Ether balances are not tracked (a value transfer succeeds
    or fails as the environment says), and the [nonReentrant] guard has
    nothing to do: the one call back into the registry is the custodian's
    call of the view [isAuthorizedForShare], which carries no guard. *)

From Stdlib Require Import ZArith NArith List String Ascii Bool Lia Permutation.
From Stdlib Require Import DecimalString HexadecimalString Strings.Byte.
Import ListNotations.

Local Open Scope string_scope.
Local Open Scope Z_scope.

(** ** Outcomes of a JavaScript call *)

Inductive js_result (A : Type) : Type :=
| Return (value : A)
| Throw (message : string).

Arguments Return {A} value.
Arguments Throw {A} message.

Definition js_bind {A B : Type} (r : js_result A) (k : A -> js_result B) : js_result B :=
  match r with
  | Return a => k a
  | Throw m => Throw m
  end.

Notation "x <- r ;; k" := (js_bind r (fun x => k))
  (at level 61, r at next level, right associativity).
Notation "r ;;; k" := (js_bind r (fun _ => k))
  (at level 61, right associativity).

(** [try { body } catch (error) { throw new Error(prefix + error.message) }] *)
Definition rethrow {A : Type} (prefix : string) (body : js_result A) : js_result A :=
  match body with
  | Return a => Return a
  | Throw m => Throw (prefix ++ m)
  end.

(** [for (const v of l) { body v }] where the body may throw. *)
Fixpoint js_for_each {A : Type} (body : A -> js_result unit) (l : list A) : js_result unit :=
  match l with
  | [] => Return tt
  | v :: rest => body v ;;; js_for_each body rest
  end.

(** ** Strings, numbers and bytes of the JavaScript runtime *)

(** [n.toString()] of an integer, and [b.toString()] of a BigInt. *)
Definition toString (n : Z) : string :=
  DecimalString.NilZero.string_of_int (Z.to_int n).

(** [b.toString(16)] of a BigInt. *)
Definition toString16 (n : Z) : string :=
  let digits := HexadecimalString.NilZero.string_of_uint (N.to_hex_uint (Z.to_N (Z.abs n))) in
  if n <? 0 then "-" ++ digits else digits.

Fixpoint repeat_char (c : ascii) (n : nat) : string :=
  match n with
  | O => EmptyString
  | S k => String c (repeat_char c k)
  end.

(** [s.padStart(width, c)] for a one-character filler. *)
Definition padStart (width : nat) (c : ascii) (s : string) : string :=
  repeat_char c (width - String.length s) ++ s.

Definition is_digit (c : ascii) : bool :=
  let n := N_of_ascii c in ((48 <=? n) && (n <=? 57))%N.

Fixpoint all_digits (s : string) : bool :=
  match s with
  | EmptyString => true
  | String c rest => is_digit c && all_digits rest
  end.

(** [s.match(/^\d+$/)] is truthy: one or more decimal digits and nothing else. *)
Definition matches_digits (s : string) : bool :=
  negb (String.eqb s "") && all_digits s.

(** [BigInt(s)] for a string.  Decimal digit strings (and the empty string,
    which converts to [0n]) are covered; every other string throws here.
    [_validateShares] lets none of the other literal forms through. *)
Definition BigInt_of_string (s : string) : js_result Z :=
  if all_digits s then
    match DecimalString.NilZero.uint_of_string s with
    | Some u => Return (Z.of_N (N.of_uint u))
    | None => Return 0
    end
  else Throw ("Cannot convert " ++ s ++ " to a BigInt").

(** [utf8ToBytes]: a [string] holds the UTF-8 bytes of the text. *)
Definition utf8ToBytes (s : string) : list Z :=
  map (fun c => Z.of_N (N_of_ascii c)) (list_ascii_of_string s).

Definition hex_value (c : ascii) : option Z :=
  let n := Z.of_N (N_of_ascii c) in
  if (48 <=? n) && (n <=? 57) then Some (n - 48)
  else if (97 <=? n) && (n <=? 102) then Some (n - 87)
  else if (65 <=? n) && (n <=? 70) then Some (n - 55)
  else None.

Fixpoint hex_pairs (s : string) : option (list Z) :=
  match s with
  | EmptyString => Some []
  | String hi (String lo rest) =>
      match hex_value hi, hex_value lo, hex_pairs rest with
      | Some h, Some l, Some bs => Some (h * 16 + l :: bs)
      | _, _, _ => None
      end
  | String _ EmptyString => None
  end.

(** [hexToBytes] of @noble/hashes: throws on an odd length or a character
    that is no hexadecimal digit (the library's message is abridged). *)
Definition hexToBytes (hex : string) : js_result (list Z) :=
  match hex_pairs hex with
  | Some bs => Return bs
  | None => Throw "hex string expected"
  end.

Definition hex_digit (n : Z) : ascii :=
  if n <? 10 then ascii_of_N (Z.to_N (48 + n)) else ascii_of_N (Z.to_N (87 + n)).

(** [bytesToHex] of @noble/hashes: two lower-case digits per byte. *)
Fixpoint bytesToHex (bs : list Z) : string :=
  match bs with
  | [] => EmptyString
  | b :: rest =>
      String (hex_digit (Z.quot b 16)) (String (hex_digit (Z.rem b 16)) (bytesToHex rest))
  end.

(** [s.substring(start)] and the prefix of [n] characters. *)
Fixpoint string_drop (n : nat) (s : string) : string :=
  match n, s with
  | O, _ => s
  | S k, EmptyString => EmptyString
  | S k, String _ rest => string_drop k rest
  end.

Fixpoint string_take (n : nat) (s : string) : string :=
  match n, s with
  | O, _ => EmptyString
  | S k, EmptyString => EmptyString
  | S k, String c rest => String c (string_take k rest)
  end.

(** [s.substring(start, end)]: both indices are clamped to [0, s.length]
    and swapped when [start > end]. *)
Definition substring (s : string) (indexStart indexEnd : Z) : string :=
  let len := Z.of_nat (String.length s) in
  let clamp := fun i => Z.max 0 (Z.min i len) in
  let a := clamp indexStart in
  let b := clamp indexEnd in
  let lo := Z.min a b in
  let hi := Z.max a b in
  string_take (Z.to_nat (hi - lo)) (string_drop (Z.to_nat lo) s).

Definition startsWith (s prefix : string) : bool :=
  String.eqb (string_take (String.length prefix) s) prefix.

(** [a.slice(start, end)] of a typed array: negative indices count from
    the end, and both are clamped to the array. *)
Definition slice (a : list Z) (indexStart indexEnd : Z) : list Z :=
  let len := Z.of_nat (List.length a) in
  let norm := fun i => if i <? 0 then Z.max (len + i) 0 else Z.min i len in
  let lo := norm indexStart in
  let hi := norm indexEnd in
  firstn (Z.to_nat (hi - lo)) (skipn (Z.to_nat lo) a).

(** [new TextDecoder().decode(bytes)]: the text whose UTF-8 bytes these
    are.  (Ill-formed input, which the decoder patches with U+FFFD, is not
    covered.) *)
Definition TextDecoder_decode (bs : list Z) : string :=
  string_of_list_ascii (map (fun b => ascii_of_N (Z.to_N b)) bs).

(** ** Primitive values

    What a property read without a type check can hold, such as the [x]
    of a share: [generateShares] writes a number, a share that was typed
    in or carried in a URL holds a string.  A number is an integer a
    double holds exactly and prints without an exponent (fractions, [NaN]
    and the infinities are not covered); objects are not covered. *)

Inductive js_value : Type :=
| VUndefined
| VNull
| VBoolean (b : bool)
| VNumber (n : Z)
| VBigInt (n : Z)
| VString (s : string).

(** The comparison of a [Set]: two primitive values are the same key when
    they have the same type and the same value, so [1], ["1"] and [1n] are
    three keys. *)
Definition js_value_eq_dec (a b : js_value) : {a = b} + {a <> b}.
Proof.
  decide equality; first [apply Z.eq_dec | apply string_dec | apply bool_dec].
Defined.

(** [!v] *)
Definition falsy (v : js_value) : bool :=
  match v with
  | VUndefined => true
  | VNull => true
  | VBoolean b => negb b
  | VNumber n => n =? 0
  | VBigInt n => n =? 0
  | VString s => String.eqb s ""
  end.

(** [String(v)], the conversion [parseInt] applies to its argument. *)
Definition ToString (v : js_value) : string :=
  match v with
  | VUndefined => "undefined"
  | VNull => "null"
  | VBoolean true => "true"
  | VBoolean false => "false"
  | VNumber n => toString n
  | VBigInt n => toString n
  | VString s => s
  end.

(** White space and line terminators outside ASCII, in UTF-8: U+00A0, and
    U+1680, U+2000 to U+200A, U+2028, U+2029, U+202F, U+205F, U+3000,
    U+FEFF. *)
Definition white_space_2 (a b : N) : bool := ((a =? 194) && (b =? 160))%N.

Definition white_space_3 (a b c : N) : bool :=
  (((a =? 225) && (b =? 154) && (c =? 128))
   || ((a =? 226) && (b =? 128)
       && (((128 <=? c) && (c <=? 138)) || (c =? 168) || (c =? 169) || (c =? 175)))
   || ((a =? 226) && (b =? 129) && (c =? 159))
   || ((a =? 227) && (b =? 128) && (c =? 128))
   || ((a =? 239) && (b =? 187) && (c =? 191)))%N.

(** Dropping the white space a string starts with, as [parseInt] and
    [BigInt] do. *)
Fixpoint skip_white_space (s : string) : string :=
  match s with
  | EmptyString => s
  | String c rest =>
      let n := N_of_ascii c in
      if ((9 <=? n) && (n <=? 13) || (n =? 32))%N then skip_white_space rest
      else
        match rest with
        | String c1 rest1 =>
            if white_space_2 n (N_of_ascii c1) then skip_white_space rest1
            else
              match rest1 with
              | String c2 rest2 =>
                  if white_space_3 n (N_of_ascii c1) (N_of_ascii c2)
                  then skip_white_space rest2
                  else s
              | EmptyString => s
              end
        | EmptyString => s
        end
  end.

Definition is_hex_digit (c : ascii) : bool :=
  match hex_value c with
  | Some _ => true
  | None => false
  end.

(** [isNaN(parseInt(s))].  After the leading white space and an optional
    sign, [parseInt] reads digits, hexadecimal ones behind a [0x] or [0X]
    prefix and decimal ones otherwise, and stops at the first character
    that is none; the result is [NaN] exactly when it read no digit. *)
Definition parseInt_isNaN (s : string) : bool :=
  let trimmed := skip_white_space s in
  let unsigned :=
    match trimmed with
    | String c rest => if Ascii.eqb c "+" || Ascii.eqb c "-" then rest else trimmed
    | EmptyString => trimmed
    end in
  match unsigned with
  | EmptyString => true
  | String c EmptyString => negb (is_digit c)
  | String c (String p rest) =>
      if Ascii.eqb c "0" && (Ascii.eqb p "x" || Ascii.eqb p "X") then
        match rest with
        | String d _ => negb (is_hex_digit d)
        | EmptyString => true
        end
      else negb (is_digit c)
  end.

(** The digits of the given radix a string starts with: their value,
    their number, and what follows them. *)
Fixpoint read_digits (radix : Z) (s : string) (value : Z) (count : nat) : Z * nat * string :=
  match s with
  | EmptyString => (value, count, s)
  | String c rest =>
      match hex_value c with
      | Some d =>
          if d <? radix then read_digits radix rest (value * radix + d) (S count)
          else (value, count, s)
      | None => (value, count, s)
      end
  end.

(** One or more digits and then nothing but white space. *)
Definition literal_value (radix : Z) (s : string) : option Z :=
  let '(value, count, rest) := read_digits radix s 0 0 in
  if (0 <? count)%nat && String.eqb (skip_white_space rest) "" then Some value else None.

(** [BigInt(s)] of any string: white space around the literal is dropped;
    nothing is left for [0n]; a decimal literal may carry a sign; [0x],
    [0o] and [0b] literals may not; anything else is a SyntaxError. *)
Definition StringToBigInt (s : string) : js_result Z :=
  let failure := Throw ("Cannot convert " ++ s ++ " to a BigInt") in
  let result := fun v : option Z => match v with Some n => Return n | None => failure end in
  match skip_white_space s with
  | EmptyString => Return 0
  | String c rest =>
      let prefixed :=
        match rest with
        | String p digits =>
            if negb (Ascii.eqb c "0") then None
            else if Ascii.eqb p "x" || Ascii.eqb p "X" then Some (16, digits)
            else if Ascii.eqb p "o" || Ascii.eqb p "O" then Some (8, digits)
            else if Ascii.eqb p "b" || Ascii.eqb p "B" then Some (2, digits)
            else None
        | EmptyString => None
        end in
      match prefixed with
      | Some (radix, digits) => result (literal_value radix digits)
      | None =>
          if Ascii.eqb c "-" then result (option_map Z.opp (literal_value 10 rest))
          else if Ascii.eqb c "+" then result (literal_value 10 rest)
          else result (literal_value 10 (String c rest))
      end
  end.

(** [BigInt(v)] *)
Definition BigInt_of_value (v : js_value) : js_result Z :=
  match v with
  | VUndefined => Throw "Cannot convert undefined to a BigInt"
  | VNull => Throw "Cannot convert null to a BigInt"
  | VBoolean b => Return (if b then 1 else 0)
  | VNumber n => Return n
  | VBigInt n => Return n
  | VString s => StringToBigInt s
  end.

(** Reading a [let] or [const] binding of the enclosing block before its
    declaration has run: a ReferenceError. *)
Definition read_before_initialization {A : Type} (name : string) : js_result A :=
  Throw ("Cannot access '" ++ name ++ "' before initialization").

(** ** Values of the JavaScript runtime that travel through JSON *)

#[local] Set Warnings "-register-all".

Inductive json : Type :=
| JNull
| JBool (b : bool)
| JNumber (n : Z)
| JString (s : string)
| JArray (items : list json)
| JObject (fields : list (string * json)).

(** A plain object: its own enumerable properties in order. *)
Definition object : Type := list (string * json).

Fixpoint obj_get (key : string) (o : object) : option json :=
  match o with
  | [] => None
  | (k, v) :: rest => if String.eqb k key then Some v else obj_get key rest
  end.

Definition obj_remove (key : string) (o : object) : object :=
  filter (fun kv => negb (String.eqb (fst kv) key)) o.

(** [{ ...o, key: v }]: a property that exists keeps its place. *)
Fixpoint obj_set (key : string) (v : json) (o : object) : object :=
  match o with
  | [] => [(key, v)]
  | (k, v0) :: rest =>
      if String.eqb k key then (k, v) :: rest else (k, v0) :: obj_set key v rest
  end.

(** [if (v)] *)
Definition truthy (v : json) : bool :=
  match v with
  | JNull => false
  | JBool b => b
  | JNumber n => negb (n =? 0)
  | JString s => negb (String.eqb s "")
  | JArray _ => true
  | JObject _ => true
  end.

Definition indexed {A : Type} (f : A -> json) (l : list A) : object :=
  map (fun ia => (toString (Z.of_nat (fst ia)), f (snd ia)))
      (combine (seq 0 (List.length l)) l).

(** The own enumerable properties a rest pattern [{ ...rest } = v] copies;
    destructuring [null] is a TypeError (the engine words the message). *)
Definition own_properties (v : json) : js_result object :=
  match v with
  | JNull => Throw "Cannot destructure 'enrichedShare' as it is null."
  | JBool _ => Return []
  | JNumber _ => Return []
  | JString s => Return (indexed (fun c => JString (String c EmptyString))
                                 (list_ascii_of_string s))
  | JArray items => Return (indexed (fun v => v) items)
  | JObject fields => Return fields
  end.

(** [v.key] for a key that is no index and no built-in property. *)
Definition property (key : string) (v : json) : option json :=
  match v with
  | JObject fields => obj_get key fields
  | _ => None
  end.

(** ** What the code takes from its platform

    The curve and hash of @noble, the AES-GCM of Web Crypto and the JSON
    codec are libraries of the runtime: the code is embedded over any
    implementation of them. *)

Class Platform : Type := {
  (** [secp256k1.getPublicKey(privateKey, false)] *)
  getPublicKey : list Z -> js_result (list Z);
  (** [secp256k1.getSharedSecret(privateKey, publicKey)] *)
  getSharedSecret : list Z -> list Z -> js_result (list Z);
  sha256 : list Z -> list Z;
  (** [crypto.subtle.encrypt({name: 'AES-GCM', iv, tagLength: 128}, key, data)]:
      the ciphertext followed by the 16-byte tag. *)
  aes_gcm_encrypt : list Z -> list Z -> list Z -> list Z;
  (** [crypto.subtle.decrypt] with the same parameters; [None] when it rejects. *)
  aes_gcm_decrypt : list Z -> list Z -> list Z -> option (list Z);
  JSON_stringify : json -> string;
  JSON_parse : string -> js_result json
}.

Definition is_byte (b : Z) : Prop := 0 <= b < 256.

(** The contracts of those libraries the properties below rest on:
    uncompressed public keys of 65 bytes, Diffie-Hellman agreement, and an
    AES-GCM output of the data's length plus the 16-byte tag. *)
Class PlatformLaws (P : Platform) : Prop := {
  public_key_uncompressed :
    forall sk pk, getPublicKey sk = Return pk ->
                  List.length pk = 65%nat /\ Forall is_byte pk;
  ecdh_agreement :
    forall a b pa pb, getPublicKey a = Return pa -> getPublicKey b = Return pb ->
                      exists point, getSharedSecret a pb = Return point
                                    /\ getSharedSecret b pa = Return point;
  aes_gcm_output :
    forall key iv data, Forall is_byte data ->
                        List.length (aes_gcm_encrypt key iv data) = (List.length data + 16)%nat
                        /\ Forall is_byte (aes_gcm_encrypt key iv data)
}.

(** * EccService *)

Module EccService.

(** [{ iv, ephemPublicKey, ciphertext, mac }], each a hex string. *)
Record EncryptedData : Type := {
  iv : string;
  ephemPublicKey : string;
  ciphertext : string;
  mac : string
}.

(** [{ privateKey, publicKey }], both in hex. *)
Record KeyPair : Type := {
  privateKey : string;
  publicKey : string
}.

Section WithPlatform.
Context {P : Platform}.

Definition importFromPrivateKey (privateKeyHex : string) : js_result KeyPair :=
  privateKeyBytes <- hexToBytes privateKeyHex ;;
  publicKeyBytes <- getPublicKey privateKeyBytes ;;
  Return {| privateKey := privateKeyHex; publicKey := bytesToHex publicKeyBytes |}.

(** [encrypt(publicKeyHex, message)]; [ephemeralPrivateKey] and [ivBytes]
    are the values drawn from [randomPrivateKey()] and [getRandomValues]. *)
Definition encrypt (ephemeralPrivateKey ivBytes : list Z) (publicKeyHex message : string)
  : js_result EncryptedData :=
  publicKey <- hexToBytes publicKeyHex ;;
  let messageBytes := utf8ToBytes message in
  ephemeralPublicKey <- getPublicKey ephemeralPrivateKey ;;
  sharedPoint <- getSharedSecret ephemeralPrivateKey publicKey ;;
  let sharedSecret := sha256 (slice sharedPoint 1 33) in
  let encryptedArray := aes_gcm_encrypt sharedSecret ivBytes messageBytes in
  let ciphertextLength := Z.of_nat (List.length encryptedArray) - 16 in
  let ciphertextBytes := slice encryptedArray 0 ciphertextLength in
  let macBytes := slice encryptedArray ciphertextLength (Z.of_nat (List.length encryptedArray)) in
  Return {| iv := bytesToHex ivBytes;
            ephemPublicKey := bytesToHex ephemeralPublicKey;
            ciphertext := bytesToHex ciphertextBytes;
            mac := bytesToHex macBytes |}.

(** [decrypt(privateKeyHex, encryptedData)].  Its [try] block declares
    [const encryptedData = concatBytes(ciphertext, mac)] further down, so
    inside the block the name [encryptedData] is that constant and not the
    parameter: the reads of [encryptedData.iv] and the other fields come
    before the declaration and find the constant uninitialised.  The
    [catch] logs the error and throws it again. *)
Definition decrypt (privateKeyHex : string) (encryptedData : EncryptedData) : js_result string :=
  privateKey <- hexToBytes privateKeyHex ;;
  shadowing <- read_before_initialization "encryptedData" ;;
  ivBytes <- hexToBytes (iv shadowing) ;;
  ephemPublicKeyBytes <- hexToBytes (ephemPublicKey shadowing) ;;
  ciphertextBytes <- hexToBytes (ciphertext shadowing) ;;
  macBytes <- hexToBytes (mac shadowing) ;;
  sharedPoint <- getSharedSecret privateKey ephemPublicKeyBytes ;;
  let sharedSecret := sha256 (slice sharedPoint 1 33) in
  let combined := (ciphertextBytes ++ macBytes)%list in
  match aes_gcm_decrypt sharedSecret ivBytes combined with
  | Some decrypted => Return (TextDecoder_decode decrypted)
  | None => Throw "Decryption failed: Invalid ciphertext or MAC"
  end.

Definition deriveSharedSecret (privateKeyHex publicKeyHex : string) : js_result string :=
  privateKeyBytes <- hexToBytes privateKeyHex ;;
  publicKeyBytes <- hexToBytes publicKeyHex ;;
  sharedPoint <- getSharedSecret privateKeyBytes publicKeyBytes ;;
  let sharedSecret := sha256 (slice sharedPoint 1 33) in
  Return (bytesToHex sharedSecret).

End WithPlatform.

Definition formatForContract (encryptedData : EncryptedData) : string :=
  let combinedHex :=
    iv encryptedData ++ ephemPublicKey encryptedData
       ++ ciphertext encryptedData ++ mac encryptedData in
  "0x" ++ combinedHex.

Definition parseFromContract (hexString : string) : EncryptedData :=
  let hex := if startsWith hexString "0x" then string_drop 2 hexString else hexString in
  let IV_SIZE := 16 * 2 in
  let EPHEM_KEY_SIZE := 65 * 2 in
  let MAC_SIZE := 16 * 2 in
  let macStart := Z.of_nat (String.length hex) - MAC_SIZE in
  {| iv := substring hex 0 IV_SIZE;
     ephemPublicKey := substring hex IV_SIZE (IV_SIZE + EPHEM_KEY_SIZE);
     ciphertext := substring hex (IV_SIZE + EPHEM_KEY_SIZE) macStart;
     mac := string_drop (Z.to_nat (Z.max 0 macStart)) hex |}.

End EccService.

(** * ProductionShamirService *)

Module ProductionShamirService.

(** A share [{ x, y }].  [generateShares] emits [{ x, y: y.toString() }]
    with a number for [x]; [reconstructSecret] reads [x] without asking
    for its type, so it is any primitive value here; [y] is a string. *)
Record Share : Type := { x : js_value; y : string }.

(** The sources of randomness [generateShares] reads: the string
    [_generateExtraEntropy] resolves to, and the [randomBytes(32)] drawn for
    the [i]-th coefficient. *)
Record Randomness : Type := {
  extraEntropy : string;
  randomBytes32 : nat -> list Z
}.

Definition getPrime : Z :=
  115792089210356248762697446949407573529996955224135760342422259061068512044369.

Definition bytesToFieldElement (bytes : list Z) (prime : Z) : Z :=
  fold_left (fun result b => Z.rem (result * 256 + b) prime) bytes 0.

Definition evaluatePolynomial (coefficients : list Z) (x0 prime : Z) : Z :=
  fst (fold_left
         (fun '(result, power) coeff =>
            (Z.rem (result + coeff * power) prime, Z.rem (power * x0) prime))
         coefficients (0, 1)).

Definition fieldElementToHex (fieldElement : Z) : string :=
  padStart 64 "0"%char (toString16 fieldElement).

(** The [while (r !== 0n)] loop of [modInverse]; [fuel] bounds the number
    of iterations, and [None] means the bound was reached. *)
Fixpoint modInverse_loop (fuel : nat) (old_r r old_s s old_t t : Z) : option Z :=
  match fuel with
  | O => None
  | S fuel' =>
      if r =? 0 then Some old_s
      else
        let quotient := Z.quot old_r r in
        modInverse_loop fuel' r (old_r - quotient * r)
                        s (old_s - quotient * s)
                        t (old_t - quotient * t)
  end.

(** Iterations that always suffice, as proved below. *)
Definition modInverse_fuel (a m : Z) : nat :=
  S (S (S (Z.to_nat (Z.log2 (Z.abs a * Z.abs m))))).

Definition modInverse (a m : Z) : Z :=
  match modInverse_loop (modInverse_fuel a m) a m 1 0 0 1 with
  | Some old_s => Z.rem (Z.rem old_s m + m) m
  | None => 0
  end.

(** The inner [for (let j ...)] loop for a fixed [i]: numerator and
    denominator of the [i]-th basis polynomial.  Each round converts
    [shares[i].x] and [shares[j].x] with [BigInt], which throws on a value
    that is no integer literal. *)
Definition lagrange_inner (shares : list Share) (x0 prime : Z) (i : nat) (si : Share)
  : js_result (Z * Z) :=
  fold_left
    (fun state '(j, sj) =>
       pair <- state ;;
       xi <- BigInt_of_value (x si) ;;
       xj <- BigInt_of_value (x sj) ;;
       let '(numerator, denominator) := pair in
       let term1 := Z.rem (x0 - xj) prime in
       let term2 := Z.rem (xi - xj) prime in
       let shouldUpdate := if Nat.eqb i j then 0 else 1 in
       Return (Z.rem (numerator * (term1 * shouldUpdate + 1 * (1 - shouldUpdate))) prime,
               Z.rem (denominator * (term2 * shouldUpdate + 1 * (1 - shouldUpdate))) prime))
    (combine (seq 0 (List.length shares)) shares) (Return (1, 1)).

Fixpoint lagrange_outer (shares : list Share) (x0 prime : Z)
         (todo : list (nat * Share)) (result : Z) : js_result Z :=
  match todo with
  | [] => Return result
  | (i, si) :: rest =>
      pair <- lagrange_inner shares x0 prime i si ;;
      let '(numerator, denominator) := pair in
      let inverseDenominator := modInverse denominator prime in
      let basis := Z.rem (numerator * inverseDenominator) prime in
      yi <- BigInt_of_string (y si) ;;
      lagrange_outer shares x0 prime rest
                     (Z.rem (result + Z.rem (yi * basis) prime) prime)
  end.

Definition _constantTimeLagrangeInterpolation (shares : list Share) (x0 prime : Z) : js_result Z :=
  result <- lagrange_outer shares x0 prime (combine (seq 0 (List.length shares)) shares) 0 ;;
  Return (Z.rem (result + prime) prime).

Definition _validateInputs (privateKeyHex : string) (numShares threshold : Z) : js_result unit :=
  if (String.length privateKeyHex <? 64)%nat then Throw "Invalid private key format"
  else if (numShares <? 2) || (numShares >? 100) then
    Throw "Number of shares must be between 2 and 100"
  else if (threshold <? 2) || (threshold >? numShares) then
    Throw ("Threshold must be between 2 and " ++ toString numShares)
  else Return tt.

(** [new Set(xValues)] keeps one entry per value as [js_value_eq_dec]
    tells them apart: the raw values of [x] are compared, not the integers
    [BigInt] later makes of them. *)
Definition _validateShares (shares : list Share) : js_result unit :=
  if (List.length shares <? 2)%nat then Throw "At least 2 valid shares are required"
  else
    let xValues := map x shares in
    let uniqueXValues := nodup js_value_eq_dec xValues in
    if negb (List.length uniqueXValues =? List.length shares)%nat then
      Throw "Duplicate share indices detected"
    else
      js_for_each
        (fun share =>
           if falsy (x share) || String.eqb (y share) ""
              || parseInt_isNaN (ToString (x share)) || negb (matches_digits (y share))
           then Throw "Invalid share format"
           else Return tt)
        shares.

Definition _secureRandomFieldElement (prime : Z) (randomBytes : list Z) (entropy : string) : Z :=
  let entropyBytes := utf8ToBytes entropy in
  let combined :=
    map (fun i => Z.lxor (nth i randomBytes 0)
                         (if (i <? List.length entropyBytes)%nat then nth i entropyBytes 0 else 0))
        (seq 0 32) in
  bytesToFieldElement combined prime.

Definition generateShares (rng : Randomness) (privateKeyHex : string)
           (numShares threshold : Z) : js_result (list Share) :=
  rethrow "Share generation failed: "
    (_validateInputs privateKeyHex numShares threshold ;;;
     privateKeyBytes <- hexToBytes privateKeyHex ;;
     let prime := getPrime in
     let secret := bytesToFieldElement privateKeyBytes prime in
     let coefficients :=
       secret ::
       map (fun i => _secureRandomFieldElement prime (randomBytes32 rng i)
                       (extraEntropy rng ++ toString (Z.of_nat i)))
           (seq 1 (Z.to_nat threshold - 1)) in
     Return (map (fun k => let x0 := Z.of_nat k in
                           {| x := VNumber x0;
                              y := toString (evaluatePolynomial coefficients x0 prime) |})
                 (seq 1 (Z.to_nat numShares)))).

Definition reconstructSecret (shares : list Share) : js_result string :=
  rethrow "Secret reconstruction failed: "
    (_validateShares shares ;;;
     let prime := getPrime in
     secret <- _constantTimeLagrangeInterpolation shares 0 prime ;;
     Return (fieldElementToHex secret)).

Section WithPlatform.
Context {P : Platform}.

(** [JSON.stringify({ x: share.x, y: share.y })] leaves out a property
    whose value is [undefined]. *)
Definition _computeShareChecksum (share : object) : string :=
  let picked :=
    (match obj_get "x" share with Some v => [("x", v)] | None => [] end
     ++ match obj_get "y" share with Some v => [("y", v)] | None => [] end)%list in
  bytesToHex (sha256 (utf8ToBytes (JSON_stringify (JObject picked)))).

(** [{ ...share, metadata: { timestamp: Date.now(), checksum } }] *)
Definition enrichShare (now : Z) (share : object) : object :=
  obj_set "metadata"
          (JObject [("timestamp", JNumber now);
                    ("checksum", JString (_computeShareChecksum share))])
          share.

(** [encryptShare(publicKeyHex, share)]; [now] is [Date.now()], and the
    two byte strings are the randomness [EccService.encrypt] draws. *)
Definition encryptShare (now : Z) (ephemeralPrivateKey ivBytes : list Z)
           (publicKeyHex : string) (share : object) : js_result string :=
  rethrow "Share encryption failed: "
    (let shareStr := JSON_stringify (JObject (enrichShare now share)) in
     encrypted <- EccService.encrypt ephemeralPrivateKey ivBytes publicKeyHex shareStr ;;
     Return (EccService.formatForContract encrypted)).

Definition decryptShare (privateKeyHex encryptedShareHex : string) : js_result object :=
  rethrow "Share decryption failed: "
    (let encryptedData := EccService.parseFromContract encryptedShareHex in
     decryptedShareJson <- EccService.decrypt privateKeyHex encryptedData ;;
     enrichedShare <- JSON_parse decryptedShareJson ;;
     properties <- own_properties enrichedShare ;;
     let metadata := property "metadata" enrichedShare in
     let share := obj_remove "metadata" properties in
     match metadata with
     | Some m =>
         if truthy m then
           let computedChecksum := _computeShareChecksum share in
           match property "checksum" m with
           | Some (JString stored) =>
               if String.eqb computedChecksum stored then Return tt
               else Throw "Share integrity verification failed: checksum mismatch"
           | _ => Throw "Share integrity verification failed: checksum mismatch"
           end
         else Return tt
     | None => Return tt
     end ;;;
     Return share).

End WithPlatform.

End ProductionShamirService.

(** * SecureShareRegistryService *)

Module SecureShareRegistryService.

(** An object a provider call rejects with: its [code] when that is a
    string, and its [message] when it has one. *)
Record TxError : Type := {
  code : option string;
  message : option string
}.

(** What a promise settles to. *)
Inductive outcome (A : Type) : Type :=
| Resolved (value : A)
| Rejected (error : TxError).

Arguments Resolved {A} value.
Arguments Rejected {A} error.

(** What [_sendTransactionWithRetry] ends with: the value it returns, the
    [lastError] it throws, which is [undefined] until a call has failed,
    or the TypeError its [catch] block raises. *)
Inductive retried (A : Type) : Type :=
| Returned (value : A)
| Threw (lastError : option TxError)
| ThrewTypeError (text : string).

Arguments Returned {A} value.
Arguments Threw {A} lastError.
Arguments ThrewTypeError {A} text.

(** [s.includes(part)] *)
Fixpoint includes (s part : string) : bool :=
  match s with
  | EmptyString => String.eqb part ""
  | String _ rest => startsWith s part || includes rest part
  end.

(** [error.code === name] *)
Definition code_is (error : TxError) (name : string) : bool :=
  match code error with
  | Some c => String.eqb c name
  | None => false
  end.

(** The [shouldRetry] of the [catch] block.  [||] stops at the first
    true operand, so the message is read only when no code matches. *)
Definition shouldRetry (error : TxError) : js_result bool :=
  if code_is error "NETWORK_ERROR" || code_is error "TIMEOUT" || code_is error "SERVER_ERROR"
  then Return true
  else match message error with
       | Some text =>
           Return (includes text "nonce"
                   || includes text "underpriced"
                   || includes text "replacement fee too low")
       | None => Throw "Cannot read properties of undefined (reading 'includes')"
       end.

(** [Math.min(2000 * Math.pow(2, attempt - 2), 10000)], in milliseconds. *)
Definition delay (attempt : nat) : Z :=
  Z.min (2000 * 2 ^ (Z.of_nat attempt - 2)) 10000.

(** The [for (let attempt = ...; attempt <= maxRetries + 1; attempt++)]
    loop with [remaining] rounds to go.  [txFunction attempt] is what the
    call made in that round settles to; [waited] collects the delays the
    loop slept, in order. *)
Fixpoint retry_loop {A : Type} (txFunction : nat -> outcome A) (maxRetries attempt remaining : nat)
         (lastError : option TxError) (waited : list Z) : retried A * list Z :=
  match remaining with
  | O => (Threw lastError, waited)
  | S remaining' =>
      let waited' := if (1 <? attempt)%nat then (waited ++ [delay attempt])%list else waited in
      match txFunction attempt with
      | Resolved value => (Returned value, waited')
      | Rejected error =>
          match shouldRetry error with
          | Throw text => (ThrewTypeError text, waited')
          | Return retry =>
              if negb retry || (maxRetries <? attempt)%nat
              then (Threw (Some error), waited')
              else retry_loop txFunction maxRetries (S attempt) remaining' (Some error) waited'
          end
      end
  end.

Definition _sendTransactionWithRetry {A : Type} (txFunction : nat -> outcome A)
           (maxRetries : nat) : retried A * list Z :=
  retry_loop txFunction maxRetries 1 (maxRetries + 1) None [].

End SecureShareRegistryService.

(** * The ledger side: addresses, checked arithmetic, reverts *)

(** Addresses.  The registry creates its share contracts with [new], so
    their addresses are fresh and pairwise distinct; the [n]-th contract it
    created lives at [ShareAddress n].  Every other address, externally
    owned or not, is an [Account]; [Account 0] is [address(0)]. *)
Inductive address : Type :=
| Account (id : N)
| RegistryAddress
| ShareAddress (index : nat).

Definition address_eqb (a b : address) : bool :=
  match a, b with
  | Account i, Account j => N.eqb i j
  | RegistryAddress, RegistryAddress => true
  | ShareAddress i, ShareAddress j => Nat.eqb i j
  | _, _ => false
  end.

Definition zero_address : address := Account 0.

Definition uint256 : Type := Z.
Definition MAX_UINT256 : Z := 2 ^ 256 - 1.
Definition bytes : Type := list byte.

Definition minutes : Z := 60.
Definition hours : Z := 3600.
Definition days : Z := 86400.

(** A call returns, reverts with a reason string, or panics with a code
    (0x11 arithmetic overflow, 0x32 array index out of bounds).  A call
    that does not return leaves the state as it was. *)
Inductive sol_result (A : Type) : Type :=
| Ok (value : A)
| Revert (reason : string)
| Panic (code : Z).

Arguments Ok {A} value.
Arguments Revert {A} reason.
Arguments Panic {A} code.

Definition sol_bind {A B : Type} (r : sol_result A) (k : A -> sol_result B) : sol_result B :=
  match r with
  | Ok a => k a
  | Revert m => Revert m
  | Panic c => Panic c
  end.

Declare Scope sol_scope.
Delimit Scope sol_scope with sol.
Notation "x <- r ;; k" := (sol_bind r (fun x => k))
  (at level 61, r at next level, right associativity) : sol_scope.
Notation "' p <- r ;; k" := (sol_bind r (fun p => k))
  (at level 61, p pattern, r at next level, right associativity) : sol_scope.
Notation "r ;;; k" := (sol_bind r (fun _ => k))
  (at level 61, right associativity) : sol_scope.

Definition require (cond : bool) (reason : string) : sol_result unit :=
  if cond then Ok tt else Revert reason.

Definition checked_add (a b : uint256) : sol_result uint256 :=
  if a + b <=? MAX_UINT256 then Ok (a + b) else Panic 17.

Definition checked_sub (a b : uint256) : sol_result uint256 :=
  if b <=? a then Ok (a - b) else Panic 17.

(** [m[k] = v] on a mapping. *)
Definition upd {V : Type} (m : address -> V) (k : address) (v : V) : address -> V :=
  fun a => if address_eqb a k then v else m a.

(** [a[i] = v] on a storage array, for [i] in range. *)
Fixpoint list_set {A : Type} (l : list A) (i : nat) (v : A) : list A :=
  match l, i with
  | [], _ => []
  | _ :: rest, O => v :: rest
  | h :: rest, S j => h :: list_set rest j v
  end.

(** The loop [for (i = 0; i < a.length; i++) if (a[i] == v) return true]. *)
Fixpoint address_in (v : address) (a : list address) : bool :=
  match a with
  | [] => false
  | h :: rest => if address_eqb h v then true else address_in v rest
  end.

(** What a transaction sees of its context.  [transfer_succeeds] is the
    outcome of the one value transfer ([.call{value: ...}("")]) the
    transaction may make; the callee is assumed not to call back. *)
Record Env : Type := {
  msg_sender : address;
  msg_value : uint256;
  block_timestamp : uint256;
  transfer_succeeds : bool
}.

(** * SecureShareContract: the custodian of one encrypted share *)

Module SecureShareContract.

Record State : Type := {
  owner : address;
  registry : address;
  encryptedShare : bytes;
  isActive : bool;
  lastAccessed : uint256;
  accessCount : uint256;
  lastAccessByAddress : address -> uint256
}.

Definition set_isActive (self : State) (v : bool) : State :=
  {| owner := owner self; registry := registry self;
     encryptedShare := encryptedShare self; isActive := v;
     lastAccessed := lastAccessed self; accessCount := accessCount self;
     lastAccessByAddress := lastAccessByAddress self |}.

Definition set_encryptedShare (self : State) (v : bytes) : State :=
  {| owner := owner self; registry := registry self;
     encryptedShare := v; isActive := isActive self;
     lastAccessed := lastAccessed self; accessCount := accessCount self;
     lastAccessByAddress := lastAccessByAddress self |}.

Definition record_access (self : State) (accessor : address) (timestamp count : uint256) : State :=
  {| owner := owner self; registry := registry self;
     encryptedShare := encryptedShare self; isActive := isActive self;
     lastAccessed := timestamp; accessCount := count;
     lastAccessByAddress := upd (lastAccessByAddress self) accessor timestamp |}.

Local Open Scope sol_scope.

Definition constructor (_owner _registry : address) (_encryptedShare : bytes) : sol_result State :=
  require (negb (address_eqb _owner zero_address)) "Invalid owner" ;;;
  require (negb (address_eqb _registry zero_address)) "Invalid registry" ;;;
  require (0 <? List.length _encryptedShare)%nat "Empty share data" ;;;
  Ok {| owner := _owner; registry := _registry;
        encryptedShare := _encryptedShare; isActive := true;
        lastAccessed := 0; accessCount := 0;
        lastAccessByAddress := fun _ => 0 |}.

Definition onlyOwnerOrRegistry (sender : address) (self : State) : sol_result unit :=
  require (address_eqb sender (owner self) || address_eqb sender (registry self)) "Not authorized".

Definition onlyActive (self : State) : sol_result unit :=
  require (isActive self) "Share is inactive".

(** [getShare()].  [isAuthorizedForShare target owner accessor] is the
    external call [IShareRegistry(target).isAuthorizedForShare(owner,
    accessor)] under [try]/[catch]: [Some result] when it returns, [None]
    when it fails. *)
Definition getShare (isAuthorizedForShare : address -> address -> address -> option bool)
           (sender : address) (timestamp : uint256) (self : State)
  : sol_result (State * bytes) :=
  onlyActive self ;;;
  let isAuthorized :=
    if address_eqb sender (owner self) then true
    else match isAuthorizedForShare (registry self) (owner self) sender with
         | Some result => result
         | None => false
         end in
  require isAuthorized "Not authorized for this share" ;;;
  (if negb (address_eqb sender (owner self)) then
     elapsed <- checked_sub timestamp (lastAccessByAddress self sender) ;;
     require (5 * minutes <=? elapsed) "Access too frequent"
   else Ok tt) ;;;
  count <- checked_add (accessCount self) 1 ;;
  Ok (record_access self sender timestamp count, encryptedShare self).

Definition deactivate (sender : address) (self : State) : sol_result State :=
  onlyOwnerOrRegistry sender self ;;;
  Ok (set_isActive self false).

Definition updateShare (sender : address) (_newEncryptedShare : bytes) (self : State)
  : sol_result State :=
  onlyOwnerOrRegistry sender self ;;;
  onlyActive self ;;;
  require (0 <? List.length _newEncryptedShare)%nat "Empty share data" ;;;
  Ok (set_encryptedShare self _newEncryptedShare).

Definition isAuthorized (isAuthorizedForShare : address -> address -> address -> option bool)
           (caller : address) (self : State) : bool :=
  if address_eqb caller (owner self) then true
  else match isAuthorizedForShare (registry self) (owner self) caller with
       | Some result => result
       | None => false
       end.

End SecureShareContract.

(** * SecureShareRegistry *)

Module SecureShareRegistry.

(** [keccak256(abi.encodePacked(...))] of the two records the registry
    hashes, kept symbolic: the hash of a packed tuple stands for the tuple. *)
Inductive bytes32 : Type :=
| zero_hash
| config_hash (user : address) (totalShares threshold timestamp : uint256)
              (shareContracts : list address)
| request_hash (user initiator : address) (requestTime expiresAt : uint256).

Module ShareConfig.
Record t : Type := {
  totalShares : uint256;
  threshold : uint256;
  creationTime : uint256;
  isActive : bool;
  configHash : bytes32
}.
Definition empty : t :=
  {| totalShares := 0; threshold := 0; creationTime := 0; isActive := false;
     configHash := zero_hash |}.
Definition set_isActive (c : t) (v : bool) : t :=
  {| totalShares := totalShares c; threshold := threshold c;
     creationTime := creationTime c; isActive := v; configHash := configHash c |}.
End ShareConfig.

Module RecoveryRequest.
Record t : Type := {
  initiator : address;
  requestTime : uint256;
  expiresAt : uint256;
  requestHash : bytes32;
  isActive : bool
}.
Definition empty : t :=
  {| initiator := zero_address; requestTime := 0; expiresAt := 0;
     requestHash := zero_hash; isActive := false |}.
Definition set_isActive (r : t) (v : bool) : t :=
  {| initiator := initiator r; requestTime := requestTime r;
     expiresAt := expiresAt r; requestHash := requestHash r; isActive := v |}.
End RecoveryRequest.

(** The registry's storage.  [contractOwner] and [paused] are the state of
    the inherited [Ownable] and [Pausable]. *)
Record Storage : Type := {
  serviceFee : uint256;
  feeCollector : address;
  shareConfigs : address -> ShareConfig.t;
  userShares : address -> list address;
  recoveryAddresses : address -> list address;
  emergencyContacts : address -> address;
  recoveryRequests : address -> RecoveryRequest.t;
  blacklisted : address -> bool;
  feeExemptions : address -> bool;
  lastActionTimestamp : address -> uint256;
  failedAttempts : address -> uint256;
  contractOwner : address;
  paused : bool
}.

Definition THROTTLE_DURATION : uint256 := 5 * minutes.
Definition MAX_FAILED_ATTEMPTS : uint256 := 5.

(** The registry together with the share contracts it has created, in the
    order of their creation. *)
Record World : Type := {
  storage : Storage;
  deployed : list SecureShareContract.State
}.

Definition set_serviceFee (s : Storage) (v : uint256) : Storage :=
  {| serviceFee := v; feeCollector := feeCollector s; shareConfigs := shareConfigs s;
     userShares := userShares s; recoveryAddresses := recoveryAddresses s;
     emergencyContacts := emergencyContacts s; recoveryRequests := recoveryRequests s;
     blacklisted := blacklisted s; feeExemptions := feeExemptions s;
     lastActionTimestamp := lastActionTimestamp s; failedAttempts := failedAttempts s;
     contractOwner := contractOwner s; paused := paused s |}.

Definition set_feeCollector (s : Storage) (v : address) : Storage :=
  {| serviceFee := serviceFee s; feeCollector := v; shareConfigs := shareConfigs s;
     userShares := userShares s; recoveryAddresses := recoveryAddresses s;
     emergencyContacts := emergencyContacts s; recoveryRequests := recoveryRequests s;
     blacklisted := blacklisted s; feeExemptions := feeExemptions s;
     lastActionTimestamp := lastActionTimestamp s; failedAttempts := failedAttempts s;
     contractOwner := contractOwner s; paused := paused s |}.

Definition set_shareConfigs (s : Storage) (v : address -> ShareConfig.t) : Storage :=
  {| serviceFee := serviceFee s; feeCollector := feeCollector s; shareConfigs := v;
     userShares := userShares s; recoveryAddresses := recoveryAddresses s;
     emergencyContacts := emergencyContacts s; recoveryRequests := recoveryRequests s;
     blacklisted := blacklisted s; feeExemptions := feeExemptions s;
     lastActionTimestamp := lastActionTimestamp s; failedAttempts := failedAttempts s;
     contractOwner := contractOwner s; paused := paused s |}.

Definition set_userShares (s : Storage) (v : address -> list address) : Storage :=
  {| serviceFee := serviceFee s; feeCollector := feeCollector s; shareConfigs := shareConfigs s;
     userShares := v; recoveryAddresses := recoveryAddresses s;
     emergencyContacts := emergencyContacts s; recoveryRequests := recoveryRequests s;
     blacklisted := blacklisted s; feeExemptions := feeExemptions s;
     lastActionTimestamp := lastActionTimestamp s; failedAttempts := failedAttempts s;
     contractOwner := contractOwner s; paused := paused s |}.

Definition set_recoveryAddresses (s : Storage) (v : address -> list address) : Storage :=
  {| serviceFee := serviceFee s; feeCollector := feeCollector s; shareConfigs := shareConfigs s;
     userShares := userShares s; recoveryAddresses := v;
     emergencyContacts := emergencyContacts s; recoveryRequests := recoveryRequests s;
     blacklisted := blacklisted s; feeExemptions := feeExemptions s;
     lastActionTimestamp := lastActionTimestamp s; failedAttempts := failedAttempts s;
     contractOwner := contractOwner s; paused := paused s |}.

Definition set_emergencyContacts (s : Storage) (v : address -> address) : Storage :=
  {| serviceFee := serviceFee s; feeCollector := feeCollector s; shareConfigs := shareConfigs s;
     userShares := userShares s; recoveryAddresses := recoveryAddresses s;
     emergencyContacts := v; recoveryRequests := recoveryRequests s;
     blacklisted := blacklisted s; feeExemptions := feeExemptions s;
     lastActionTimestamp := lastActionTimestamp s; failedAttempts := failedAttempts s;
     contractOwner := contractOwner s; paused := paused s |}.

Definition set_recoveryRequests (s : Storage) (v : address -> RecoveryRequest.t) : Storage :=
  {| serviceFee := serviceFee s; feeCollector := feeCollector s; shareConfigs := shareConfigs s;
     userShares := userShares s; recoveryAddresses := recoveryAddresses s;
     emergencyContacts := emergencyContacts s; recoveryRequests := v;
     blacklisted := blacklisted s; feeExemptions := feeExemptions s;
     lastActionTimestamp := lastActionTimestamp s; failedAttempts := failedAttempts s;
     contractOwner := contractOwner s; paused := paused s |}.

Definition set_blacklisted (s : Storage) (v : address -> bool) : Storage :=
  {| serviceFee := serviceFee s; feeCollector := feeCollector s; shareConfigs := shareConfigs s;
     userShares := userShares s; recoveryAddresses := recoveryAddresses s;
     emergencyContacts := emergencyContacts s; recoveryRequests := recoveryRequests s;
     blacklisted := v; feeExemptions := feeExemptions s;
     lastActionTimestamp := lastActionTimestamp s; failedAttempts := failedAttempts s;
     contractOwner := contractOwner s; paused := paused s |}.

Definition set_feeExemptions (s : Storage) (v : address -> bool) : Storage :=
  {| serviceFee := serviceFee s; feeCollector := feeCollector s; shareConfigs := shareConfigs s;
     userShares := userShares s; recoveryAddresses := recoveryAddresses s;
     emergencyContacts := emergencyContacts s; recoveryRequests := recoveryRequests s;
     blacklisted := blacklisted s; feeExemptions := v;
     lastActionTimestamp := lastActionTimestamp s; failedAttempts := failedAttempts s;
     contractOwner := contractOwner s; paused := paused s |}.

Definition set_lastActionTimestamp (s : Storage) (v : address -> uint256) : Storage :=
  {| serviceFee := serviceFee s; feeCollector := feeCollector s; shareConfigs := shareConfigs s;
     userShares := userShares s; recoveryAddresses := recoveryAddresses s;
     emergencyContacts := emergencyContacts s; recoveryRequests := recoveryRequests s;
     blacklisted := blacklisted s; feeExemptions := feeExemptions s;
     lastActionTimestamp := v; failedAttempts := failedAttempts s;
     contractOwner := contractOwner s; paused := paused s |}.

Definition set_failedAttempts (s : Storage) (v : address -> uint256) : Storage :=
  {| serviceFee := serviceFee s; feeCollector := feeCollector s; shareConfigs := shareConfigs s;
     userShares := userShares s; recoveryAddresses := recoveryAddresses s;
     emergencyContacts := emergencyContacts s; recoveryRequests := recoveryRequests s;
     blacklisted := blacklisted s; feeExemptions := feeExemptions s;
     lastActionTimestamp := lastActionTimestamp s; failedAttempts := v;
     contractOwner := contractOwner s; paused := paused s |}.

Definition set_contractOwner (s : Storage) (v : address) : Storage :=
  {| serviceFee := serviceFee s; feeCollector := feeCollector s; shareConfigs := shareConfigs s;
     userShares := userShares s; recoveryAddresses := recoveryAddresses s;
     emergencyContacts := emergencyContacts s; recoveryRequests := recoveryRequests s;
     blacklisted := blacklisted s; feeExemptions := feeExemptions s;
     lastActionTimestamp := lastActionTimestamp s; failedAttempts := failedAttempts s;
     contractOwner := v; paused := paused s |}.

Definition set_paused (s : Storage) (v : bool) : Storage :=
  {| serviceFee := serviceFee s; feeCollector := feeCollector s; shareConfigs := shareConfigs s;
     userShares := userShares s; recoveryAddresses := recoveryAddresses s;
     emergencyContacts := emergencyContacts s; recoveryRequests := recoveryRequests s;
     blacklisted := blacklisted s; feeExemptions := feeExemptions s;
     lastActionTimestamp := lastActionTimestamp s; failedAttempts := failedAttempts s;
     contractOwner := contractOwner s; paused := v |}.

Definition with_storage (w : World) (s : Storage) : World :=
  {| storage := s; deployed := deployed w |}.

Local Open Scope sol_scope.

(** [constructor(initialServiceFee, initialFeeCollector)], deployed by
    [deployer]. *)
Definition constructor (deployer : address) (initialServiceFee : uint256)
           (initialFeeCollector : address) : sol_result World :=
  require (negb (address_eqb initialFeeCollector zero_address)) "Invalid fee collector" ;;;
  Ok {| storage :=
          {| serviceFee := initialServiceFee; feeCollector := initialFeeCollector;
             shareConfigs := fun _ => ShareConfig.empty;
             userShares := fun _ => [];
             recoveryAddresses := fun _ => [];
             emergencyContacts := fun _ => zero_address;
             recoveryRequests := fun _ => RecoveryRequest.empty;
             blacklisted := fun _ => false;
             feeExemptions := fun _ => false;
             lastActionTimestamp := fun _ => 0;
             failedAttempts := fun _ => 0;
             contractOwner := deployer;
             paused := false |};
        deployed := [] |}.

(** ** View functions *)

Definition hasShares (s : Storage) (user : address) : bool :=
  (0 <? ShareConfig.totalShares (shareConfigs s user))
  && ShareConfig.isActive (shareConfigs s user).

Definition isRecoveryAddress (s : Storage) (user recoveryAddr : address) : bool :=
  address_in recoveryAddr (recoveryAddresses s user).

Definition isAuthorizedForShare (s : Storage) (timestamp : uint256)
           (owner accessor : address) : bool :=
  if address_eqb owner accessor then true
  else if isRecoveryAddress s owner accessor then true
  else if address_eqb (emergencyContacts s owner) accessor then true
  else
    let request := recoveryRequests s owner in
    if RecoveryRequest.isActive request
       && address_eqb (RecoveryRequest.initiator request) accessor
       && (RecoveryRequest.expiresAt request <=? timestamp)
    then true
    else false.

(** ** Modifiers and internal functions *)

Definition onlyOwner (s : Storage) (sender : address) : sol_result unit :=
  require (address_eqb (contractOwner s) sender) "Ownable: caller is not the owner".

Definition whenNotPaused (s : Storage) : sol_result unit :=
  require (negb (paused s)) "Pausable: paused".

Definition whenPaused (s : Storage) : sol_result unit :=
  require (paused s) "Pausable: not paused".

Definition _checkBlacklist (s : Storage) (account : address) : sol_result unit :=
  require (negb (blacklisted s account)) "Address is blacklisted".

Definition _recordFailedAttempt (timestamp : uint256) (account : address) (s : Storage)
  : sol_result Storage :=
  count <- checked_add (failedAttempts s account) 1 ;;
  Ok (set_lastActionTimestamp
        (set_failedAttempts s (upd (failedAttempts s) account count))
        (upd (lastActionTimestamp s) account timestamp)).

Definition _throttleRequests (timestamp : uint256) (account : address) (s : Storage)
  : sol_result Storage :=
  if address_eqb account (contractOwner s) then Ok s
  else
    sinceLast <- checked_sub timestamp (lastActionTimestamp s account) ;;
    let s1 := if sinceLast >? 1 * days
              then set_failedAttempts s (upd (failedAttempts s) account 0)
              else s in
    s2 <- (if failedAttempts s1 account >=? MAX_FAILED_ATTEMPTS then
             sinceLast' <- checked_sub timestamp (lastActionTimestamp s1 account) ;;
             require (sinceLast' >? 1 * hours) "Too many failed attempts, try again later" ;;;
             Ok (set_failedAttempts s1 (upd (failedAttempts s1) account 0))
           else Ok s1) ;;
    sinceLast'' <- checked_sub timestamp (lastActionTimestamp s2 account) ;;
    require (THROTTLE_DURATION <=? sinceLast'') "Please wait before making another request" ;;;
    Ok s2.

(** ** External calls into the share contracts *)

(** What a share contract gets when it calls [isAuthorizedForShare] on the
    address it holds as its registry. *)
Definition registry_view (s : Storage) (timestamp : uint256)
           (target owner accessor : address) : option bool :=
  match target with
  | RegistryAddress => Some (isAuthorizedForShare s timestamp owner accessor)
  | _ => None
  end.

(** A call of a function of the contract at [target]; it reverts when no
    share contract lives there. *)
Definition call_share {A : Type} (w : World) (target : address)
           (f : SecureShareContract.State -> sol_result (SecureShareContract.State * A))
  : sol_result (World * A) :=
  match target with
  | ShareAddress n =>
      match nth_error (deployed w) n with
      | Some c =>
          '(c', a) <- f c ;;
          Ok ({| storage := storage w; deployed := list_set (deployed w) n c' |}, a)
      | None => Revert ""
      end
  | _ => Revert ""
  end.

(** The creation loop of [storeShares] and [storeSharesFor]. *)
Fixpoint deploy_shares (user : address) (encryptedShareData : list bytes) (w : World)
         (shareContracts : list address) : sol_result (World * list address) :=
  match encryptedShareData with
  | [] => Ok (w, shareContracts)
  | data :: rest =>
      require (0 <? List.length data)%nat "Empty share data" ;;;
      newContract <- SecureShareContract.constructor user RegistryAddress data ;;
      let newAddress := ShareAddress (List.length (deployed w)) in
      let s := storage w in
      let w' := {| storage := set_userShares s (upd (userShares s) user
                                                    (userShares s user ++ [newAddress])%list);
                   deployed := (deployed w ++ [newContract])%list |} in
      deploy_shares user rest w' (shareContracts ++ [newAddress])%list
  end.

(** The loop of [revokeShares]: [deactivate()] on each contract, called by
    the registry. *)
Fixpoint deactivate_all (shares : list address) (w : World) : sol_result World :=
  match shares with
  | [] => Ok w
  | a :: rest =>
      '(w', _) <- call_share w a
                    (fun c => c' <- SecureShareContract.deactivate RegistryAddress c ;;
                              Ok (c', tt)) ;;
      deactivate_all rest w'
  end.

(** ** Transactions *)

Definition store_for (e : Env) (user : address) (encryptedShareData : list bytes)
           (threshold : uint256) (w : World) : sol_result (World * list address) :=
  let count := Z.of_nat (List.length encryptedShareData) in
  '(w1, shareContracts) <- deploy_shares user encryptedShareData w [] ;;
  let configHash :=
    config_hash user count threshold (block_timestamp e) shareContracts in
  let s1 := storage w1 in
  let s2 := set_shareConfigs s1
              (upd (shareConfigs s1) user
                   {| ShareConfig.totalShares := count;
                      ShareConfig.threshold := threshold;
                      ShareConfig.creationTime := block_timestamp e;
                      ShareConfig.isActive := true;
                      ShareConfig.configHash := configHash |}) in
  (if 0 <? msg_value e
   then require (transfer_succeeds e) "Fee transfer failed"
   else Ok tt) ;;;
  let s3 := set_lastActionTimestamp s2
              (upd (lastActionTimestamp s2) user (block_timestamp e)) in
  Ok (with_storage w1 s3, shareContracts).

Definition storeShares (e : Env) (encryptedShareData : list bytes) (threshold : uint256)
           (w : World) : sol_result (World * list address) :=
  let s := storage w in
  let count := Z.of_nat (List.length encryptedShareData) in
  whenNotPaused s ;;;
  _checkBlacklist s (msg_sender e) ;;;
  s1 <- _throttleRequests (block_timestamp e) (msg_sender e) s ;;
  (if negb (feeExemptions s1 (msg_sender e))
   then require (serviceFee s1 <=? msg_value e) "Insufficient fee"
   else Ok tt) ;;;
  require ((0 <? threshold) && (threshold <=? count)) "Invalid threshold" ;;;
  require (3 <=? count) "Minimum 3 shares required" ;;;
  require (count <=? 100) "Maximum 100 shares allowed" ;;;
  require (negb (hasShares s1 (msg_sender e))) "Shares already exist" ;;;
  store_for e (msg_sender e) encryptedShareData threshold (with_storage w s1).

(** [storeSharesFor].  [recoveredSigner] is what [digest.recover(signature)]
    yields for the typed digest of this call: the signer, or [None] when
    [ECDSA.recover] reverts on a malformed signature. *)
Definition storeSharesFor (e : Env) (user : address) (encryptedShareData : list bytes)
           (threshold deadline : uint256) (recoveredSigner : option address)
           (w : World) : sol_result (World * list address) :=
  let s := storage w in
  let count := Z.of_nat (List.length encryptedShareData) in
  whenNotPaused s ;;;
  require (block_timestamp e <=? deadline) "Signature expired" ;;;
  _checkBlacklist s user ;;;
  _checkBlacklist s (msg_sender e) ;;;
  s1 <- _throttleRequests (block_timestamp e) (msg_sender e) s ;;
  (if negb (feeExemptions s1 user) && negb (feeExemptions s1 (msg_sender e))
   then require (serviceFee s1 <=? msg_value e) "Insufficient fee"
   else Ok tt) ;;;
  require ((0 <? threshold) && (threshold <=? count)) "Invalid threshold" ;;;
  require (3 <=? count) "Minimum 3 shares required" ;;;
  require (count <=? 100) "Maximum 100 shares allowed" ;;;
  require (negb (hasShares s1 user)) "Shares already exist" ;;;
  signer <- match recoveredSigner with
            | Some a => Ok a
            | None => Revert "ECDSA: invalid signature"
            end ;;
  require (address_eqb signer user) "Invalid signature" ;;;
  store_for e user encryptedShareData threshold (with_storage w s1).

Definition revokeShares (e : Env) (w : World) : sol_result World :=
  let s := storage w in
  let sender := msg_sender e in
  require (hasShares s sender) "No shares found" ;;;
  w1 <- deactivate_all (userShares s sender) w ;;
  let s1 := storage w1 in
  let s2 := set_shareConfigs s1
              (upd (shareConfigs s1) sender
                   (ShareConfig.set_isActive (shareConfigs s1 sender) false)) in
  let s3 := set_lastActionTimestamp s2
              (upd (lastActionTimestamp s2) sender (block_timestamp e)) in
  Ok (with_storage w1 s3).

Definition getShare (e : Env) (user : address) (index : uint256) (w : World)
  : sol_result (World * bytes) :=
  let s := storage w in
  require (hasShares s user) "No shares found" ;;;
  require (index <? ShareConfig.totalShares (shareConfigs s user)) "Invalid share index" ;;;
  s1 <- (if negb (address_eqb (msg_sender e) user)
         then _throttleRequests (block_timestamp e) (msg_sender e) s
         else Ok s) ;;
  target <- match nth_error (userShares s1 user) (Z.to_nat index) with
            | Some a => Ok a
            | None => Panic 50
            end ;;
  call_share (with_storage w s1) target
             (SecureShareContract.getShare (registry_view s1 (block_timestamp e))
                                           RegistryAddress (block_timestamp e)).

Definition initiateRecovery (e : Env) (user : address) (w : World) : sol_result World :=
  let s := storage w in
  let sender := msg_sender e in
  require (hasShares s user) "No shares found" ;;;
  require (address_eqb sender (emergencyContacts s user) || isRecoveryAddress s user sender)
          "Not authorized for recovery" ;;;
  require (negb (RecoveryRequest.isActive (recoveryRequests s user)))
          "Recovery already initiated" ;;;
  s1 <- _throttleRequests (block_timestamp e) sender s ;;
  expiresAt <- checked_add (block_timestamp e) (48 * hours) ;;
  let requestHash := request_hash user sender (block_timestamp e) expiresAt in
  let s2 := set_recoveryRequests s1
              (upd (recoveryRequests s1) user
                   {| RecoveryRequest.initiator := sender;
                      RecoveryRequest.requestTime := block_timestamp e;
                      RecoveryRequest.expiresAt := expiresAt;
                      RecoveryRequest.requestHash := requestHash;
                      RecoveryRequest.isActive := true |}) in
  let s3 := set_lastActionTimestamp s2
              (upd (lastActionTimestamp s2) sender (block_timestamp e)) in
  Ok (with_storage w s3).

Definition cancelRecovery (e : Env) (user : address) (w : World) : sol_result World :=
  let s := storage w in
  let sender := msg_sender e in
  let request := recoveryRequests s user in
  require (RecoveryRequest.isActive request) "No active recovery" ;;;
  require (address_eqb sender user
           || address_eqb sender (RecoveryRequest.initiator request)
           || address_eqb sender (contractOwner s))
          "Not authorized to cancel" ;;;
  let s1 := set_recoveryRequests s
              (upd (recoveryRequests s) user (RecoveryRequest.set_isActive request false)) in
  let s2 := set_lastActionTimestamp s1
              (upd (lastActionTimestamp s1) sender (block_timestamp e)) in
  Ok (with_storage w s2).

Definition addRecoveryAddress (e : Env) (recoveryAddress : address) (w : World)
  : sol_result World :=
  let s := storage w in
  let sender := msg_sender e in
  require (negb (address_eqb recoveryAddress zero_address)) "Invalid address" ;;;
  require (negb (address_eqb recoveryAddress sender)) "Cannot add self as recovery" ;;;
  s1 <- _throttleRequests (block_timestamp e) sender s ;;
  _checkBlacklist s1 recoveryAddress ;;;
  let addresses := recoveryAddresses s1 sender in
  require (negb (address_in recoveryAddress addresses)) "Address already added" ;;;
  require (List.length addresses <? 10)%nat "Too many recovery addresses" ;;;
  let s2 := set_recoveryAddresses s1
              (upd (recoveryAddresses s1) sender (addresses ++ [recoveryAddress])%list) in
  _ <- checked_add (block_timestamp e) (365 * days) ;;
  let s3 := set_lastActionTimestamp s2
              (upd (lastActionTimestamp s2) sender (block_timestamp e)) in
  Ok (with_storage w s3).

(** The search loop of [removeRecoveryAddress]: the first index holding
    [v], if any. *)
Fixpoint find_address (v : address) (a : list address) (i : nat) : option nat :=
  match a with
  | [] => None
  | h :: rest => if address_eqb h v then Some i else find_address v rest (S i)
  end.

Definition removeRecoveryAddress (e : Env) (recoveryAddress : address) (w : World)
  : sol_result World :=
  let s := storage w in
  let sender := msg_sender e in
  s1 <- _throttleRequests (block_timestamp e) sender s ;;
  let addresses := recoveryAddresses s1 sender in
  let length := List.length addresses in
  match find_address recoveryAddress addresses 0 with
  | None => Revert "Recovery address not found"
  | Some index =>
      let moved :=
        if (index <? length - 1)%nat
        then list_set addresses index (nth (length - 1) addresses zero_address)
        else addresses in
      let s2 := set_recoveryAddresses s1
                  (upd (recoveryAddresses s1) sender (removelast moved)) in
      let s3 := set_lastActionTimestamp s2
                  (upd (lastActionTimestamp s2) sender (block_timestamp e)) in
      Ok (with_storage w s3)
  end.

Definition setEmergencyContact (e : Env) (contact : address) (w : World) : sol_result World :=
  let s := storage w in
  let sender := msg_sender e in
  require (negb (address_eqb contact zero_address)) "Invalid address" ;;;
  require (negb (address_eqb contact sender)) "Cannot set self as emergency contact" ;;;
  s1 <- _throttleRequests (block_timestamp e) sender s ;;
  _checkBlacklist s1 contact ;;;
  let s2 := set_emergencyContacts s1 (upd (emergencyContacts s1) sender contact) in
  let s3 := set_lastActionTimestamp s2
              (upd (lastActionTimestamp s2) sender (block_timestamp e)) in
  Ok (with_storage w s3).

(** ** Administration *)

Definition setServiceFee (e : Env) (newFee : uint256) (w : World) : sol_result World :=
  onlyOwner (storage w) (msg_sender e) ;;;
  Ok (with_storage w (set_serviceFee (storage w) newFee)).

Definition setFeeCollector (e : Env) (newCollector : address) (w : World) : sol_result World :=
  onlyOwner (storage w) (msg_sender e) ;;;
  require (negb (address_eqb newCollector zero_address)) "Invalid fee collector" ;;;
  Ok (with_storage w (set_feeCollector (storage w) newCollector)).

Definition setBlacklistStatus (e : Env) (account : address) (isBlacklisted : bool) (w : World)
  : sol_result World :=
  onlyOwner (storage w) (msg_sender e) ;;;
  Ok (with_storage w (set_blacklisted (storage w)
                                      (upd (blacklisted (storage w)) account isBlacklisted))).

Definition setFeeExemption (e : Env) (account : address) (exempt : bool) (w : World)
  : sol_result World :=
  onlyOwner (storage w) (msg_sender e) ;;;
  Ok (with_storage w (set_feeExemptions (storage w)
                                        (upd (feeExemptions (storage w)) account exempt))).

Definition pause (e : Env) (w : World) : sol_result World :=
  onlyOwner (storage w) (msg_sender e) ;;;
  whenNotPaused (storage w) ;;;
  Ok (with_storage w (set_paused (storage w) true)).

Definition unpause (e : Env) (w : World) : sol_result World :=
  onlyOwner (storage w) (msg_sender e) ;;;
  whenPaused (storage w) ;;;
  Ok (with_storage w (set_paused (storage w) false)).

Definition resetFailedAttempts (e : Env) (account : address) (w : World) : sol_result World :=
  onlyOwner (storage w) (msg_sender e) ;;;
  Ok (with_storage w (set_failedAttempts (storage w)
                                         (upd (failedAttempts (storage w)) account 0))).

Definition emergencyCancelRecovery (e : Env) (user : address) (w : World) : sol_result World :=
  let s := storage w in
  onlyOwner s (msg_sender e) ;;;
  Ok (with_storage w
        (set_recoveryRequests s
           (upd (recoveryRequests s) user
                (RecoveryRequest.set_isActive (recoveryRequests s user) false)))).

Definition withdrawFees (e : Env) (recipient : address) (w : World) : sol_result World :=
  onlyOwner (storage w) (msg_sender e) ;;;
  require (negb (address_eqb recipient zero_address)) "Invalid recipient" ;;;
  require (transfer_succeeds e) "Transfer failed" ;;;
  Ok w.

Definition transferOwnership (e : Env) (newOwner : address) (w : World) : sol_result World :=
  onlyOwner (storage w) (msg_sender e) ;;;
  require (negb (address_eqb newOwner zero_address)) "Ownable: new owner is the zero address" ;;;
  Ok (with_storage w (set_contractOwner (storage w) newOwner)).

Definition renounceOwnership (e : Env) (w : World) : sol_result World :=
  onlyOwner (storage w) (msg_sender e) ;;;
  Ok (with_storage w (set_contractOwner (storage w) zero_address)).

(** ** Transactions sent to a share contract directly *)

Definition share_getShare (e : Env) (target : address) (w : World) : sol_result (World * bytes) :=
  call_share w target
             (SecureShareContract.getShare (registry_view (storage w) (block_timestamp e))
                                           (msg_sender e) (block_timestamp e)).

Definition share_deactivate (e : Env) (target : address) (w : World) : sol_result World :=
  '(w', _) <- call_share w target
                (fun c => c' <- SecureShareContract.deactivate (msg_sender e) c ;; Ok (c', tt)) ;;
  Ok w'.

Definition share_updateShare (e : Env) (target : address) (_newEncryptedShare : bytes)
           (w : World) : sol_result World :=
  '(w', _) <- call_share w target
                (fun c => c' <- SecureShareContract.updateShare (msg_sender e)
                                  _newEncryptedShare c ;;
                          Ok (c', tt)) ;;
  Ok w'.

(** ** Every transaction the two contracts accept

    ([receive] only takes Ether and [fallback] always reverts: neither
    changes the state, and they are not listed.) *)

Inductive call : Type :=
| StoreShares (encryptedShareData : list bytes) (threshold : uint256)
| StoreSharesFor (user : address) (encryptedShareData : list bytes)
                 (threshold deadline : uint256) (recoveredSigner : option address)
| RevokeShares
| GetShare (user : address) (index : uint256)
| InitiateRecovery (user : address)
| CancelRecovery (user : address)
| AddRecoveryAddress (recoveryAddress : address)
| RemoveRecoveryAddress (recoveryAddress : address)
| SetEmergencyContact (contact : address)
| SetServiceFee (newFee : uint256)
| SetFeeCollector (newCollector : address)
| SetBlacklistStatus (account : address) (isBlacklisted : bool)
| SetFeeExemption (account : address) (exempt : bool)
| Pause
| Unpause
| ResetFailedAttempts (account : address)
| EmergencyCancelRecovery (user : address)
| WithdrawFees (recipient : address)
| TransferOwnership (newOwner : address)
| RenounceOwnership
| ShareGetShare (target : address)
| ShareDeactivate (target : address)
| ShareUpdateShare (target : address) (_newEncryptedShare : bytes).

Definition drop_value {A : Type} (r : sol_result (World * A)) : sol_result World :=
  '(w, _) <- r ;; Ok w.

Definition execute (e : Env) (c : call) (w : World) : sol_result World :=
  match c with
  | StoreShares d t => drop_value (storeShares e d t w)
  | StoreSharesFor u d t dl sg => drop_value (storeSharesFor e u d t dl sg w)
  | RevokeShares => revokeShares e w
  | GetShare u i => drop_value (getShare e u i w)
  | InitiateRecovery u => initiateRecovery e u w
  | CancelRecovery u => cancelRecovery e u w
  | AddRecoveryAddress a => addRecoveryAddress e a w
  | RemoveRecoveryAddress a => removeRecoveryAddress e a w
  | SetEmergencyContact a => setEmergencyContact e a w
  | SetServiceFee f => setServiceFee e f w
  | SetFeeCollector a => setFeeCollector e a w
  | SetBlacklistStatus a b => setBlacklistStatus e a b w
  | SetFeeExemption a b => setFeeExemption e a b w
  | Pause => pause e w
  | Unpause => unpause e w
  | ResetFailedAttempts a => resetFailedAttempts e a w
  | EmergencyCancelRecovery u => emergencyCancelRecovery e u w
  | WithdrawFees a => withdrawFees e a w
  | TransferOwnership a => transferOwnership e a w
  | RenounceOwnership => renounceOwnership e w
  | ShareGetShare a => drop_value (share_getShare e a w)
  | ShareDeactivate a => share_deactivate e a w
  | ShareUpdateShare a d => share_updateShare e a d w
  end.

(** A history: transactions applied one after another.  A transaction
    that reverts leaves the world as it was, and the history goes on. *)
Fixpoint run (history : list (Env * call)) (w : World) : World :=
  match history with
  | [] => w
  | (e, c) :: rest =>
      match execute e c w with
      | Ok w' => run rest w'
      | _ => run rest w
      end
  end.

End SecureShareRegistry.

(** * Vocabulary of the statements *)

Import EccService ProductionShamirService SecureShareRegistry.

(** Reading back the digit written for [n] gives [n]. *)
Definition hex_digit_reads_back (n : Z) : bool :=
  match hex_value (hex_digit n) with
  | Some m => m =? n
  | None => false
  end.

(** A share [_validateShares] lets through and the interpolation can
    read: an index that is truthy, that [parseInt] reads a number from and
    that [BigInt] converts, and a value written in decimal digits. *)
Definition well_formed (s : Share) : Prop :=
  falsy (x s) = false
  /\ parseInt_isNaN (ToString (x s)) = false
  /\ (exists xi, BigInt_of_value (x s) = Return xi)
  /\ matches_digits (y s) = true.

(** A share contract never comes back to life, and keeps its owner and
    registry. *)
Definition custodian_evolves (c c' : SecureShareContract.State) : Prop :=
  (SecureShareContract.isActive c = false -> SecureShareContract.isActive c' = false)
  /\ SecureShareContract.owner c' = SecureShareContract.owner c
  /\ SecureShareContract.registry c' = SecureShareContract.registry c.

Definition deployed_evolves (l l' : list SecureShareContract.State) : Prop :=
  forall n c, nth_error l n = Some c ->
              exists c', nth_error l' n = Some c' /\ custodian_evolves c c'.

Definition userShares_grows (s s' : Storage) : Prop :=
  forall u, exists added, userShares s' u = (userShares s u ++ added)%list.

Definition world_evolves (w w' : World) : Prop :=
  deployed_evolves (deployed w) (deployed w')
  /\ userShares_grows (storage w) (storage w').

(** The contract at [a] exists and its active flag is cleared. *)
Definition custodian_inactive (w : World) (a : address) : Prop :=
  exists n c, a = ShareAddress n
              /\ nth_error (deployed w) n = Some c
              /\ SecureShareContract.isActive c = false.

(** What [revokeShares] by [caller] makes of the share contract at
    position [n]: the active flag of a contract in the caller's array is
    cleared, and every other contract is as it was. *)
Definition after_revocation (s : Storage) (caller : address) (n : nat)
           (c : SecureShareContract.State) : SecureShareContract.State :=
  if address_in (ShareAddress n) (userShares s caller)
  then SecureShareContract.set_isActive c false
  else c.

(** The value of the polynomial with these coefficients, lowest degree
    first. *)
Fixpoint polynomial_value (coefficients : list Z) (x0 : Z) : Z :=
  match coefficients with
  | [] => 0
  | c :: rest => c + x0 * polynomial_value rest x0
  end.

(** The number a byte string writes, most significant byte first. *)
Definition big_endian (bytes : list Z) : Z :=
  fold_left (fun value b => value * 256 + b) bytes 0.

(** ** Worlds the registry can reach, and what a transaction does to them *)

(** The transactions that reach the share contracts or the books of
    shares; every other one only writes fields of the registry. *)
Definition touches_shares (c : call) : bool :=
  match c with
  | StoreShares _ _ | StoreSharesFor _ _ _ _ _ | RevokeShares | GetShare _ _
  | ShareGetShare _ | ShareDeactivate _ | ShareUpdateShare _ _ => true
  | _ => false
  end.

(** A world the constructor and some history lead to. *)
Definition reachable (w : World) : Prop :=
  exists deployer fee collector w0 history,
    constructor deployer fee collector = Ok w0 /\ run history w0 = w.

(** The share contract [storeShares] creates for a payload. *)
Definition fresh_custodian (user : address) (data : bytes) : SecureShareContract.State :=
  {| SecureShareContract.owner := user;
     SecureShareContract.registry := RegistryAddress;
     SecureShareContract.encryptedShare := data;
     SecureShareContract.isActive := true;
     SecureShareContract.lastAccessed := 0;
     SecureShareContract.accessCount := 0;
     SecureShareContract.lastAccessByAddress := fun _ => 0 |}.

(** The addresses of [count] contracts created from position [first] on. *)
Definition fresh_addresses (first count : nat) : list address :=
  map ShareAddress (seq first count).

(** A share contract keeps its owner and its registry, and a payload that
    is not empty is never replaced by an empty one. *)
Definition custodian_kept (c c' : SecureShareContract.State) : Prop :=
  SecureShareContract.owner c' = SecureShareContract.owner c
  /\ SecureShareContract.registry c' = SecureShareContract.registry c
  /\ (SecureShareContract.encryptedShare c <> [] -> SecureShareContract.encryptedShare c' <> []).

Definition custodians_kept (l l' : list SecureShareContract.State) : Prop :=
  List.length l' = List.length l
  /\ forall n c, nth_error l n = Some c ->
                 exists c', nth_error l' n = Some c' /\ custodian_kept c c'.

(** The configuration [storeShares] records. *)
Definition stored_config (user : address) (count threshold timestamp : uint256)
           (shareContracts : list address) : ShareConfig.t :=
  {| ShareConfig.totalShares := count;
     ShareConfig.threshold := threshold;
     ShareConfig.creationTime := timestamp;
     ShareConfig.isActive := true;
     ShareConfig.configHash := config_hash user count threshold timestamp shareContracts |}.

(** What a successful transaction does to the books of shares and to the
    share contracts: it keeps the books and the contracts (and may clear
    the active flag of one configuration), or it is a store. *)
Definition keeps_shares (w w' : World) : Prop :=
  userShares (storage w') = userShares (storage w)
  /\ custodians_kept (deployed w) (deployed w')
  /\ forall a, shareConfigs (storage w') a = shareConfigs (storage w) a
               \/ shareConfigs (storage w') a
                  = ShareConfig.set_isActive (shareConfigs (storage w) a) false.

Definition stores_shares (timestamp : uint256) (w w' : World) : Prop :=
  exists user data threshold,
    user <> zero_address
    /\ Forall (fun d => d <> []) data
    /\ (3 <= List.length data <= 100)%nat
    /\ 1 <= threshold <= Z.of_nat (List.length data)
    /\ hasShares (storage w) user = false
    /\ deployed w' = (deployed w ++ map (fresh_custodian user) data)%list
    /\ userShares (storage w') user
       = (userShares (storage w) user
          ++ fresh_addresses (List.length (deployed w)) (List.length data))%list
    /\ (forall a, a <> user -> userShares (storage w') a = userShares (storage w) a)
    /\ shareConfigs (storage w') user
       = stored_config user (Z.of_nat (List.length data)) threshold timestamp
                       (fresh_addresses (List.length (deployed w)) (List.length data))
    /\ (forall a, a <> user -> shareConfigs (storage w') a = shareConfigs (storage w) a).

(** The books of the registry and the share contracts agree: what a user's
    array lists is a share contract of that user, each once; and every
    share contract is bound to the registry, has an owner and a payload,
    and is listed in its owner's array. *)
Record custody (w : World) : Prop := {
  listed_is_owned :
    forall u a, In a (userShares (storage w) u) ->
                exists n c, a = ShareAddress n
                            /\ nth_error (deployed w) n = Some c
                            /\ SecureShareContract.owner c = u;
  listed_once : forall u, NoDup (userShares (storage w) u);
  deployed_is_listed :
    forall n c, nth_error (deployed w) n = Some c ->
                SecureShareContract.registry c = RegistryAddress
                /\ SecureShareContract.owner c <> zero_address
                /\ SecureShareContract.encryptedShare c <> []
                /\ In (ShareAddress n) (userShares (storage w) (SecureShareContract.owner c))
}.

(** A configuration never counts more shares than its user's array
    holds, and an active one has 3 to 100 shares and a threshold from 1
    to their number. *)
Definition configurations_proper (w : World) : Prop :=
  forall u,
    let config := shareConfigs (storage w) u in
    ShareConfig.totalShares config <= Z.of_nat (List.length (userShares (storage w) u))
    /\ (ShareConfig.isActive config = true ->
        3 <= ShareConfig.totalShares config <= 100
        /\ 1 <= ShareConfig.threshold config <= ShareConfig.totalShares config).



(** The swap-and-pop of [removeRecoveryAddress]: the entry found is
    overwritten by the last one and the last one is dropped. *)
Definition swap_and_pop (addresses : list address) (index : nat) : list address :=
  removelast
    (if (index <? List.length addresses - 1)%nat
     then list_set addresses index (nth (List.length addresses - 1) addresses zero_address)
     else addresses).

(** A user's recovery addresses: at most ten, none twice, never the user
    and never the zero address; and an emergency contact, once set, is
    not the user. *)
Definition recovery_proper (w : World) : Prop :=
  forall u,
    NoDup (recoveryAddresses (storage w) u)
    /\ (List.length (recoveryAddresses (storage w) u) <= 10)%nat
    /\ ~ In u (recoveryAddresses (storage w) u)
    /\ ~ In zero_address (recoveryAddresses (storage w) u)
    /\ (emergencyContacts (storage w) u = zero_address
        \/ emergencyContacts (storage w) u <> u).

Definition writes_recovery (c : call) : bool :=
  match c with
  | AddRecoveryAddress _ | RemoveRecoveryAddress _ | SetEmergencyContact _ => true
  | _ => false
  end.

(** ** A sample split: 3 of 5 *)

Definition sample_rng : Randomness :=
  {| extraEntropy := "9f86d081884c7d659a2feaa0c55ad015a3bf4f1b2b0b822cd15d6c15b0f00a08";
     randomBytes32 := fun i => map (fun k => Z.of_nat (7 * k + i)) (seq 0 32) |}.

Definition sample_key : string :=
  "1f1e1d1c1b1a191817161514131211100f0e0d0c0b0a09080706050403020100".

Definition share_1 : Share :=
  {| x := VNumber 1;
     y := "66482012858700293222729037363978974032597613396885285455887711073837833308637" |}.
Definition share_2 : Share :=
  {| x := VNumber 2;
     y := "56862742006626996221387395920302358038033950413032127216138045335173573130565" |}.
Definition share_3 : Share :=
  {| x := VNumber 3;
     y := "101009181280537698914042073798826310300973339725820776483117479361393230574729" |}.
Definition share_4 : Share :=
  {| x := VNumber 4;
     y := "83129241470076152537995624050143257291418826111115472914403754091428293596760" |}.
Definition share_5 : Share :=
  {| x := VNumber 5;
     y := "3222922575242357093248046674253199009370409568916216509996869525278762196658" |}.

(** Share 1 again, with its index written as text. *)
Definition share_1_text : Share := {| x := VString "1"; y := y share_1 |}.

(** Share 2 as the plain object [JSON.stringify] and the spread see. *)
Definition share_2_object : object :=
  [("x", JNumber 2);
   ("y", JString "56862742006626996221387395920302358038033950413032127216138045335173573130565")].

(** ** A sample history of the registry *)

Definition admin : address := Account 1.
Definition collector : address := Account 2.
Definition alice : address := Account 1001.
Definition bob : address := Account 1002.

(** The world [constructor admin 0 collector] creates. *)
Definition genesis : World :=
  {| storage :=
       {| serviceFee := 0; feeCollector := collector;
          shareConfigs := fun _ => ShareConfig.empty;
          userShares := fun _ => [];
          recoveryAddresses := fun _ => [];
          emergencyContacts := fun _ => zero_address;
          recoveryRequests := fun _ => RecoveryRequest.empty;
          blacklisted := fun _ => false;
          feeExemptions := fun _ => false;
          lastActionTimestamp := fun _ => 0;
          failedAttempts := fun _ => 0;
          contractOwner := admin;
          paused := false |};
     deployed := [] |}.

Definition tx (sender : address) (timestamp : uint256) : Env :=
  {| msg_sender := sender; msg_value := 0; block_timestamp := timestamp;
     transfer_succeeds := true |}.

Definition payloads_1 : list bytes := [[x01]; [x02]; [x03]].
Definition payloads_2 : list bytes := [[x0a]; [x0b]; [x0c]].

Definition history_stored : list (Env * call) :=
  [(tx alice 1000, StoreShares payloads_1 2)].
Definition history_with_recovery_address : list (Env * call) :=
  (history_stored ++ [(tx alice 2000, AddRecoveryAddress bob)])%list.
Definition history_recovering : list (Env * call) :=
  (history_with_recovery_address ++ [(tx bob 3000, InitiateRecovery alice)])%list.
Definition history_revoked : list (Env * call) :=
  (history_recovering ++ [(tx alice 4000, RevokeShares)])%list.
Definition history_restored : list (Env * call) :=
  (history_revoked ++ [(tx alice 5000, StoreShares payloads_2 2)])%list.

(** alice lists the registry itself as one of her recovery addresses. *)
Definition history_registry_listed : list (Env * call) :=
  (history_stored ++ [(tx alice 2000, AddRecoveryAddress RegistryAddress)])%list.

(** alice and bob each store a configuration. *)
Definition history_two_owners : list (Env * call) :=
  (history_stored ++ [(tx bob 1000, StoreShares payloads_2 2)])%list.

Definition world_stored : World := run history_stored genesis.
Definition world_two_owners : World := run history_two_owners genesis.
Definition world_registry_listed : World := run history_registry_listed genesis.
Definition world_with_recovery_address : World := run history_with_recovery_address genesis.
Definition world_recovering : World := run history_recovering genesis.
Definition world_revoked : World := run history_revoked genesis.
Definition world_restored : World := run history_restored genesis.

(** ** A small platform to run the code on *)

Definition dquote : ascii := "034"%char.

Fixpoint sample_quote_chars (s : string) : string :=
  match s with
  | EmptyString => String dquote EmptyString
  | String c rest =>
      if Ascii.eqb c dquote || Ascii.eqb c "\"%char
      then String "\"%char (String c (sample_quote_chars rest))
      else String c (sample_quote_chars rest)
  end.

Definition sample_quote (s : string) : string := String dquote (sample_quote_chars s).

Fixpoint sample_join (parts : list string) : string :=
  match parts with
  | [] => ""
  | [p] => p
  | p :: rest => p ++ "," ++ sample_join rest
  end.

(** Compact JSON text of a value. *)
Fixpoint sample_stringify (v : json) : string :=
  match v with
  | JNull => "null"
  | JBool true => "true"
  | JBool false => "false"
  | JNumber n => toString n
  | JString s => sample_quote s
  | JArray items => "[" ++ sample_join (map sample_stringify items) ++ "]"
  | JObject fields =>
      "{" ++ sample_join (map (fun kv => sample_quote (fst kv) ++ ":" ++ sample_stringify (snd kv))
                              fields) ++ "}"
  end.

(** The characters of a string literal up to its closing quote. *)
Fixpoint sample_read_string (s : string) : option (string * string) :=
  match s with
  | EmptyString => None
  | String c rest =>
      if Ascii.eqb c dquote then Some (EmptyString, rest)
      else if Ascii.eqb c "\"%char then
        match rest with
        | String e rest' =>
            match sample_read_string rest' with
            | Some (body, tail) => Some (String e body, tail)
            | None => None
            end
        | EmptyString => None
        end
      else
        match sample_read_string rest with
        | Some (body, tail) => Some (String c body, tail)
        | None => None
        end
  end.

Fixpoint sample_read_digits (s : string) : string * string :=
  match s with
  | String c rest =>
      if is_digit c then let '(ds, tail) := sample_read_digits rest in (String c ds, tail)
      else (EmptyString, s)
  | EmptyString => (EmptyString, EmptyString)
  end.

(** A recursive-descent reader of the same text; [fuel] bounds the nesting
    and the number of items. *)
Fixpoint sample_read_value (fuel : nat) (s : string) : option (json * string) :=
  match fuel with
  | O => None
  | S fuel' =>
      match s with
      | EmptyString => None
      | String c rest =>
          if Ascii.eqb c dquote then
            match sample_read_string rest with
            | Some (body, tail) => Some (JString body, tail)
            | None => None
            end
          else if Ascii.eqb c "["%char then
            match rest with
            | String "]"%char tail => Some (JArray [], tail)
            | _ => match sample_read_items fuel' rest with
                   | Some (items, tail) => Some (JArray items, tail)
                   | None => None
                   end
            end
          else if Ascii.eqb c "{"%char then
            match rest with
            | String "}"%char tail => Some (JObject [], tail)
            | _ => match sample_read_members fuel' rest with
                   | Some (fields, tail) => Some (JObject fields, tail)
                   | None => None
                   end
            end
          else if startsWith s "null" then Some (JNull, string_drop 4 s)
          else if startsWith s "true" then Some (JBool true, string_drop 4 s)
          else if startsWith s "false" then Some (JBool false, string_drop 5 s)
          else if Ascii.eqb c "-"%char then
            let '(ds, tail) := sample_read_digits rest in
            match BigInt_of_string ds with
            | Return n => if String.eqb ds "" then None else Some (JNumber (- n), tail)
            | Throw _ => None
            end
          else
            let '(ds, tail) := sample_read_digits s in
            match BigInt_of_string ds with
            | Return n => if String.eqb ds "" then None else Some (JNumber n, tail)
            | Throw _ => None
            end
      end
  end
with sample_read_items (fuel : nat) (s : string) : option (list json * string) :=
  match fuel with
  | O => None
  | S fuel' =>
      match sample_read_value fuel' s with
      | Some (v, String ","%char tail) =>
          match sample_read_items fuel' tail with
          | Some (vs, tail') => Some (v :: vs, tail')
          | None => None
          end
      | Some (v, String "]"%char tail) => Some ([v], tail)
      | _ => None
      end
  end
with sample_read_members (fuel : nat) (s : string) : option (list (string * json) * string) :=
  match fuel with
  | O => None
  | S fuel' =>
      match s with
      | String c rest =>
          if Ascii.eqb c dquote then
            match sample_read_string rest with
            | Some (key, String ":"%char tail) =>
                match sample_read_value fuel' tail with
                | Some (v, String ","%char tail') =>
                    match sample_read_members fuel' tail' with
                    | Some (fields, tail'') => Some ((key, v) :: fields, tail'')
                    | None => None
                    end
                | Some (v, String "}"%char tail') => Some ([(key, v)], tail')
                | _ => None
                end
            | _ => None
            end
          else None
      | EmptyString => None
      end
  end.

Definition sample_parse (text : string) : js_result json :=
  match sample_read_value (S (String.length text)) text with
  | Some (v, EmptyString) => Return v
  | _ => Throw "Unexpected token in JSON"
  end.

Definition sample_byte_sum (bs : list Z) : Z := Z.modulo (fold_left Z.add bs 0) 256.

(** Key agreement in the additive group of bytes, an unkeyed digest, and
    a cipher that appends a tag derived from the key. *)
Definition sample_tag (key : list Z) : list Z :=
  firstn 16 (map (fun b => Z.modulo b 256) key ++ repeat 0 16)%list.

#[local] Instance sample_platform : Platform := {|
  getPublicKey := fun sk => Return (4 :: sample_byte_sum sk :: repeat 0 63);
  getSharedSecret := fun sk pk =>
    Return (2 :: Z.modulo (sample_byte_sum sk + nth 1 pk 0) 256 :: repeat 0 31);
  sha256 := fun bs => map (fun b => Z.modulo (b + 1) 256) (firstn 32 (bs ++ repeat 0 32)%list);
  aes_gcm_encrypt := fun key iv data => (data ++ sample_tag key)%list;
  aes_gcm_decrypt := fun key iv data =>
    let n := (List.length data - 16)%nat in
    if (16 <=? List.length data)%nat
       && forallb (fun p => fst p =? snd p) (combine (skipn n data) (sample_tag key))
    then Some (firstn n data) else None;
  JSON_stringify := sample_stringify;
  JSON_parse := sample_parse
|}.

Definition sample_ephemeral_key : list Z := map Z.of_nat (seq 100 32).
Definition sample_iv : list Z := map Z.of_nat (seq 1 16).




(** * Properties *)

(** ** Termination of the modular inverse *)

Lemma rem_halves (A B : Z) :
  B <> 0 -> Z.abs B <= Z.abs A ->
  Z.abs (Z.rem A B) < Z.abs B /\ 2 * Z.abs (Z.rem A B) < Z.abs A.
Proof.
  intros HB Hle.
  rewrite <- (Z.rem_abs A B HB).
  pose proof (Z.rem_bound_pos (Z.abs A) (Z.abs B) (Z.abs_nonneg A) ltac:(lia)) as Hr.
  pose proof (Z.quot_rem' (Z.abs A) (Z.abs B)) as Hq.
  assert (1 <= Z.quot (Z.abs A) (Z.abs B)) by (apply Z.quot_le_lower_bound; lia).
  split; [lia | nia].
Qed.

Lemma modInverse_loop_step (fuel : nat) (old_r r old_s s old_t t : Z) :
  modInverse_loop (S fuel) old_r r old_s s old_t t =
  if r =? 0 then Some old_s
  else modInverse_loop fuel r (old_r - Z.quot old_r r * r)
                       s (old_s - Z.quot old_r r * s)
                       t (old_t - Z.quot old_r r * t).
Proof. reflexivity. Qed.

Lemma modInverse_loop_enough (fuel : nat) :
  forall A B s0 s1 t0 t1,
    Z.abs B <= Z.abs A ->
    Z.abs A * Z.abs B < 2 ^ Z.of_nat fuel ->
    modInverse_loop (S fuel) A B s0 s1 t0 t1 <> None.
Proof.
  induction fuel as [|fuel IH]; intros A B s0 s1 t0 t1 Hle Hlt.
  - simpl. destruct (Z.eqb_spec B 0) as [|HB]; [discriminate|].
    exfalso. change (2 ^ Z.of_nat 0) with 1 in Hlt. nia.
  - rewrite modInverse_loop_step. destruct (Z.eqb_spec B 0) as [|HB]; [discriminate|].
    destruct (rem_halves A B HB Hle) as [H1 H2].
    assert (Hrem : A - Z.quot A B * B = Z.rem A B)
      by (pose proof (Z.quot_rem' A B); lia).
    rewrite Hrem.
    apply IH; [lia|].
    rewrite Nat2Z.inj_succ, Z.pow_succ_r in Hlt by lia.
    nia.
Qed.

(** The loop of [modInverse] ends within [modInverse_fuel a m] iterations,
    whatever the operands. *)
Lemma modInverse_loop_terminates (a m : Z) :
  modInverse_loop (modInverse_fuel a m) a m 1 0 0 1 <> None.
Proof.
  unfold modInverse_fuel.
  set (v := Z.abs a * Z.abs m).
  assert (Hv : 0 <= v) by (unfold v; nia).
  assert (Hpow : v < 2 ^ Z.of_nat (S (Z.to_nat (Z.log2 v)))).
  { rewrite Nat2Z.inj_succ, Z2Nat.id by apply Z.log2_nonneg.
    destruct (Z.eq_dec v 0) as [->|Hnz]; [reflexivity|].
    apply Z.log2_spec. lia. }
  destruct (Z_le_gt_dec (Z.abs m) (Z.abs a)) as [Hle|Hgt].
  - apply modInverse_loop_enough; [exact Hle|].
    rewrite Nat2Z.inj_succ, Z.pow_succ_r by lia. fold v. lia.
  - rewrite modInverse_loop_step. destruct (Z.eqb_spec m 0) as [|Hm]; [discriminate|].
    assert (Hq : Z.quot a m = 0) by (apply Z.quot_small_iff; lia).
    rewrite Hq.
    replace (a - 0 * m) with a by lia.
    apply modInverse_loop_enough; [lia|].
    replace (Z.abs m * Z.abs a) with v by (unfold v; lia). exact Hpow.
Qed.

(** ** Validation of shares *)

Lemma nodup_length_le (l : list js_value) :
  (List.length (nodup js_value_eq_dec l) <= List.length l)%nat.
Proof.
  induction l as [|a l IH]; simpl; [lia|].
  destruct (in_dec js_value_eq_dec a l); simpl; lia.
Qed.

Lemma nodup_length_NoDup (l : list js_value) :
  List.length (nodup js_value_eq_dec l) = List.length l -> NoDup l.
Proof.
  induction l as [|a l IH]; simpl; intros H; [constructor|].
  destruct (in_dec js_value_eq_dec a l) as [Hin|Hnin]; simpl in H.
  - pose proof (nodup_length_le l). lia.
  - constructor; [exact Hnin | apply IH; lia].
Qed.

Lemma short_list_NoDup (l : list js_value) : (List.length l < 2)%nat -> NoDup l.
Proof.
  destruct l as [|a [|b l]]; simpl; intros H.
  - constructor.
  - constructor; [intros []|constructor].
  - lia.
Qed.

Lemma validateShares_duplicates (shares : list Share) :
  ~ NoDup (map x shares) ->
  _validateShares shares = Throw "Duplicate share indices detected".
Proof.
  intros Hdup. unfold _validateShares.
  destruct (Nat.ltb_spec (List.length shares) 2) as [Hshort|_].
  - exfalso. apply Hdup, short_list_NoDup. now rewrite length_map.
  - destruct (Nat.eqb_spec (List.length (nodup js_value_eq_dec (map x shares)))
                           (List.length shares))
      as [Heq|_]; [|reflexivity].
    exfalso. apply Hdup, nodup_length_NoDup. now rewrite length_map.
Qed.

Lemma repeated_value_not_NoDup (shares : list Share) (i j : nat) (si sj : Share) :
  i <> j ->
  nth_error shares i = Some si ->
  nth_error shares j = Some sj ->
  x si = x sj ->
  ~ NoDup (map x shares).
Proof.
  intros Hij Hi Hj Hx Hnd.
  apply Hij.
  assert (Hlt : (i < List.length (map x shares))%nat).
  { rewrite length_map. apply nth_error_Some. congruence. }
  rewrite NoDup_nth_error in Hnd.
  apply Hnd; [exact Hlt|].
  rewrite !nth_error_map, Hi, Hj. simpl. now rewrite Hx.
Qed.









(** ** The sample split *)

Lemma sample_split :
  generateShares sample_rng sample_key 5 3
  = Return [share_1; share_2; share_3; share_4; share_5].
Proof. vm_compute. reflexivity. Qed.

(** C1.  The key is split 3 of 5; shares 1, 3 and 5 give it back, but the
    three shares 1, 2 and 3 reconstruct to another value. *)
Theorem reconstructSecret_of_shares_1_2_3_differs :
  generateShares sample_rng sample_key 5 3
  = Return [share_1; share_2; share_3; share_4; share_5]
  /\ reconstructSecret [share_1; share_3; share_5] = Return sample_key
  /\ reconstructSecret [share_1; share_2; share_3]
     = Return "11692476dca173f3eea39dd63d8230c130c3f6f277f131480251719c1539e8ab"
  /\ "11692476dca173f3eea39dd63d8230c130c3f6f277f131480251719c1539e8ab" <> sample_key.
Proof.
  split; [exact sample_split|].
  repeat split; try (vm_compute; reflexivity).
  discriminate.
Qed.

(** Where the value goes wrong: a denominator [x_i - x_j] is negative, and
    on a negative operand the loop can end with the remainder -1, whose
    coefficient is the negated inverse. *)
Lemma modInverse_of_minus_one :
  modInverse (-1) getPrime = 1 /\ Z.modulo (-1 * 1) getPrime <> 1.
Proof. split; [vm_compute; reflexivity | vm_compute; discriminate]. Qed.





(** C8.  Share 1 is supplied twice, once with its index as the number 1
    and once as the text "1".  [BigInt] makes the same x-coordinate of
    both, but the [Set] of the validation holds the two raw values apart:
    the list passes, and the interpolation runs on it, with a zero
    denominator, and returns 64 zeros. *)
Theorem reconstructSecret_interpolates_repeated_coordinate :
  BigInt_of_value (x share_1) = Return 1
  /\ BigInt_of_value (x share_1_text) = Return 1
  /\ _validateShares [share_1; share_1_text] = Return tt
  /\ reconstructSecret [share_1; share_1_text]
     = Return "0000000000000000000000000000000000000000000000000000000000000000".
Proof. repeat split; vm_compute; reflexivity. Qed.

(** Two entries that hold the same value for [x], of the same type, are
    refused: [reconstructSecret] throws the duplicate-index error and the
    interpolation is not reached. *)
Theorem reconstructSecret_rejects_repeated_value (shares : list Share) (i j : nat)
        (si sj : Share) :
  i <> j ->
  nth_error shares i = Some si ->
  nth_error shares j = Some sj ->
  x si = x sj ->
  reconstructSecret shares
  = Throw "Secret reconstruction failed: Duplicate share indices detected".
Proof.
  intros Hij Hi Hj Hx.
  unfold reconstructSecret.
  rewrite validateShares_duplicates; [reflexivity|].
  eapply repeated_value_not_NoDup; eauto.
Qed.

(** Shares 1 and 3 with share 1 supplied twice. *)
Lemma reconstructSecret_rejects_repeated_value_witness :
  reconstructSecret [share_1; share_3; share_1]
  = Throw "Secret reconstruction failed: Duplicate share indices detected".
Proof.
  apply (reconstructSecret_rejects_repeated_value [share_1; share_3; share_1] 0 2
                                                   share_1 share_1).
  - discriminate.
  - reflexivity.
  - reflexivity.
  - reflexivity.
Defined.

(** ** Ledger basics *)

Lemma address_eqb_eq (a b : address) : address_eqb a b = true <-> a = b.
Proof.
  destruct a, b; simpl; split; intros H; try discriminate; try reflexivity.
  - apply N.eqb_eq in H. now subst.
  - injection H as ->. apply N.eqb_refl.
  - apply Nat.eqb_eq in H. now subst.
  - injection H as ->. apply Nat.eqb_refl.
Qed.

Lemma address_eqb_refl (a : address) : address_eqb a a = true.
Proof. now apply address_eqb_eq. Qed.

Lemma address_eqb_neq (a b : address) : address_eqb a b = false <-> a <> b.
Proof.
  rewrite <- address_eqb_eq. destruct (address_eqb a b); split; congruence.
Qed.

Lemma address_in_In (v : address) (l : list address) : address_in v l = true <-> In v l.
Proof.
  induction l as [|h l IH]; simpl; [split; [discriminate | intros []]|].
  destruct (address_eqb h v) eqn:E.
  - apply address_eqb_eq in E. tauto.
  - apply address_eqb_neq in E. rewrite IH.
    split; [tauto | intros [|]; [contradiction | assumption]].
Qed.

Lemma upd_same {V : Type} (m : address -> V) (k : address) (v : V) : upd m k v k = v.
Proof. unfold upd. now rewrite address_eqb_refl. Qed.

Lemma upd_other {V : Type} (m : address -> V) (k a : address) (v : V) :
  a <> k -> upd m k v a = m a.
Proof. intros H. unfold upd. apply address_eqb_neq in H. now rewrite H. Qed.

Lemma sol_bind_Ok {A B : Type} (r : sol_result A) (k : A -> sol_result B) (b : B) :
  sol_bind r k = Ok b -> exists a, r = Ok a /\ k a = Ok b.
Proof. destruct r; simpl; intros H; try discriminate. eauto. Qed.

Lemma require_Ok (cond : bool) (reason : string) (u : unit) :
  require cond reason = Ok u -> cond = true.
Proof. unfold require. destruct cond; [reflexivity | discriminate]. Qed.

Ltac sol_inv :=
  repeat match goal with
         | H : sol_bind _ _ = Ok _ |- _ =>
             let a := fresh "v" in
             let Ha := fresh "E" in
             apply sol_bind_Ok in H as (a & Ha & H)
         | H : require _ _ = Ok _ |- _ => apply require_Ok in H
         | H : Ok _ = Ok _ |- _ => injection H as H
         | H : (_, _) = (_, _) |- _ => injection H as ? ?
         | H : Revert _ = Ok _ |- _ => discriminate H
         | H : Panic _ = Ok _ |- _ => discriminate H
         end.


(** ** C2 *)

Lemma isAuthorizedForShare_iff (s : Storage) (timestamp : uint256) (owner accessor : address) :
  isAuthorizedForShare s timestamp owner accessor = true
  <-> accessor = owner
      \/ In accessor (recoveryAddresses s owner)
      \/ emergencyContacts s owner = accessor
      \/ (RecoveryRequest.isActive (recoveryRequests s owner) = true
          /\ RecoveryRequest.initiator (recoveryRequests s owner) = accessor
          /\ RecoveryRequest.expiresAt (recoveryRequests s owner) <= timestamp).
Proof.
  unfold isAuthorizedForShare, isRecoveryAddress.
  destruct (address_eqb owner accessor) eqn:E1.
  { apply address_eqb_eq in E1. subst. tauto. }
  apply address_eqb_neq in E1.
  destruct (address_in accessor (recoveryAddresses s owner)) eqn:E2.
  { apply address_in_In in E2. tauto. }
  assert (N2 : ~ In accessor (recoveryAddresses s owner))
    by (rewrite <- address_in_In; congruence).
  destruct (address_eqb (emergencyContacts s owner) accessor) eqn:E3.
  { apply address_eqb_eq in E3. tauto. }
  apply address_eqb_neq in E3.
  destruct (RecoveryRequest.isActive (recoveryRequests s owner)) eqn:E4; simpl.
  2:{ split; [discriminate|]. intros [Ha|[Hb|[Hc|[Hd _]]]]; congruence. }
  destruct (address_eqb (RecoveryRequest.initiator (recoveryRequests s owner)) accessor) eqn:E5;
    simpl.
  2:{ apply address_eqb_neq in E5. split; [discriminate|].
      intros [Ha|[Hb|[Hc|[_ [Hd _]]]]]; congruence. }
  apply address_eqb_eq in E5.
  destruct (Z.leb_spec (RecoveryRequest.expiresAt (recoveryRequests s owner)) timestamp).
  - tauto.
  - split; [discriminate|]. intros [Ha|[Hb|[Hc|[_ [_ Hd]]]]]; try congruence; lia.
Qed.

Lemma throttle_frame (timestamp : uint256) (account : address) (s s' : Storage) :
  _throttleRequests timestamp account s = Ok s' ->
  exists f, s' = set_failedAttempts s f.
Proof.
  unfold _throttleRequests, checked_sub, require. intros H.
  repeat (match type of H with
          | context [if ?c then _ else _] => destruct c eqn:?
          end; cbn [sol_bind] in H);
    try discriminate; injection H as <-;
    first [ eexists; reflexivity
          | exists (failedAttempts s); destruct s; reflexivity ].
Qed.

(** ** How a world evolves *)

Lemma nth_error_list_set_same {A : Type} (l : list A) (i : nat) (v c : A) :
  nth_error l i = Some c -> nth_error (list_set l i v) i = Some v.
Proof.
  revert i. induction l as [|h l IH]; intros [|i]; simpl; try discriminate; auto.
Qed.

Lemma nth_error_list_set_other {A : Type} (l : list A) (i j : nat) (v : A) :
  i <> j -> nth_error (list_set l i v) j = nth_error l j.
Proof.
  revert i j. induction l as [|h l IH]; intros [|i] [|j] H; simpl; auto; try congruence.
Qed.

Lemma length_list_set {A : Type} (l : list A) (i : nat) (v : A) :
  List.length (list_set l i v) = List.length l.
Proof. revert i. induction l as [|h l IH]; intros [|i]; simpl; auto. Qed.

Lemma custodian_evolves_refl (c : SecureShareContract.State) : custodian_evolves c c.
Proof. repeat split; auto. Qed.

Lemma deployed_evolves_refl (l : list SecureShareContract.State) : deployed_evolves l l.
Proof. intros n c H. exists c. split; [exact H | apply custodian_evolves_refl]. Qed.

Lemma deployed_evolves_trans (l1 l2 l3 : list SecureShareContract.State) :
  deployed_evolves l1 l2 -> deployed_evolves l2 l3 -> deployed_evolves l1 l3.
Proof.
  intros H12 H23 n c Hn.
  destruct (H12 n c Hn) as (c2 & Hn2 & Ha & Hb & Hc).
  destruct (H23 n c2 Hn2) as (c3 & Hn3 & Ha' & Hb' & Hc').
  exists c3. repeat split; auto; congruence.
Qed.

Lemma userShares_grows_refl (s : Storage) : userShares_grows s s.
Proof. intros u. exists []. now rewrite app_nil_r. Qed.

Lemma userShares_grows_trans (s1 s2 s3 : Storage) :
  userShares_grows s1 s2 -> userShares_grows s2 s3 -> userShares_grows s1 s3.
Proof.
  intros H12 H23 u. destruct (H12 u) as [a Ha]. destruct (H23 u) as [b Hb].
  exists (a ++ b)%list. now rewrite Hb, Ha, app_assoc.
Qed.

Lemma world_evolves_refl (w : World) : world_evolves w w.
Proof. split; [apply deployed_evolves_refl | apply userShares_grows_refl]. Qed.

Lemma world_evolves_trans (w1 w2 w3 : World) :
  world_evolves w1 w2 -> world_evolves w2 w3 -> world_evolves w1 w3.
Proof.
  intros [A B] [C D].
  split; [eapply deployed_evolves_trans | eapply userShares_grows_trans]; eauto.
Qed.

Lemma with_storage_evolves (w : World) (s : Storage) :
  userShares s = userShares (storage w) -> world_evolves w (with_storage w s).
Proof.
  intros H. split; [apply deployed_evolves_refl|].
  intros u. exists []. simpl. now rewrite H, app_nil_r.
Qed.

Lemma call_share_Ok {A : Type} (w w' : World) (target : address) (a : A)
      (f : SecureShareContract.State -> sol_result (SecureShareContract.State * A)) :
  call_share w target f = Ok (w', a) ->
  exists n c c', target = ShareAddress n
                 /\ nth_error (deployed w) n = Some c
                 /\ f c = Ok (c', a)
                 /\ w' = {| storage := storage w; deployed := list_set (deployed w) n c' |}.
Proof.
  unfold call_share. destruct target as [| |n]; try discriminate.
  destruct (nth_error (deployed w) n) as [c|] eqn:E; [|discriminate].
  intros H. apply sol_bind_Ok in H as ([c' a'] & Hf & H).
  injection H as <- <-. exists n, c, c'. auto.
Qed.

Lemma call_share_evolves {A : Type} (w w' : World) (target : address) (a : A)
      (f : SecureShareContract.State -> sol_result (SecureShareContract.State * A)) :
  (forall c c' a, f c = Ok (c', a) -> custodian_evolves c c') ->
  call_share w target f = Ok (w', a) ->
  world_evolves w w'.
Proof.
  intros Hf H. apply call_share_Ok in H as (n & c & c' & -> & Hn & Hfc & ->).
  split; simpl; [|apply userShares_grows_refl].
  intros m d Hm. destruct (Nat.eq_dec n m) as [<-|Hne].
  - exists c'. split; [eapply nth_error_list_set_same; eauto|].
    assert (d = c) by congruence. subst d. eapply Hf; eauto.
  - exists d. rewrite nth_error_list_set_other by assumption.
    split; [exact Hm | apply custodian_evolves_refl].
Qed.

Lemma getShare_custodian_evolves view sender timestamp c c' payload :
  SecureShareContract.getShare view sender timestamp c = Ok (c', payload) ->
  custodian_evolves c c'.
Proof.
  unfold SecureShareContract.getShare, SecureShareContract.onlyActive. intros H.
  sol_inv. subst c'. repeat split. simpl. congruence.
Qed.

Lemma deactivate_custodian_evolves sender c c' :
  SecureShareContract.deactivate sender c = Ok c' ->
  custodian_evolves c c' /\ SecureShareContract.isActive c' = false.
Proof.
  unfold SecureShareContract.deactivate. intros H. sol_inv. subst c'.
  repeat split.
Qed.

Lemma updateShare_custodian_evolves sender data c c' :
  SecureShareContract.updateShare sender data c = Ok c' ->
  custodian_evolves c c'.
Proof.
  unfold SecureShareContract.updateShare. intros H. sol_inv. subst c'.
  repeat split. simpl. auto.
Qed.

Lemma deploy_shares_Ok (user : address) (data : list bytes) :
  forall (w w' : World) (acc cs : list address),
    deploy_shares user data w acc = Ok (w', cs) ->
    exists added news,
      cs = (acc ++ added)%list
      /\ List.length added = List.length data
      /\ deployed w' = (deployed w ++ news)%list
      /\ userShares (storage w') user = (userShares (storage w) user ++ added)%list
      /\ (forall a, a <> user -> userShares (storage w') a = userShares (storage w) a)
      /\ set_userShares (storage w') (userShares (storage w)) = storage w.
Proof.
  induction data as [|d rest IH]; intros w w' acc cs H; simpl in H.
  - injection H as <- <-. exists [], []. rewrite !app_nil_r.
    repeat split; auto. now destruct (storage w).
  - sol_inv. apply IH in H as (added & news & -> & Hlen & Hd & Hu & Ho & Hs).
    simpl in Hd, Hu, Ho, Hs.
    exists (ShareAddress (List.length (deployed w)) :: added), (v0 :: news).
    rewrite upd_same in Hu. rewrite <- !app_assoc in *. simpl in Hu.
    repeat split; auto.
    + simpl. lia.
    + intros a Ha. rewrite Ho by assumption. now apply upd_other.
    + clear - Hs. destruct (storage w'), (storage w). simpl in *.
      injection Hs. intros. subst. reflexivity.
Qed.

Lemma deploy_shares_evolves user data w w' acc cs :
  deploy_shares user data w acc = Ok (w', cs) -> world_evolves w w'.
Proof.
  intros H. apply deploy_shares_Ok in H as (added & news & _ & _ & Hd & Hu & Ho & _).
  split.
  - intros n c Hn. exists c. split; [|apply custodian_evolves_refl].
    rewrite Hd. rewrite nth_error_app1; [exact Hn|]. apply nth_error_Some. congruence.
  - intros u. destruct (address_eqb u user) eqn:E.
    + apply address_eqb_eq in E. subst u. eauto.
    + apply address_eqb_neq in E. exists []. rewrite app_nil_r. auto.
Qed.

Lemma custodian_inactive_evolves (w w' : World) (a : address) :
  world_evolves w w' -> custodian_inactive w a -> custodian_inactive w' a.
Proof.
  intros [Hd _] (n & c & -> & Hn & Hc).
  destruct (Hd n c Hn) as (c' & Hn' & Ha & _).
  exists n, c'. auto.
Qed.

Lemma deactivate_all_Ok (shares : list address) :
  forall w w', deactivate_all shares w = Ok w' ->
               storage w' = storage w
               /\ world_evolves w w'
               /\ List.length (deployed w') = List.length (deployed w)
               /\ forall a, In a shares -> custodian_inactive w' a.
Proof.
  induction shares as [|a rest IH]; intros w w' H; simpl in H.
  - injection H as <-.
    split; [reflexivity|]. split; [apply world_evolves_refl|].
    split; [reflexivity|]. intros a [].
  - apply sol_bind_Ok in H as ([w1 u] & Hcall & H).
    apply IH in H as (Hs & Hev & Hlen & Hin).
    pose proof Hcall as Hcall'.
    apply call_share_Ok in Hcall' as (n & c & c' & -> & Hn & Hf & ->).
    apply sol_bind_Ok in Hf as (c'' & Hde & Hf). injection Hf as <-.
    apply deactivate_custodian_evolves in Hde as [Hce Hoff].
    assert (Hstep : world_evolves w {| storage := storage w;
                                       deployed := list_set (deployed w) n c'' |}).
    { eapply call_share_evolves; [|exact Hcall].
      intros d d' [] Hd. apply sol_bind_Ok in Hd as (d'' & Hd & Hd').
      injection Hd' as <-. now apply deactivate_custodian_evolves in Hd. }
    repeat split.
    + rewrite Hs. reflexivity.
    + eapply deployed_evolves_trans; [apply Hstep | apply Hev].
    + eapply userShares_grows_trans; [apply Hstep | apply Hev].
    + rewrite Hlen. simpl. apply length_list_set.
    + intros a [<-|Ha]; [|now apply Hin].
      eapply custodian_inactive_evolves; [exact Hev|].
      exists n, c''. repeat split; auto. simpl.
      eapply nth_error_list_set_same; eauto.
Qed.

Lemma store_for_Ok e user data threshold w w' cs :
  store_for e user data threshold w = Ok (w', cs) ->
  world_evolves w w'
  /\ userShares (storage w') user = (userShares (storage w) user ++ cs)%list
  /\ List.length cs = List.length data
  /\ recoveryAddresses (storage w') = recoveryAddresses (storage w)
  /\ emergencyContacts (storage w') = emergencyContacts (storage w)
  /\ recoveryRequests (storage w') = recoveryRequests (storage w).
Proof.
  unfold store_for. intros H.
  apply sol_bind_Ok in H as ([w1 cs1] & Hdep & H).
  apply sol_bind_Ok in H as (u & _ & H). injection H as <- <-.
  pose proof (deploy_shares_evolves _ _ _ _ _ _ Hdep) as [Hd Hu].
  apply deploy_shares_Ok in Hdep as (added & news & -> & Hlen & _ & Hus & _ & Hs).
  simpl.
  split; [split; [exact Hd | intros a; destruct (Hu a) as [x Hx]; exists x; exact Hx]|].
  split; [exact Hus|]. split; [exact Hlen|].
  rewrite <- Hs. repeat split.
Qed.

Lemma throttle_userShares timestamp account s s' :
  _throttleRequests timestamp account s = Ok s' -> userShares s' = userShares s.
Proof. intros H. apply throttle_frame in H as [f ->]. reflexivity. Qed.

Lemma storeShares_Ok e data threshold w w' cs :
  storeShares e data threshold w = Ok (w', cs) ->
  world_evolves w w'
  /\ userShares (storage w') (msg_sender e)
     = (userShares (storage w) (msg_sender e) ++ cs)%list
  /\ List.length cs = List.length data
  /\ recoveryAddresses (storage w') = recoveryAddresses (storage w)
  /\ emergencyContacts (storage w') = emergencyContacts (storage w)
  /\ recoveryRequests (storage w') = recoveryRequests (storage w).
Proof.
  unfold storeShares. intros H.
  apply sol_bind_Ok in H as (? & _ & H).
  apply sol_bind_Ok in H as (? & _ & H).
  apply sol_bind_Ok in H as (s1 & Hth & H).
  do 5 (apply sol_bind_Ok in H as (? & _ & H)).
  apply throttle_frame in Hth as [f ->].
  apply store_for_Ok in H as ([Hd Hu] & Hus & Hlen & Hra & Hec & Hrr).
  simpl in *. repeat split; auto.
Qed.

Lemma storeSharesFor_Ok e user data threshold deadline signer w w' cs :
  storeSharesFor e user data threshold deadline signer w = Ok (w', cs) ->
  world_evolves w w'.
Proof.
  unfold storeSharesFor. intros H.
  do 4 (apply sol_bind_Ok in H as (? & _ & H)).
  apply sol_bind_Ok in H as (s1 & Hth & H).
  do 7 (apply sol_bind_Ok in H as (? & _ & H)).
  apply throttle_frame in Hth as [f ->].
  apply store_for_Ok in H as ([Hd Hu] & _). split; assumption.
Qed.

Lemma revokeShares_Ok e w w' :
  revokeShares e w = Ok w' ->
  exists w1,
    deactivate_all (userShares (storage w) (msg_sender e)) w = Ok w1
    /\ hasShares (storage w) (msg_sender e) = true
    /\ w' = with_storage w1
              (set_lastActionTimestamp
                 (set_shareConfigs (storage w1)
                    (upd (shareConfigs (storage w1)) (msg_sender e)
                         (ShareConfig.set_isActive (shareConfigs (storage w1) (msg_sender e))
                                                   false)))
                 (upd (lastActionTimestamp (storage w1)) (msg_sender e) (block_timestamp e))).
Proof.
  unfold revokeShares. intros H.
  apply sol_bind_Ok in H as (? & Hhas & H). apply require_Ok in Hhas.
  apply sol_bind_Ok in H as (w1 & Hde & H). injection H as <-.
  exists w1. auto.
Qed.

Lemma revokeShares_evolves e w w' :
  revokeShares e w = Ok w' ->
  world_evolves w w'
  /\ forall a, In a (userShares (storage w) (msg_sender e)) -> custodian_inactive w' a.
Proof.
  intros H. apply revokeShares_Ok in H as (w1 & Hde & _ & ->).
  apply deactivate_all_Ok in Hde as (Hs & [Hd Hu] & _ & Hin).
  split; [split|]; simpl; auto.
Qed.

Lemma getShare_evolves e user index w w' payload :
  getShare e user index w = Ok (w', payload) -> world_evolves w w'.
Proof.
  unfold getShare. intros H.
  do 2 (apply sol_bind_Ok in H as (? & _ & H)).
  apply sol_bind_Ok in H as (s1 & Hth & H).
  apply sol_bind_Ok in H as (target & _ & H).
  assert (Hus : userShares s1 = userShares (storage w)).
  { destruct (negb (address_eqb (msg_sender e) user)).
    - now apply throttle_userShares in Hth.
    - now injection Hth as <-. }
  eapply world_evolves_trans; [apply (with_storage_evolves w s1 Hus)|].
  eapply call_share_evolves; [|exact H].
  intros c c' a. apply getShare_custodian_evolves.
Qed.

Ltac storage_only :=
  match goal with
  | H : _ = Ok ?w' |- world_evolves ?w ?w' =>
      sol_inv;
      repeat match goal with
             | T : _throttleRequests _ _ _ = Ok _ |- _ => apply throttle_frame in T as [? ->]
             end;
      subst; first [ apply world_evolves_refl | apply with_storage_evolves; reflexivity ]
  end.

Lemma execute_evolves e c w w' : execute e c w = Ok w' -> world_evolves w w'.
Proof.
  destruct c; simpl; intros H.
  - apply sol_bind_Ok in H as ([w1 cs] & H & H1). injection H1 as <-.
    now apply storeShares_Ok in H.
  - apply sol_bind_Ok in H as ([w1 cs] & H & H1). injection H1 as <-.
    now apply storeSharesFor_Ok in H.
  - now apply revokeShares_evolves in H.
  - apply sol_bind_Ok in H as ([w1 cs] & H & H1). injection H1 as <-.
    now apply getShare_evolves in H.
  - unfold initiateRecovery in H. storage_only.
  - unfold cancelRecovery in H. storage_only.
  - unfold addRecoveryAddress in H. storage_only.
  - unfold removeRecoveryAddress in H.
    apply sol_bind_Ok in H as (s1 & Hth & H).
    destruct (find_address _ _ _); [|discriminate]. storage_only.
  - unfold setEmergencyContact in H. storage_only.
  - unfold setServiceFee in H. storage_only.
  - unfold setFeeCollector in H. storage_only.
  - unfold setBlacklistStatus in H. storage_only.
  - unfold setFeeExemption in H. storage_only.
  - unfold pause in H. storage_only.
  - unfold unpause in H. storage_only.
  - unfold resetFailedAttempts in H. storage_only.
  - unfold emergencyCancelRecovery in H. storage_only.
  - unfold withdrawFees in H. storage_only.
  - unfold transferOwnership in H. storage_only.
  - unfold renounceOwnership in H. storage_only.
  - apply sol_bind_Ok in H as ([w1 cs] & H & H1). injection H1 as <-.
    eapply call_share_evolves; [|exact H].
    intros ? ? ?. apply getShare_custodian_evolves.
  - unfold share_deactivate in H.
    apply sol_bind_Ok in H as ([w1 cs] & H & H1). injection H1 as <-.
    eapply call_share_evolves; [|exact H].
    intros d d' [] Hd. apply sol_bind_Ok in Hd as (d'' & Hd & Hd').
    injection Hd' as <-. now apply deactivate_custodian_evolves in Hd.
  - unfold share_updateShare in H.
    apply sol_bind_Ok in H as ([w1 cs] & H & H1). injection H1 as <-.
    eapply call_share_evolves; [|exact H].
    intros d d' [] Hd. apply sol_bind_Ok in Hd as (d'' & Hd & Hd').
    injection Hd' as <-. now apply updateShare_custodian_evolves in Hd.
Qed.

Lemma run_evolves (history : list (Env * call)) :
  forall w, world_evolves w (run history w).
Proof.
  induction history as [|[e c] rest IH]; intros w; simpl.
  - apply world_evolves_refl.
  - destruct (execute e c w) as [w'| |] eqn:E; auto.
    eapply world_evolves_trans; [eapply execute_evolves; eauto | apply IH].
Qed.

(** Along any history a share contract, once deactivated, stays so and
    keeps its owner and registry, and a user's array of share contracts
    only grows. *)
Theorem histories_only_deactivate_and_append (history : list (Env * call)) (w : World) :
  world_evolves w (run history w).
Proof. apply run_evolves. Qed.

(** ** C2: who is authorized, and when *)



(** ** C6 and C10: revocation *)

Lemma share_getShare_inactive e a w :
  custodian_inactive w a -> share_getShare e a w = Revert "Share is inactive".
Proof.
  intros (n & c & -> & Hn & Hc).
  unfold share_getShare, call_share. rewrite Hn.
  unfold SecureShareContract.getShare, SecureShareContract.onlyActive. rewrite Hc.
  reflexivity.
Qed.

Lemma lastActionTimestamp_set_failedAttempts (s : Storage) (f : address -> uint256) :
  lastActionTimestamp (set_failedAttempts s f) = lastActionTimestamp s.
Proof. reflexivity. Qed.

Lemma throttle_passes (timestamp : uint256) (account : address) (s : Storage) :
  lastActionTimestamp s account + THROTTLE_DURATION <= timestamp ->
  failedAttempts s account < MAX_FAILED_ATTEMPTS ->
  exists f, _throttleRequests timestamp account s = Ok (set_failedAttempts s f).
Proof.
  intros Hlast Hfail. unfold _throttleRequests.
  destruct (address_eqb account (contractOwner s)).
  { exists (failedAttempts s). now destruct s. }
  unfold THROTTLE_DURATION, MAX_FAILED_ATTEMPTS, minutes in *.
  unfold checked_sub, require.
  assert (Hle : (lastActionTimestamp s account <=? timestamp) = true)
    by (apply Z.leb_le; lia).
  assert (Hwait : (5 * 60 <=? timestamp - lastActionTimestamp s account) = true)
    by (apply Z.leb_le; lia).
  rewrite Hle. cbn [sol_bind].
  destruct (timestamp - lastActionTimestamp s account >? 1 * days).
  - change (failedAttempts (set_failedAttempts s (upd (failedAttempts s) account 0)))
      with (upd (failedAttempts s) account 0).
    rewrite upd_same. change (0 >=? 5) with false. cbn iota.
    repeat (cbn [sol_bind]; rewrite ?lastActionTimestamp_set_failedAttempts, ?Hle, ?Hwait).
    eauto.
  - destruct (Z.geb_spec (failedAttempts s account) 5); [lia|].
    repeat (cbn [sol_bind]; rewrite ?lastActionTimestamp_set_failedAttempts, ?Hle, ?Hwait).
    exists (failedAttempts s). now destruct s.
Qed.

Lemma deploy_shares_succeeds (user : address) (data : list bytes) :
  user <> zero_address ->
  Forall (fun d => d <> []) data ->
  forall w acc, exists w' cs, deploy_shares user data w acc = Ok (w', cs).
Proof.
  intros Hu. induction 1 as [|d rest Hd _ IH]; intros w acc; simpl; [eauto|].
  destruct d as [|b d]; [contradiction|]. simpl.
  unfold SecureShareContract.constructor.
  apply address_eqb_neq in Hu. rewrite Hu. simpl. apply IH.
Qed.

Lemma storeShares_sender_nonzero e data threshold w w' cs :
  storeShares e data threshold w = Ok (w', cs) -> msg_sender e <> zero_address.
Proof.
  unfold storeShares. intros H.
  do 2 (apply sol_bind_Ok in H as (? & _ & H)).
  apply sol_bind_Ok in H as (s1 & _ & H).
  do 2 (apply sol_bind_Ok in H as (? & _ & H)).
  apply sol_bind_Ok in H as (? & Hmin & H). apply require_Ok in Hmin.
  do 2 (apply sol_bind_Ok in H as (? & _ & H)).
  unfold store_for in H. apply sol_bind_Ok in H as ([w1 cs1] & Hdep & _).
  destruct data as [|d rest]; [simpl in Hmin; discriminate|].
  simpl in Hdep.
  apply sol_bind_Ok in Hdep as (? & _ & Hdep).
  apply sol_bind_Ok in Hdep as (c & Hc & _).
  unfold SecureShareContract.constructor in Hc.
  apply sol_bind_Ok in Hc as (? & Hnz & _). apply require_Ok in Hnz.
  apply negb_true_iff, address_eqb_neq in Hnz. exact Hnz.
Qed.

(** C6.  Take the custodians a [storeShares] call created, any history
    after it, and the owner's [revokeShares].  From then on, after any
    further history, each of those custodians refuses [getShare] to every
    caller with "Share is inactive"; and a fresh [storeShares] by the same
    owner is accepted as soon as the registry's other preconditions hold
    (not paused, not blacklisted, not throttled, fee paid, 3 to 100
    non-empty payloads, a threshold from 2 to their number). *)
Theorem revokeShares_disables_custodians_and_frees_owner
        (e0 : Env) (data : list bytes) (threshold : uint256) (w0 w1 : World)
        (created : list address) (history1 : list (Env * call)) (e2 : Env) (w3 : World) :
  storeShares e0 data threshold w0 = Ok (w1, created) ->
  msg_sender e2 = msg_sender e0 ->
  revokeShares e2 (run history1 w1) = Ok w3 ->
  (forall (history2 : list (Env * call)) (e : Env) (custodian : address),
      In custodian created ->
      share_getShare e custodian (run history2 w3) = Revert "Share is inactive")
  /\ (forall (e4 : Env) (data' : list bytes) (threshold' : uint256),
         msg_sender e4 = msg_sender e0 ->
         paused (storage w3) = false ->
         blacklisted (storage w3) (msg_sender e0) = false ->
         failedAttempts (storage w3) (msg_sender e0) < MAX_FAILED_ATTEMPTS ->
         block_timestamp e2 + THROTTLE_DURATION <= block_timestamp e4 ->
         (feeExemptions (storage w3) (msg_sender e0) = true
          \/ serviceFee (storage w3) <= msg_value e4) ->
         (0 < msg_value e4 -> transfer_succeeds e4 = true) ->
         (3 <= List.length data' <= 100)%nat ->
         2 <= threshold' <= Z.of_nat (List.length data') ->
         Forall (fun d => d <> []) data' ->
         exists w5 created',
           storeShares e4 data' threshold' w3 = Ok (w5, created')
           /\ hasShares (storage w5) (msg_sender e0) = true).
Proof.
  intros Hstore Hsender Hrevoke.
  pose proof (storeShares_sender_nonzero _ _ _ _ _ _ Hstore) as Hnz.
  pose proof Hstore as Hstore'.
  apply storeShares_Ok in Hstore' as (_ & Hus & _).
  pose proof Hrevoke as Hrevoke'.
  apply revokeShares_evolves in Hrevoke' as [_ Hoff].
  split.
  - intros history2 e custodian Hin.
    apply share_getShare_inactive.
    eapply custodian_inactive_evolves; [apply run_evolves|].
    apply Hoff. rewrite Hsender.
    destruct (run_evolves history1 w1) as [_ Hgrow].
    destruct (Hgrow (msg_sender e0)) as [added ->].
    rewrite Hus. apply in_or_app. left. apply in_or_app. now right.
  - intros e4 data' threshold' Hs4 Hpause Hblack Hfail Htime Hfee Htransfer Hcount Hthr Hdata.
    apply revokeShares_Ok in Hrevoke as (w2 & _ & _ & ->).
    rewrite Hsender in *. cbn [with_storage storage deployed] in *.
    set (s3 := set_lastActionTimestamp _ _) in *.
    assert (Hlast : lastActionTimestamp s3 (msg_sender e0) = block_timestamp e2)
      by (unfold s3; simpl; apply upd_same).
    assert (Hhas : hasShares s3 (msg_sender e0) = false).
    { unfold hasShares, s3. simpl. rewrite upd_same. simpl. apply andb_false_r. }
    clearbody s3.
    destruct (throttle_passes (block_timestamp e4) (msg_sender e0) s3) as [f Hth];
      [lia | exact Hfail |].
    destruct (deploy_shares_succeeds (msg_sender e0) data' Hnz Hdata
                (with_storage (with_storage w2 s3) (set_failedAttempts s3 f)) [])
      as (w4 & created' & Hdep).
    unfold storeShares. rewrite Hs4. cbn [with_storage storage deployed].
    unfold whenNotPaused, _checkBlacklist.
    rewrite Hpause, Hblack. simpl. rewrite Hth. simpl.
    assert (Hfee' : (if negb (feeExemptions s3 (msg_sender e0))
                     then require (serviceFee s3 <=? msg_value e4) "Insufficient fee"
                     else Ok tt) = Ok tt).
    { destruct Hfee as [-> | Hle]; [reflexivity|].
      destruct (negb _); [|reflexivity].
      unfold require. destruct (Z.leb_spec (serviceFee s3) (msg_value e4)); [reflexivity|lia]. }
    rewrite Hfee'. simpl.
    destruct (Z.ltb_spec 0 threshold'); [|lia].
    destruct (Z.leb_spec threshold' (Z.of_nat (List.length data'))); [|lia].
    destruct (Z.leb_spec 3 (Z.of_nat (List.length data'))); [|lia].
    destruct (Z.leb_spec (Z.of_nat (List.length data')) 100); [|lia].
    simpl.
    change (hasShares (set_failedAttempts s3 f) (msg_sender e0))
      with (hasShares s3 (msg_sender e0)).
    rewrite Hhas. simpl.
    unfold store_for. rewrite Hdep. simpl.
    assert (Hpay : (if 0 <? msg_value e4
                    then require (transfer_succeeds e4) "Fee transfer failed"
                    else Ok tt) = Ok tt).
    { destruct (Z.ltb_spec 0 (msg_value e4)); [|reflexivity]. now rewrite Htransfer. }
    rewrite Hpay. simpl.
    eexists; eexists. split; [reflexivity|].
    unfold hasShares. simpl. rewrite upd_same. simpl.
    destruct (Z.ltb_spec 0 (Z.of_nat (List.length data'))); [reflexivity|lia].
Qed.

Lemma address_in_cons_share (n m : nat) (rest : list address) :
  address_in (ShareAddress n) (ShareAddress m :: rest)
  = if Nat.eqb m n then true else address_in (ShareAddress n) rest.
Proof. reflexivity. Qed.

Lemma deactivate_all_exact (shares : list address) :
  forall w w', deactivate_all shares w = Ok w' ->
               forall n c, nth_error (deployed w) n = Some c ->
                           nth_error (deployed w') n
                           = Some (if address_in (ShareAddress n) shares
                                   then SecureShareContract.set_isActive c false
                                   else c).
Proof.
  induction shares as [|a rest IH]; intros w w' H n c Hn; simpl in H.
  - injection H as <-. exact Hn.
  - apply sol_bind_Ok in H as ([w1 u] & Hcall & H).
    apply call_share_Ok in Hcall as (m & d & d' & -> & Hm & Hf & ->).
    apply sol_bind_Ok in Hf as (d'' & Hde & Hf). injection Hf as <-.
    unfold SecureShareContract.deactivate in Hde.
    apply sol_bind_Ok in Hde as (? & _ & Hde). injection Hde as <-.
    rewrite address_in_cons_share.
    destruct (Nat.eqb_spec m n) as [->|Hne].
    + assert (d = c) by congruence. subst d.
      rewrite (IH _ _ H n (SecureShareContract.set_isActive c false)).
      * now destruct (address_in (ShareAddress n) rest).
      * simpl. eapply nth_error_list_set_same; eauto.
    + apply (IH _ _ H n c). simpl. now rewrite nth_error_list_set_other.
Qed.

(** C10.  [revokeShares] leaves the recovery addresses, the emergency
    contacts and the recovery requests as they were, and every other field
    of the registry but two: the caller's configuration, whose active flag
    it clears, and the caller's last-action timestamp.  Of the share
    contracts, those in the caller's own array have their active flag
    cleared and nothing else changed, and every other contract, whoever
    owns it, is exactly as it was; none is created or removed.  A later
    [storeShares] leaves the three recovery fields alone as well, so they
    carry over to the owner's next configuration. *)
Theorem revokeShares_frame (e : Env) (w w' : World) :
  revokeShares e w = Ok w' ->
  let s := storage w in
  let s' := storage w' in
  let caller := msg_sender e in
  (recoveryAddresses s' = recoveryAddresses s
   /\ emergencyContacts s' = emergencyContacts s
   /\ recoveryRequests s' = recoveryRequests s)
  /\ (serviceFee s' = serviceFee s /\ feeCollector s' = feeCollector s
      /\ userShares s' = userShares s /\ blacklisted s' = blacklisted s
      /\ feeExemptions s' = feeExemptions s /\ failedAttempts s' = failedAttempts s
      /\ contractOwner s' = contractOwner s /\ paused s' = paused s)
  /\ (shareConfigs s' caller = ShareConfig.set_isActive (shareConfigs s caller) false
      /\ forall a, a <> caller -> shareConfigs s' a = shareConfigs s a)
  /\ (lastActionTimestamp s' caller = block_timestamp e
      /\ forall a, a <> caller -> lastActionTimestamp s' a = lastActionTimestamp s a)
  /\ (List.length (deployed w') = List.length (deployed w)
      /\ forall n c, nth_error (deployed w) n = Some c ->
                     nth_error (deployed w') n = Some (after_revocation s caller n c))
  /\ (forall e2 data threshold w'' created,
         storeShares e2 data threshold w' = Ok (w'', created) ->
         recoveryAddresses (storage w'') = recoveryAddresses s
         /\ emergencyContacts (storage w'') = emergencyContacts s
         /\ recoveryRequests (storage w'') = recoveryRequests s).
Proof.
  intros H s s' caller. subst s s' caller.
  apply revokeShares_Ok in H as (w1 & Hde & _ & Hw').
  pose proof (deactivate_all_exact _ _ _ Hde) as Hshape.
  apply deactivate_all_Ok in Hde as (Hs & _ & Hlen & _).
  assert (Hrec : recoveryAddresses (storage w') = recoveryAddresses (storage w)
                 /\ emergencyContacts (storage w') = emergencyContacts (storage w)
                 /\ recoveryRequests (storage w') = recoveryRequests (storage w))
    by (subst w'; simpl; rewrite Hs; auto).
  split; [exact Hrec|].
  split; [subst w'; simpl; rewrite Hs; repeat split|].
  split; [subst w'; simpl; rewrite Hs; split;
          [apply upd_same | intros a Ha; now apply upd_other]|].
  split; [subst w'; simpl; rewrite Hs; split;
          [apply upd_same | intros a Ha; now apply upd_other]|].
  split; [subst w'; simpl; split; [exact Hlen | exact Hshape]|].
  intros e2 data threshold w'' created Hstore.
  apply storeShares_Ok in Hstore as (_ & _ & _ & Ha & Hb & Hc).
  destruct Hrec as (Ha' & Hb' & Hc'). repeat split; congruence.
Qed.

Lemma genesis_constructed : constructor admin 0 collector = Ok genesis.
Proof. reflexivity. Qed.

Lemma sample_store : 
  storeShares (tx alice 1000) payloads_1 2 genesis
  = Ok (world_stored, [ShareAddress 0; ShareAddress 1; ShareAddress 2]).
Proof. vm_compute. reflexivity. Qed.


Lemma sample_revoke :
  revokeShares (tx alice 4000) world_recovering = Ok world_revoked.
Proof. vm_compute. reflexivity. Qed.

Lemma sample_restore :
  storeShares (tx alice 5000) payloads_2 2 world_revoked
  = Ok (world_restored, [ShareAddress 3; ShareAddress 4; ShareAddress 5]).
Proof. vm_compute. reflexivity. Qed.



(** C5.  [storeShares] with three payloads and threshold 1 is accepted: it
    creates three custodians and an active configuration of threshold 1. *)
Theorem storeShares_accepts_threshold_one :
  exists w,
    storeShares (tx alice 1000) payloads_1 1 genesis
    = Ok (w, [ShareAddress 0; ShareAddress 1; ShareAddress 2])
    /\ List.length (deployed w) = 3%nat
    /\ ShareConfig.threshold (shareConfigs (storage w) alice) = 1
    /\ hasShares (storage w) alice = true.
Proof.
  eexists. split; [vm_compute; reflexivity|].
  repeat split; vm_compute; reflexivity.
Qed.

(** C3.  After store, revoke and a second store, the owner's current
    configuration has the custodians 3, 4, 5, but [getShare(alice, 0)]
    still goes to custodian 0 of the revoked configuration and reverts,
    while custodian 3 holds the payload of position 0.  And in the first
    configuration already, the custodian sees the registry as its caller,
    so the owner's [getShare] through the registry is refused. *)
Theorem getShare_reaches_revoked_custodian :
  storeShares (tx alice 5000) payloads_2 2 world_revoked
  = Ok (world_restored, [ShareAddress 3; ShareAddress 4; ShareAddress 5])
  /\ hasShares (storage world_restored) alice = true
  /\ getShare (tx alice 6000) alice 0 world_restored = Revert "Share is inactive"
  /\ nth_error (userShares (storage world_restored) alice) 0 = Some (ShareAddress 0)
  /\ (exists w, share_getShare (tx alice 6000) (ShareAddress 3) world_restored
                = Ok (w, [x0a]))
  /\ getShare (tx alice 1500) alice 0 world_stored
     = Revert "Not authorized for this share".
Proof.
  split; [exact sample_restore|].
  repeat split; try (vm_compute; reflexivity).
  eexists. vm_compute. reflexivity.
Qed.

(** C6 at the sample history. *)
Lemma revokeShares_disables_custodians_witness :
  share_getShare (tx bob 9000) (ShareAddress 0)
                 (run [(tx alice 5000, StoreShares payloads_2 2)] world_revoked)
  = Revert "Share is inactive"
  /\ exists w5 created',
      storeShares (tx alice 5000) payloads_2 2 world_revoked = Ok (w5, created')
      /\ hasShares (storage w5) alice = true.
Proof.
  assert (Hrevoke : revokeShares (tx alice 4000)
                      (run [(tx alice 2000, AddRecoveryAddress bob);
                            (tx bob 3000, InitiateRecovery alice)] world_stored)
                    = Ok world_revoked) by (vm_compute; reflexivity).
  destruct (revokeShares_disables_custodians_and_frees_owner
              (tx alice 1000) payloads_1 2 genesis world_stored
              [ShareAddress 0; ShareAddress 1; ShareAddress 2]
              [(tx alice 2000, AddRecoveryAddress bob); (tx bob 3000, InitiateRecovery alice)]
              (tx alice 4000) world_revoked
              sample_store eq_refl Hrevoke) as [Hoff Hfresh].
  split.
  - apply Hoff. simpl. auto.
  - apply Hfresh.
    + reflexivity.
    + vm_compute. reflexivity.
    + vm_compute. reflexivity.
    + vm_compute. reflexivity.
    + vm_compute. discriminate.
    + right. vm_compute. discriminate.
    + intros H. reflexivity.
    + simpl. lia.
    + simpl. lia.
    + repeat constructor; discriminate.
Defined.

(** C10 at the sample history: bob stays alice's recovery address, and his
    request stays active, through the revocation and the next store.  And
    where alice and bob both hold a configuration, alice's revocation
    clears the flag of her custodian 0 and leaves bob's custodian 3 as it
    was. *)
Lemma revokeShares_frame_witness :
  (recoveryAddresses (storage world_revoked) alice = [bob]
   /\ RecoveryRequest.initiator (recoveryRequests (storage world_revoked) alice) = bob
   /\ recoveryAddresses (storage world_restored) alice = [bob]
   /\ RecoveryRequest.isActive (recoveryRequests (storage world_restored) alice) = true)
  /\ exists w' c0 c3,
      revokeShares (tx alice 4000) world_two_owners = Ok w'
      /\ nth_error (deployed world_two_owners) 0 = Some c0
      /\ nth_error (deployed world_two_owners) 3 = Some c3
      /\ SecureShareContract.owner c3 = bob
      /\ nth_error (deployed w') 0 = Some (SecureShareContract.set_isActive c0 false)
      /\ nth_error (deployed w') 3 = Some c3.
Proof.
  split.
  - destruct (revokeShares_frame (tx alice 4000) world_recovering world_revoked sample_revoke)
      as ((Ha & _ & Hr) & _ & _ & _ & _ & Hlater).
    destruct (Hlater _ _ _ _ _ sample_restore) as (Ha' & _ & Hr').
    rewrite Ha, Hr, Ha', Hr'.
    repeat split; reflexivity.
  - assert (Hrevoke : exists w', revokeShares (tx alice 4000) world_two_owners = Ok w')
      by (eexists; vm_compute; reflexivity).
    destruct Hrevoke as [w' Hrevoke].
    assert (H0 : exists c0, nth_error (deployed world_two_owners) 0 = Some c0)
      by (eexists; vm_compute; reflexivity).
    assert (H3 : exists c3, nth_error (deployed world_two_owners) 3 = Some c3
                            /\ SecureShareContract.owner c3 = bob)
      by (eexists; split; vm_compute; reflexivity).
    destruct H0 as [c0 H0]. destruct H3 as (c3 & H3 & Hbob).
    destruct (revokeShares_frame (tx alice 4000) world_two_owners w' Hrevoke)
      as (_ & _ & _ & _ & (_ & Hcustodians) & _).
    exists w', c0, c3.
    split; [exact Hrevoke|]. split; [exact H0|]. split; [exact H3|]. split; [exact Hbob|].
    split.
    + assert (Hin : address_in (ShareAddress 0)
                      (userShares (storage world_two_owners) (msg_sender (tx alice 4000)))
                    = true) by (vm_compute; reflexivity).
      rewrite (Hcustodians 0%nat c0 H0). unfold after_revocation. now rewrite Hin.
    + assert (Hout : address_in (ShareAddress 3)
                       (userShares (storage world_two_owners) (msg_sender (tx alice 4000)))
                     = false) by (vm_compute; reflexivity).
      rewrite (Hcustodians 3%nat c3 H3). unfold after_revocation. now rewrite Hout.
Defined.

(** ** Strings and bytes *)

Lemma string_length_app (a b : string) :
  String.length (a ++ b) = (String.length a + String.length b)%nat.
Proof. induction a as [|c a IH]; simpl; auto. Qed.

Lemma string_app_assoc (a b c : string) : ((a ++ b) ++ c = a ++ b ++ c)%string.
Proof. induction a as [|x a IH]; simpl; [reflexivity | now rewrite IH]. Qed.

Lemma string_take_app (a b : string) :
  string_take (String.length a) (a ++ b) = a.
Proof. induction a as [|c a IH]; simpl; [now destruct b | now rewrite IH]. Qed.

Lemma string_drop_app (a b : string) :
  string_drop (String.length a) (a ++ b) = b.
Proof. induction a as [|c a IH]; simpl; auto. Qed.

Lemma string_take_all (a : string) : string_take (String.length a) a = a.
Proof. induction a as [|c a IH]; simpl; [reflexivity | now rewrite IH]. Qed.

Lemma substring_in_range (s : string) (a b : Z) :
  0 <= a <= b -> b <= Z.of_nat (String.length s) ->
  substring s a b = string_take (Z.to_nat (b - a)) (string_drop (Z.to_nat a) s).
Proof.
  intros Ha Hb. unfold substring.
  rewrite (Z.min_l a), (Z.min_l b), (Z.max_r 0 a), (Z.max_r 0 b) by lia.
  now rewrite Z.min_l, Z.max_r by lia.
Qed.

Lemma hex_value_digit (n : Z) : 0 <= n < 16 -> hex_value (hex_digit n) = Some n.
Proof.
  intros H.
  assert (Hall : forallb hex_digit_reads_back (map Z.of_nat (seq 0 16)) = true)
    by reflexivity.
  rewrite forallb_forall in Hall.
  specialize (Hall n). unfold hex_digit_reads_back in Hall.
  destruct (hex_value (hex_digit n)) as [m|].
  - f_equal. apply Z.eqb_eq, Hall.
    apply in_map_iff. exists (Z.to_nat n). split; [lia|]. apply in_seq. lia.
  - discriminate Hall.
    apply in_map_iff. exists (Z.to_nat n). split; [lia|]. apply in_seq. lia.
Qed.

Lemma hex_pairs_bytesToHex (bs : list Z) :
  Forall is_byte bs -> hex_pairs (bytesToHex bs) = Some bs.
Proof.
  induction 1 as [|b bs Hb _ IH]; [reflexivity|].
  unfold is_byte in Hb. cbn [bytesToHex hex_pairs].
  pose proof (Z.quot_rem' b 16) as Hq.
  pose proof (Z.rem_bound_pos b 16 ltac:(lia) ltac:(lia)) as Hr.
  assert (0 <= Z.quot b 16 < 16) as Hd
    by (split; [apply Z.quot_pos; lia | apply Z.quot_lt_upper_bound; lia]).
  rewrite !hex_value_digit, IH by lia.
  f_equal. f_equal. lia.
Qed.

Lemma hexToBytes_bytesToHex (bs : list Z) :
  Forall is_byte bs -> hexToBytes (bytesToHex bs) = Return bs.
Proof. intros H. unfold hexToBytes. now rewrite hex_pairs_bytesToHex. Qed.

Lemma length_bytesToHex (bs : list Z) :
  String.length (bytesToHex bs) = (2 * List.length bs)%nat.
Proof. induction bs as [|b bs IH]; simpl; [reflexivity | rewrite IH; lia]. Qed.

Lemma utf8ToBytes_bytes (s : string) : Forall is_byte (utf8ToBytes s).
Proof.
  unfold utf8ToBytes. induction s as [|c s IH]; simpl; constructor; auto.
  unfold is_byte. pose proof (N_ascii_bounded c). lia.
Qed.

Lemma decode_utf8ToBytes (s : string) : TextDecoder_decode (utf8ToBytes s) = s.
Proof.
  unfold TextDecoder_decode, utf8ToBytes.
  induction s as [|c s IH]; simpl; [reflexivity|].
  now rewrite N2Z.id, ascii_N_embedding, IH.
Qed.

Lemma Forall_firstn {A : Type} (Q : A -> Prop) (n : nat) (l : list A) :
  Forall Q l -> Forall Q (firstn n l).
Proof.
  intros H. revert n. induction H; intros [|n]; simpl; constructor; auto.
Qed.

Lemma Forall_skipn {A : Type} (Q : A -> Prop) (n : nat) (l : list A) :
  Forall Q l -> Forall Q (skipn n l).
Proof.
  intros H. revert n. induction H; intros [|n]; simpl; auto.
Qed.

Lemma slice_prefix (a : list Z) (n : Z) :
  0 <= n <= Z.of_nat (List.length a) -> slice a 0 n = firstn (Z.to_nat n) a.
Proof.
  intros H. unfold slice.
  change (0 <? 0) with false. cbn iota.
  destruct (Z.ltb_spec n 0); [lia|].
  rewrite (Z.min_l 0), (Z.min_l n) by lia.
  now rewrite Z.sub_0_r.
Qed.

Lemma slice_suffix (a : list Z) (n : Z) :
  0 <= n <= Z.of_nat (List.length a) ->
  slice a n (Z.of_nat (List.length a)) = skipn (Z.to_nat n) a.
Proof.
  intros H. unfold slice.
  destruct (Z.ltb_spec n 0); [lia|].
  destruct (Z.ltb_spec (Z.of_nat (List.length a)) 0); [lia|].
  rewrite (Z.min_l n), Z.min_id by lia.
  apply firstn_all2. rewrite length_skipn. lia.
Qed.

(** ** The wire format *)


Lemma parseFromContract_formatForContract (d : EncryptedData) :
  String.length (iv d) = 32%nat ->
  String.length (ephemPublicKey d) = 130%nat ->
  String.length (mac d) = 32%nat ->
  parseFromContract (formatForContract d) = d.
Proof.
  intros Hiv Hkey Hmac. destruct d as [i k c m]. simpl in *.
  unfold parseFromContract, formatForContract. cbn [iv ephemPublicKey ciphertext mac].
  change (startsWith ("0x" ++ i ++ k ++ c ++ m) "0x") with true. cbn iota.
  change (string_drop 2 ("0x" ++ i ++ k ++ c ++ m)) with (i ++ k ++ c ++ m).
  assert (Hlen : String.length (i ++ k ++ c ++ m) = (194 + String.length c)%nat)
    by (rewrite !string_length_app; lia).
  rewrite !substring_in_range by lia. rewrite Hlen.
  f_equal.
  - change (Z.to_nat 0) with 0%nat. cbn [string_drop].
    replace (Z.to_nat (16 * 2 - 0)) with (String.length i) by lia.
    apply string_take_app.
  - replace (Z.to_nat (16 * 2)) with (String.length i) by lia.
    rewrite string_drop_app.
    replace (Z.to_nat (16 * 2 + 65 * 2 - 16 * 2)) with (String.length k) by lia.
    apply string_take_app.
  - replace (Z.to_nat (16 * 2 + 65 * 2)) with (String.length (i ++ k))
      by (rewrite string_length_app; lia).
    replace (Z.to_nat (Z.of_nat (194 + String.length c) - 16 * 2 - (16 * 2 + 65 * 2)))
      with (String.length c) by lia.
    rewrite <- (string_app_assoc i k (c ++ m)), string_drop_app.
    apply string_take_app.
  - replace (Z.to_nat (Z.max 0 (Z.of_nat (194 + String.length c) - 16 * 2)))
      with (String.length ((i ++ k) ++ c)) by (rewrite !string_length_app; lia).
    rewrite <- (string_app_assoc i k (c ++ m)), <- (string_app_assoc (i ++ k) c m).
    apply string_drop_app.
Qed.

(** Parsing a formatted blob gives the four fields back, when the IV, the
    ephemeral key and the tag have their fixed sizes (32, 130 and 32 hex
    characters). *)
Theorem wire_format_round_trip (d : EncryptedData) :
  String.length (iv d) = 32%nat ->
  String.length (ephemPublicKey d) = 130%nat ->
  String.length (mac d) = 32%nat ->
  parseFromContract (formatForContract d) = d.
Proof. apply parseFromContract_formatForContract. Qed.

Lemma wire_format_round_trip_witness :
  parseFromContract
    (formatForContract {| iv := repeat_char "1"%char 32;
                          ephemPublicKey := repeat_char "2"%char 130;
                          ciphertext := "c0ffee";
                          mac := repeat_char "3"%char 32 |})
  = {| iv := repeat_char "1"%char 32;
       ephemPublicKey := repeat_char "2"%char 130;
       ciphertext := "c0ffee";
       mac := repeat_char "3"%char 32 |}.
Proof.
  apply wire_format_round_trip; reflexivity.
Defined.

(** ** Encryption, and what becomes of decryption *)

Section Encryption.
Context {P : Platform} {L : PlatformLaws P}.

Lemma encrypt_returns (publicKeyBytes : list Z)
      (ephemeralPrivateKey ephemeralPublicKey ivBytes : list Z) (message : string) :
  Forall is_byte publicKeyBytes ->
  getPublicKey ephemeralPrivateKey = Return ephemeralPublicKey ->
  (exists point, getSharedSecret ephemeralPrivateKey publicKeyBytes = Return point) ->
  List.length ivBytes = 16%nat ->
  exists d,
    encrypt ephemeralPrivateKey ivBytes (bytesToHex publicKeyBytes) message = Return d
    /\ String.length (iv d) = 32%nat
    /\ String.length (ephemPublicKey d) = 130%nat
    /\ String.length (ciphertext d) = (2 * List.length (utf8ToBytes message))%nat
    /\ String.length (mac d) = 32%nat.
Proof.
  intros Hpkb Hepk [point Hshared] Hivlen.
  destruct (public_key_uncompressed _ _ Hepk) as [Hepklen _].
  pose proof (utf8ToBytes_bytes message) as Hmsg.
  set (key := sha256 (slice point 1 33)).
  destruct (aes_gcm_output key ivBytes _ Hmsg) as [Hlen _].
  set (arr := aes_gcm_encrypt key ivBytes (utf8ToBytes message)) in *.
  assert (Hrange : 0 <= Z.of_nat (List.length arr) - 16 <= Z.of_nat (List.length arr)) by lia.
  eexists. split.
  - unfold encrypt. rewrite (hexToBytes_bytesToHex _ Hpkb). cbn [js_bind].
    rewrite Hepk. cbn [js_bind]. rewrite Hshared. cbn [js_bind]. reflexivity.
  - fold key. fold arr. cbn [iv ephemPublicKey ciphertext mac].
    rewrite (slice_prefix arr _ Hrange), (slice_suffix arr _ Hrange).
    rewrite !length_bytesToHex, length_firstn, length_skipn. lia.
Qed.

Lemma decrypt_throws (privateKeyHex : string) (encryptedData : EncryptedData) :
  decrypt privateKeyHex encryptedData
  = match hexToBytes privateKeyHex with
    | Return _ => Throw "Cannot access 'encryptedData' before initialization"
    | Throw message => Throw message
    end.
Proof. unfold decrypt. now destruct (hexToBytes privateKeyHex). Qed.

Lemma decryptShare_throws (privateKeyHex encryptedShareHex : string) :
  exists message, decryptShare privateKeyHex encryptedShareHex = Throw message.
Proof.
  unfold decryptShare. rewrite decrypt_throws.
  destruct (hexToBytes privateKeyHex); simpl; eauto.
Qed.

End Encryption.

(** ** The sample platform keeps the contracts *)

Lemma repeat_zero_bytes (n : nat) : Forall is_byte (repeat 0 n).
Proof.
  apply Forall_forall. intros b Hb. apply repeat_spec in Hb. subst. unfold is_byte. lia.
Qed.

Lemma sample_tag_length (key : list Z) : List.length (sample_tag key) = 16%nat.
Proof.
  unfold sample_tag. rewrite length_firstn, length_app, repeat_length. lia.
Qed.

Lemma sample_tag_bytes (key : list Z) : Forall is_byte (sample_tag key).
Proof.
  unfold sample_tag. apply Forall_firstn, Forall_app. split.
  - apply Forall_forall. intros b Hb. apply in_map_iff in Hb as (a & <- & _).
    unfold is_byte. apply Z.mod_pos_bound. lia.
  - apply repeat_zero_bytes.
Qed.

#[local] Instance sample_laws : PlatformLaws sample_platform.
Proof.
  constructor.
  - intros sk pk H. injection H as <-. split.
    + reflexivity.
    + constructor; [unfold is_byte; lia|].
      constructor; [unfold is_byte, sample_byte_sum; apply Z.mod_pos_bound; lia|].
      exact (repeat_zero_bytes 63).
  - intros a b pa pb Ha Hb. injection Ha as <-. injection Hb as <-.
    eexists. split; [reflexivity|].
    cbn [getSharedSecret sample_platform nth]. now rewrite Z.add_comm.
  - intros key iv0 data Hdata. cbn [aes_gcm_encrypt sample_platform]. split.
    + now rewrite length_app, sample_tag_length.
    + apply Forall_app. split; [exact Hdata | apply sample_tag_bytes].
Qed.

(** C7.  Share 2 of the sample split is encrypted for the public key of
    the sample key: [encryptShare] returns a blob.  [decryptShare] of that
    blob under the sample key does not return the share: [decrypt] reads
    [encryptedData.iv] where the name is the uninitialised constant of its
    own block, and throws.  It does so whatever the key and the blob, on
    any platform: [decryptShare] never returns. *)
Theorem decryptShare_of_encryptShare_throws :
  importFromPrivateKey sample_key
  = Return {| privateKey := sample_key;
              publicKey := bytesToHex (4 :: 240 :: repeat 0 63) |}
  /\ (exists blob,
         encryptShare 1700000000000 sample_ephemeral_key sample_iv
                      (bytesToHex (4 :: 240 :: repeat 0 63)) share_2_object
         = Return blob
         /\ decryptShare sample_key blob
            = Throw "Share decryption failed: Cannot access 'encryptedData' before initialization")
  /\ (forall (P : Platform) (privateKeyHex encryptedShareHex : string),
         exists message,
           @decryptShare P privateKeyHex encryptedShareHex = Throw message).
Proof.
  split; [vm_compute; reflexivity|]. split.
  - eexists. split; vm_compute; reflexivity.
  - intros P privateKeyHex encryptedShareHex. apply decryptShare_throws.
Qed.


(** ** What the registry's own [getShare] and [storeShares] check *)

(** With an active configuration, an index at or past [totalShares] is
    refused. *)
Theorem getShare_rejects_index_out_of_range (e : Env) (user : address) (index : uint256)
        (w : World) :
  hasShares (storage w) user = true ->
  ShareConfig.totalShares (shareConfigs (storage w) user) <= index ->
  getShare e user index w = Revert "Invalid share index".
Proof.
  intros Hhas Hidx. unfold getShare. rewrite Hhas. cbn [require sol_bind].
  destruct (Z.ltb_spec index (ShareConfig.totalShares (shareConfigs (storage w) user)));
    [lia | reflexivity].
Qed.

Lemma getShare_rejects_index_out_of_range_witness :
  getShare (tx alice 6000) alice 3 world_restored = Revert "Invalid share index".
Proof.
  apply getShare_rejects_index_out_of_range.
  - vm_compute. reflexivity.
  - vm_compute. discriminate.
Defined.

(** A call with fewer than 3 or more than 100 payloads, or with a
    threshold below 1 or above their number, never goes through. *)
Theorem storeShares_rejects_bad_count_or_threshold (e : Env) (data : list bytes)
        (threshold : uint256) (w : World) :
  (List.length data < 3)%nat \/ (100 < List.length data)%nat
  \/ threshold < 1 \/ Z.of_nat (List.length data) < threshold ->
  forall result, storeShares e data threshold w <> Ok result.
Proof.
  intros Hbad result H. unfold storeShares in H.
  do 2 (apply sol_bind_Ok in H as (? & _ & H)).
  apply sol_bind_Ok in H as (s1 & _ & H).
  apply sol_bind_Ok in H as (? & _ & H).
  apply sol_bind_Ok in H as (? & Hthr & H). apply require_Ok in Hthr.
  apply sol_bind_Ok in H as (? & Hmin & H). apply require_Ok in Hmin.
  apply sol_bind_Ok in H as (? & Hmax & H). apply require_Ok in Hmax.
  apply andb_true_iff in Hthr as [Hpos Hle].
  apply Z.ltb_lt in Hpos. apply Z.leb_le in Hle, Hmin, Hmax. lia.
Qed.

Lemma storeShares_rejects_bad_count_or_threshold_witness :
  storeShares (tx alice 1000) payloads_1 0 genesis
  <> Ok (world_stored, [ShareAddress 0; ShareAddress 1; ShareAddress 2]).
Proof.
  apply storeShares_rejects_bad_count_or_threshold.
  right. right. left. lia.
Defined.

(** What a successful [getShare] through the registry amounts to: the
    payload of the contract at position [index] of the user's whole array
    of share contracts, which must be active and must accept the registry
    itself as its caller. *)
Theorem getShare_through_registry (e : Env) (user : address) (index : uint256)
        (w w' : World) (payload : bytes) :
  getShare e user index w = Ok (w', payload) ->
  exists n c,
    nth_error (userShares (storage w) user) (Z.to_nat index) = Some (ShareAddress n)
    /\ nth_error (deployed w) n = Some c
    /\ payload = SecureShareContract.encryptedShare c
    /\ SecureShareContract.isActive c = true
    /\ SecureShareContract.isAuthorized
         (registry_view (storage w) (block_timestamp e)) RegistryAddress c = true.
Proof.
  unfold getShare. intros H.
  do 2 (apply sol_bind_Ok in H as (? & _ & H)).
  apply sol_bind_Ok in H as (s1 & Hth & H).
  apply sol_bind_Ok in H as (target & Htarget & H).
  assert (Hs1 : exists f, s1 = set_failedAttempts (storage w) f).
  { destruct (negb (address_eqb (msg_sender e) user)).
    - now apply throttle_frame in Hth.
    - injection Hth as <-. exists (failedAttempts (storage w)). now destruct (storage w). }
  destruct Hs1 as [f ->].
  cbn [userShares set_failedAttempts] in Htarget.
  destruct (nth_error (userShares (storage w) user) (Z.to_nat index)) as [a|] eqn:Ea;
    [|discriminate].
  injection Htarget as ->.
  apply call_share_Ok in H as (n & c & c' & -> & Hn & Hget & _).
  exists n, c. cbn [with_storage deployed] in Hn.
  unfold SecureShareContract.getShare, SecureShareContract.onlyActive in Hget.
  apply sol_bind_Ok in Hget as (? & Hact & Hget). apply require_Ok in Hact.
  apply sol_bind_Ok in Hget as (? & Hauth & Hget). apply require_Ok in Hauth.
  do 2 (apply sol_bind_Ok in Hget as (? & _ & Hget)).
  injection Hget as _ <-.
  repeat split; auto.
Qed.

Lemma getShare_through_registry_witness :
  exists n c,
    nth_error (userShares (storage world_registry_listed) alice) (Z.to_nat 0)
    = Some (ShareAddress n)
    /\ nth_error (deployed world_registry_listed) n = Some c
    /\ [x01] = SecureShareContract.encryptedShare c
    /\ SecureShareContract.isActive c = true
    /\ SecureShareContract.isAuthorized
         (registry_view (storage world_registry_listed) 3000) RegistryAddress c = true.
Proof.
  assert (Hget : exists w, getShare (tx alice 3000) alice 0 world_registry_listed
                           = Ok (w, [x01]))
    by (eexists; vm_compute; reflexivity).
  destruct Hget as [w Hget].
  exact (getShare_through_registry (tx alice 3000) alice 0 world_registry_listed w [x01] Hget).
Defined.

(** ** The arithmetic of the split *)


(** ** The modular inverse *)

Lemma modInverse_loop_bezout (a m : Z) (fuel : nat) :
  forall old_r r old_s s old_t t res,
    modInverse_loop fuel old_r r old_s s old_t t = Some res ->
    old_r = old_s * a + old_t * m ->
    r = s * a + t * m ->
    exists g k, g = res * a + k * m
                /\ Z.abs g = Z.gcd old_r r
                /\ (0 <= old_r -> 0 <= r -> 0 <= g).
Proof.
  induction fuel as [|fuel IH]; intros old_r r old_s s old_t t res H Hold Hr; [discriminate|].
  rewrite modInverse_loop_step in H.
  destruct (Z.eqb_spec r 0) as [Hz|Hnz].
  - injection H as <-. exists old_r, old_t. rewrite Hz, Z.gcd_0_r. auto.
  - apply IH in H; [|lia|lia].
    destruct H as (g & k & Hg & Habs & Hpos).
    exists g, k. split; [exact Hg|]. split.
    + rewrite Habs.
      replace (old_r - Z.quot old_r r * r) with (old_r + (- Z.quot old_r r) * r) by lia.
      rewrite Z.gcd_add_mult_diag_r. apply Z.gcd_comm.
    + intros H1 H2. apply Hpos; [exact H2|].
      pose proof (Z.quot_rem' old_r r).
      pose proof (Z.rem_nonneg old_r r Hnz H1). lia.
Qed.

Lemma modInverse_loop_result (a m : Z) :
  exists res, modInverse_loop (modInverse_fuel a m) a m 1 0 0 1 = Some res.
Proof.
  assert (H : modInverse_loop (modInverse_fuel a m) a m 1 0 0 1 <> None).
  { unfold modInverse_fuel.
    set (v := Z.abs a * Z.abs m).
    assert (Hv : 0 <= v) by (unfold v; nia).
    assert (Hpow : v < 2 ^ Z.of_nat (S (Z.to_nat (Z.log2 v)))).
    { rewrite Nat2Z.inj_succ, Z2Nat.id by apply Z.log2_nonneg.
      destruct (Z.eq_dec v 0) as [->|Hnz]; [reflexivity|].
      apply Z.log2_spec. lia. }
    destruct (Z_le_gt_dec (Z.abs m) (Z.abs a)) as [Hle|Hgt].
    - apply modInverse_loop_enough; [exact Hle|].
      rewrite Nat2Z.inj_succ, Z.pow_succ_r by lia. fold v. lia.
    - rewrite modInverse_loop_step. destruct (Z.eqb_spec m 0) as [|Hm]; [discriminate|].
      assert (Hq : Z.quot a m = 0) by (apply Z.quot_small_iff; lia).
      rewrite Hq.
      replace (a - 0 * m) with a by lia.
      apply modInverse_loop_enough; [lia|].
      replace (Z.abs m * Z.abs a) with v by (unfold v; lia). exact Hpow. }
  destruct (modInverse_loop (modInverse_fuel a m) a m 1 0 0 1) as [res|]; [eauto|congruence].
Qed.

Lemma rem_shift_mod (v m : Z) : 0 < m -> Z.rem (Z.rem v m + m) m = v mod m.
Proof.
  intros Hm.
  pose proof (Z.rem_bound_abs v m ltac:(lia)) as Hb.
  rewrite Z.rem_mod_nonneg by lia.
  pose proof (Z.quot_rem' v m) as Hq.
  replace (Z.rem v m + m) with (v + (1 - Z.quot v m) * m) by lia.
  now rewrite Z_mod_plus_full.
Qed.

(** For a modulus above 1 and an operand coprime to it, [modInverse]
    returns a residue whose product with the operand is 1 or -1 modulo
    the modulus, and 1 when the operand is positive: the sign of the last
    remainder is what separates the two. *)
Theorem modInverse_inverse_up_to_sign (a m : Z) :
  1 < m -> Z.gcd a m = 1 ->
  0 <= modInverse a m < m
  /\ ((a * modInverse a m) mod m = 1 \/ (a * modInverse a m) mod m = m - 1)
  /\ (0 < a -> (a * modInverse a m) mod m = 1).
Proof.
  intros Hm Hgcd. unfold modInverse.
  destruct (modInverse_loop_result a m) as [res Hres]. rewrite Hres.
  rewrite rem_shift_mod by lia.
  destruct (modInverse_loop_bezout a m _ _ _ _ _ _ _ _ Hres ltac:(lia) ltac:(lia))
    as (g & k & Hg & Habs & Hpos).
  rewrite Hgcd in Habs.
  assert (Hprod : (a * (res mod m)) mod m = g mod m).
  { rewrite Z.mul_mod_idemp_r by lia.
    replace (a * res) with (g + (- k) * m) by lia.
    now rewrite Z_mod_plus_full. }
  split; [apply Z.mod_pos_bound; lia|].
  rewrite Hprod. split.
  - destruct (Z.abs_spec g) as [[_ Hg1]|[_ Hg1]].
    + left. replace g with 1 by lia. apply Z.mod_small. lia.
    + right. replace g with (-1) by lia.
      replace (-1) with (m - 1 + (-1) * m) by lia.
      rewrite Z_mod_plus_full. apply Z.mod_small. lia.
  - intros Ha. assert (0 <= g) by (apply Hpos; lia).
    replace g with 1 by lia. apply Z.mod_small. lia.
Qed.

Lemma modInverse_inverse_up_to_sign_witness :
  0 <= modInverse 3 getPrime < getPrime
  /\ ((3 * modInverse 3 getPrime) mod getPrime = 1
      \/ (3 * modInverse 3 getPrime) mod getPrime = getPrime - 1)
  /\ (0 < 3 -> (3 * modInverse 3 getPrime) mod getPrime = 1).
Proof.
  apply modInverse_inverse_up_to_sign.
  - reflexivity.
  - vm_compute. reflexivity.
Defined.

Lemma rem_is_mod (v m : Z) : 0 <= v -> 0 < m -> Z.rem v m = v mod m.
Proof. intros. now apply Z.rem_mod_nonneg. Qed.

Lemma evaluatePolynomial_loop (coefficients : list Z) (x0 prime : Z) :
  0 < prime -> 0 <= x0 -> Forall (fun c => 0 <= c) coefficients ->
  forall result power,
    0 <= result -> 0 <= power ->
    let out := fold_left
                 (fun '(result, power) coeff =>
                    (Z.rem (result + coeff * power) prime, Z.rem (power * x0) prime))
                 coefficients (result, power) in
    0 <= fst out
    /\ (fst out) mod prime = (result + power * polynomial_value coefficients x0) mod prime
    /\ (coefficients <> [] -> fst out < prime).
Proof.
  intros Hp Hx Hc. induction Hc as [|c rest Hc0 _ IH]; intros result power Hr Hpw; simpl.
  - split; [exact Hr|]. split; [f_equal; lia | congruence].
  - assert (H1 : 0 <= result + c * power) by nia.
    assert (H2 : 0 <= power * x0) by nia.
    pose proof (Z.mod_pos_bound (result + c * power) prime Hp) as B1.
    pose proof (Z.mod_pos_bound (power * x0) prime Hp) as B2.
    rewrite (rem_is_mod _ _ H1 Hp), (rem_is_mod _ _ H2 Hp).
    destruct (IH ((result + c * power) mod prime) ((power * x0) mod prime)
                 ltac:(lia) ltac:(lia)) as (I1 & I2 & I3).
    split; [exact I1|]. split.
    + rewrite I2.
      rewrite Z.add_mod, Z.mod_mod by lia.
      rewrite (Z.mul_mod ((power * x0) mod prime)), Z.mod_mod by lia.
      rewrite <- Z.mul_mod, <- Z.add_mod by lia.
      f_equal. lia.
    + intros _. destruct rest as [|c' rest'].
      * simpl. lia.
      * apply I3. discriminate.
Qed.

Lemma evaluatePolynomial_horner (coefficients : list Z) (x0 prime : Z) :
  0 < prime -> 0 <= x0 -> Forall (fun c => 0 <= c) coefficients ->
  evaluatePolynomial coefficients x0 prime = (polynomial_value coefficients x0) mod prime.
Proof.
  intros Hp Hx Hc. unfold evaluatePolynomial.
  destruct (evaluatePolynomial_loop coefficients x0 prime Hp Hx Hc 0 1 ltac:(lia) ltac:(lia))
    as (H0 & Heq & Hlt).
  cbv zeta in *.
  replace (0 + 1 * polynomial_value coefficients x0)
    with (polynomial_value coefficients x0) in Heq by lia.
  rewrite <- Heq. symmetry. apply Z.mod_small.
  destruct coefficients as [|c rest]; [simpl; lia|].
  split; [exact H0 | apply Hlt; discriminate].
Qed.

(** On a positive modulus, a point that is not negative and coefficients
    that are not negative, [evaluatePolynomial] is the value of the
    polynomial reduced modulo the prime. *)
Theorem evaluatePolynomial_is_polynomial_value (coefficients : list Z) (x0 prime : Z) :
  0 < prime -> 0 <= x0 -> Forall (fun c => 0 <= c) coefficients ->
  evaluatePolynomial coefficients x0 prime = (polynomial_value coefficients x0) mod prime.
Proof. exact (evaluatePolynomial_horner coefficients x0 prime). Qed.

Lemma bytesToFieldElement_loop (bytes : list Z) (prime : Z) :
  0 < prime -> Forall (fun b => 0 <= b) bytes ->
  forall acc acc', 0 <= acc -> 0 <= acc' -> acc mod prime = acc' mod prime ->
    let out := fold_left (fun result b => Z.rem (result * 256 + b) prime) bytes acc in
    0 <= out
    /\ out mod prime = (fold_left (fun value b => value * 256 + b) bytes acc') mod prime
    /\ (bytes <> [] -> out < prime).
Proof.
  intros Hp Hb. induction Hb as [|b rest Hb0 _ IH]; intros acc acc' Ha Ha' Heq; simpl.
  - split; [exact Ha|]. split; [exact Heq | congruence].
  - assert (H1 : 0 <= acc * 256 + b) by lia.
    rewrite (rem_is_mod _ _ H1 Hp).
    pose proof (Z.mod_pos_bound (acc * 256 + b) prime Hp) as B1.
    destruct (IH ((acc * 256 + b) mod prime) (acc' * 256 + b) ltac:(lia) ltac:(lia))
      as (I1 & I2 & I3).
    { rewrite Z.mod_mod by lia.
      rewrite Z.add_mod, Z.mul_mod, Heq, <- Z.mul_mod, <- Z.add_mod by lia. reflexivity. }
    split; [exact I1|]. split; [exact I2|].
    intros _. destruct rest as [|b' rest']; [simpl; lia | apply I3; discriminate].
Qed.

Lemma bytesToFieldElement_reduces (bytes : list Z) (prime : Z) :
  0 < prime -> Forall is_byte bytes ->
  bytesToFieldElement bytes prime = (big_endian bytes) mod prime
  /\ (big_endian bytes < prime -> bytesToFieldElement bytes prime = big_endian bytes)
  /\ (prime <= big_endian bytes -> bytesToFieldElement bytes prime <> big_endian bytes).
Proof.
  intros Hp Hb.
  assert (Hnn : Forall (fun b => 0 <= b) bytes).
  { eapply Forall_impl; [|exact Hb]. unfold is_byte. intros; lia. }
  assert (Hbe : forall acc, 0 <= acc -> 0 <= fold_left (fun value b => value * 256 + b) bytes acc).
  { clear Hb. induction Hnn as [|b rest Hb0 _ IH]; intros acc Hacc; simpl; [exact Hacc|].
    apply IH. lia. }
  assert (Hmain : bytesToFieldElement bytes prime = (big_endian bytes) mod prime).
  { unfold bytesToFieldElement, big_endian.
    destruct (bytesToFieldElement_loop bytes prime Hp Hnn 0 0 ltac:(lia) ltac:(lia) eq_refl)
      as (H0 & Heq & Hlt).
    cbv zeta in *. rewrite <- Heq. symmetry. apply Z.mod_small.
    destruct bytes as [|b rest]; [simpl; lia|].
    split; [exact H0 | apply Hlt; discriminate]. }
  split; [exact Hmain|]. rewrite Hmain. split.
  - intros Hlt. apply Z.mod_small. split; [apply Hbe; lia | exact Hlt].
  - intros Hge. pose proof (Z.mod_pos_bound (big_endian bytes) prime Hp). lia.
Qed.

(** [bytesToFieldElement] reads the bytes as a big-endian number and
    reduces it modulo the prime: a number below the prime is kept, and one
    at or above it is not. *)
Theorem bytesToFieldElement_is_big_endian_mod (bytes : list Z) (prime : Z) :
  0 < prime -> Forall is_byte bytes ->
  bytesToFieldElement bytes prime = (big_endian bytes) mod prime
  /\ (big_endian bytes < prime -> bytesToFieldElement bytes prime = big_endian bytes)
  /\ (prime <= big_endian bytes -> bytesToFieldElement bytes prime <> big_endian bytes).
Proof. exact (bytesToFieldElement_reduces bytes prime). Qed.

Lemma all_digits_string_of_uint (d : Decimal.uint) :
  all_digits (DecimalString.NilEmpty.string_of_uint d) = true.
Proof. induction d; simpl; auto. Qed.

Lemma toString_digits (n : Z) : 0 <= n -> matches_digits (toString n) = true.
Proof.
  intros Hn. unfold toString, matches_digits.
  destruct n as [|p|p]; [reflexivity| |lia].
  simpl. unfold DecimalString.NilZero.string_of_uint.
  destruct (Pos.to_uint p) eqn:E; try reflexivity;
    rewrite <- E; (apply andb_true_iff; split;
      [rewrite E; reflexivity | apply all_digits_string_of_uint]).
Qed.

Lemma evaluatePolynomial_is_polynomial_value_witness :
  evaluatePolynomial [5; 3; 2] 4 getPrime = (polynomial_value [5; 3; 2] 4) mod getPrime.
Proof.
  apply evaluatePolynomial_is_polynomial_value.
  - reflexivity.
  - lia.
  - repeat constructor; lia.
Defined.

Lemma bytesToFieldElement_is_big_endian_mod_witness :
  bytesToFieldElement (repeat 255 32) getPrime = (big_endian (repeat 255 32)) mod getPrime
  /\ (big_endian (repeat 255 32) < getPrime ->
      bytesToFieldElement (repeat 255 32) getPrime = big_endian (repeat 255 32))
  /\ (getPrime <= big_endian (repeat 255 32) ->
      bytesToFieldElement (repeat 255 32) getPrime <> big_endian (repeat 255 32)).
Proof.
  apply bytesToFieldElement_is_big_endian_mod.
  - reflexivity.
  - apply Forall_forall. intros b Hb. apply repeat_spec in Hb. subst. unfold is_byte. lia.
Defined.

(** ** What [generateShares] returns *)

Lemma hex_value_range (c : ascii) (v : Z) : hex_value c = Some v -> 0 <= v < 16.
Proof.
  unfold hex_value. intros H.
  repeat match type of H with
         | context [if ?b then _ else _] => destruct b eqn:?
         end; try discriminate; injection H as <-;
    repeat match goal with
           | E : (_ && _)%bool = true |- _ => apply andb_true_iff in E as [? ?]
           | E : (_ <=? _) = true |- _ => apply Z.leb_le in E
           end; lia.
Qed.

Lemma hex_pairs_bytes (n : nat) :
  forall s bs, (String.length s <= n)%nat -> hex_pairs s = Some bs -> Forall is_byte bs.
Proof.
  induction n as [|n IH]; intros s bs Hlen H.
  - destruct s; [|simpl in Hlen; lia]. injection H as <-. constructor.
  - destruct s as [|hi [|lo rest]]; simpl in H; try discriminate.
    + injection H as <-. constructor.
    + destruct (hex_value hi) as [h|] eqn:Eh; [|discriminate].
      destruct (hex_value lo) as [l|] eqn:El; [|discriminate].
      destruct (hex_pairs rest) as [bs'|] eqn:Er; [|discriminate].
      injection H as <-.
      apply hex_value_range in Eh, El.
      constructor; [unfold is_byte; lia|].
      apply (IH rest); [simpl in Hlen; lia | exact Er].
Qed.

Lemma bytesToFieldElement_range (bytes : list Z) (prime : Z) :
  0 < prime -> Forall (fun b => 0 <= b) bytes -> 0 <= bytesToFieldElement bytes prime < prime.
Proof.
  intros Hp Hb. unfold bytesToFieldElement.
  destruct (bytesToFieldElement_loop bytes prime Hp Hb 0 0 ltac:(lia) ltac:(lia) eq_refl)
    as (H0 & _ & Hlt).
  cbv zeta in *. destruct bytes as [|b rest]; [simpl; lia|].
  split; [exact H0 | apply Hlt; discriminate].
Qed.

Lemma nth_nonneg (l : list Z) (i : nat) : Forall (fun b => 0 <= b) l -> 0 <= nth i l 0.
Proof.
  intros H. revert i. induction H as [|b l Hb _ IH]; intros [|i]; simpl; auto; lia.
Qed.

Lemma secureRandomFieldElement_range (prime : Z) (randomBytes : list Z) (entropy : string) :
  0 < prime -> Forall is_byte randomBytes ->
  0 <= _secureRandomFieldElement prime randomBytes entropy < prime.
Proof.
  intros Hp Hb. unfold _secureRandomFieldElement.
  apply bytesToFieldElement_range; [exact Hp|].
  apply Forall_forall. intros v Hin. apply in_map_iff in Hin as (i & <- & _).
  apply Z.lxor_nonneg.
  assert (Hr : 0 <= nth i randomBytes 0).
  { apply nth_nonneg. eapply Forall_impl; [|exact Hb]. unfold is_byte. intros; lia. }
  assert (He : 0 <= nth i (utf8ToBytes entropy) 0).
  { apply nth_nonneg. eapply Forall_impl; [|apply utf8ToBytes_bytes].
    unfold is_byte. intros; lia. }
  destruct (i <? List.length (utf8ToBytes entropy))%nat; split; intros; lia.
Qed.

Lemma rethrow_Return {A : Type} (prefix : string) (body : js_result A) (a : A) :
  rethrow prefix body = Return a <-> body = Return a.
Proof. destruct body; simpl; split; congruence. Qed.

Lemma validateInputs_Return (privateKeyHex : string) (numShares threshold : Z) :
  _validateInputs privateKeyHex numShares threshold = Return tt
  <-> (64 <= String.length privateKeyHex)%nat
      /\ 2 <= numShares <= 100 /\ 2 <= threshold <= numShares.
Proof.
  unfold _validateInputs.
  destruct (Nat.ltb_spec (String.length privateKeyHex) 64);
    [split; [discriminate | lia]|].
  destruct (Z.ltb_spec numShares 2); simpl; [split; [discriminate | lia]|].
  destruct (Z.gtb_spec numShares 100); simpl; [split; [discriminate | lia]|].
  destruct (Z.ltb_spec threshold 2); simpl; [split; [discriminate | lia]|].
  destruct (Z.gtb_spec threshold numShares); simpl; [split; [discriminate | lia]|].
  split; [lia | reflexivity].
Qed.

Lemma getPrime_pos : 0 < getPrime.
Proof. reflexivity. Qed.

Lemma digit_is_no_prefix_letter (c : ascii) :
  is_digit c = true -> Ascii.eqb c "x" || Ascii.eqb c "X" = false.
Proof.
  destruct c as [[] [] [] [] [] [] [] []]; intros H; try discriminate H; reflexivity.
Qed.

Lemma digit_starts_a_number (c : ascii) (rest : string) :
  is_digit c = true ->
  skip_white_space (String c rest) = String c rest
  /\ Ascii.eqb c "+" || Ascii.eqb c "-" = false.
Proof.
  destruct c as [[] [] [] [] [] [] [] []]; intros H; try discriminate H;
    (split; [|reflexivity]);
    destruct rest as [|c1 [|c2 rest2]]; reflexivity.
Qed.

Lemma parseInt_of_digits (s : string) : matches_digits s = true -> parseInt_isNaN s = false.
Proof.
  unfold matches_digits. intros H. apply andb_true_iff in H as [Hne H].
  destruct s as [|c rest]; [discriminate Hne|].
  simpl in H. apply andb_true_iff in H as [Hc Hrest].
  unfold parseInt_isNaN.
  destruct (digit_starts_a_number c rest Hc) as [-> ->].
  destruct rest as [|p rest']; [now rewrite Hc|].
  simpl in Hrest. apply andb_true_iff in Hrest as [Hp _].
  rewrite (digit_is_no_prefix_letter p Hp), andb_false_r. now rewrite Hc.
Qed.

Lemma number_share_well_formed (n : Z) (digits : string) :
  0 < n -> matches_digits digits = true -> well_formed {| x := VNumber n; y := digits |}.
Proof.
  intros Hn Hy. unfold well_formed. cbn [x y falsy ToString BigInt_of_value].
  split; [apply Z.eqb_neq; lia|].
  split; [apply parseInt_of_digits, toString_digits; lia|].
  split; [eauto | exact Hy].
Qed.


(** What [generateShares] returns, when the bytes drawn are bytes: the
    points 1 to [numShares] of one polynomial with [threshold]
    coefficients below the prime, whose constant term is the key read as
    a big-endian number modulo the prime; each share carries the number
    of its point as [x] and the value in decimal as [y], the x-values are
    distinct, and every share is well formed. *)
Theorem generateShares_shape (rng : Randomness) (privateKeyHex : string)
        (numShares threshold : Z) (shares : list Share) :
  (forall i, (1 <= i < Z.to_nat threshold)%nat -> Forall is_byte (randomBytes32 rng i)) ->
  generateShares rng privateKeyHex numShares threshold = Return shares ->
  exists keyBytes coefficients,
    hexToBytes privateKeyHex = Return keyBytes
    /\ List.length coefficients = Z.to_nat threshold
    /\ Forall (fun c => 0 <= c < getPrime) coefficients
    /\ nth 0 coefficients 0 = (big_endian keyBytes) mod getPrime
    /\ shares
       = map (fun k => {| x := VNumber (Z.of_nat k);
                          y := toString ((polynomial_value coefficients (Z.of_nat k))
                                           mod getPrime) |})
             (seq 1 (Z.to_nat numShares))
    /\ NoDup (map x shares)
    /\ Forall well_formed shares.
Proof.
  intros Hrng H. unfold generateShares in H. apply rethrow_Return in H.
  destruct (_validateInputs privateKeyHex numShares threshold) as [[]|] eqn:Ev;
    [|discriminate].
  apply validateInputs_Return in Ev as (H1 & H2 & H3).
  cbn [js_bind] in H.
  destruct (hexToBytes privateKeyHex) as [keyBytes|] eqn:Eh; [|discriminate].
  cbn [js_bind] in H. cbv zeta in H.
  assert (Hkey : Forall is_byte keyBytes).
  { unfold hexToBytes in Eh. destruct (hex_pairs privateKeyHex) as [bs|] eqn:Ep; [|discriminate].
    injection Eh as <-. eapply hex_pairs_bytes; [|exact Ep]. apply Nat.le_refl. }
  set (coefficients :=
         bytesToFieldElement keyBytes getPrime ::
         map (fun i => _secureRandomFieldElement getPrime (randomBytes32 rng i)
                         (extraEntropy rng ++ toString (Z.of_nat i)))
             (seq 1 (Z.to_nat threshold - 1))) in *.
  assert (Hco : Forall (fun c => 0 <= c < getPrime) coefficients).
  { constructor.
    - apply bytesToFieldElement_range; [apply getPrime_pos|].
      eapply Forall_impl; [|exact Hkey]. unfold is_byte. intros; lia.
    - apply Forall_forall. intros c Hin. apply in_map_iff in Hin as (i & <- & Hi).
      apply in_seq in Hi.
      apply secureRandomFieldElement_range; [apply getPrime_pos | apply Hrng; lia]. }
  assert (Hnn : Forall (fun c => 0 <= c) coefficients).
  { eapply Forall_impl; [|exact Hco]. cbv beta. intros; lia. }
  assert (Hval : forall k : nat,
             evaluatePolynomial coefficients (Z.of_nat k) getPrime
             = (polynomial_value coefficients (Z.of_nat k)) mod getPrime).
  { intros k. apply evaluatePolynomial_horner;
      [apply getPrime_pos | lia | exact Hnn]. }
  assert (Hshares : shares
                    = map (fun k => {| x := VNumber (Z.of_nat k);
                                       y := toString ((polynomial_value coefficients (Z.of_nat k))
                                                        mod getPrime) |})
                          (seq 1 (Z.to_nat numShares))).
  { injection H as <-. apply map_ext. intros k. now rewrite Hval. }
  clear H.
  exists keyBytes, coefficients.
  split; [reflexivity|]. split.
  { unfold coefficients. cbn [List.length]. rewrite length_map, length_seq. lia. }
  split; [exact Hco|]. split.
  { unfold coefficients. cbn [nth].
    apply (bytesToFieldElement_reduces keyBytes getPrime getPrime_pos Hkey). }
  split; [exact Hshares|].
  rewrite Hshares. split.
  - rewrite map_map. cbn [x].
    assert (Hnd : forall l : list nat, NoDup l -> NoDup (map (fun k => VNumber (Z.of_nat k)) l)).
    { induction 1 as [|a l Hnin _ IH]; cbn [map]; constructor; [|exact IH].
      rewrite in_map_iff. intros (k & Hk & Hin). injection Hk as Hk.
      apply Nat2Z.inj in Hk. now subst. }
    apply Hnd, seq_NoDup.
  - apply Forall_forall. intros s Hin. apply in_map_iff in Hin as (k & <- & Hk).
    apply in_seq in Hk. apply number_share_well_formed; [lia|].
    apply toString_digits. apply Z.mod_pos_bound, getPrime_pos.
Qed.

Lemma generateShares_shape_witness :
  exists keyBytes coefficients,
    hexToBytes sample_key = Return keyBytes
    /\ List.length coefficients = Z.to_nat 3
    /\ Forall (fun c => 0 <= c < getPrime) coefficients
    /\ nth 0 coefficients 0 = (big_endian keyBytes) mod getPrime
    /\ [share_1; share_2; share_3; share_4; share_5]
       = map (fun k => {| x := VNumber (Z.of_nat k);
                          y := toString ((polynomial_value coefficients (Z.of_nat k))
                                           mod getPrime) |})
             (seq 1 (Z.to_nat 5))
    /\ NoDup (map x [share_1; share_2; share_3; share_4; share_5])
    /\ Forall well_formed [share_1; share_2; share_3; share_4; share_5].
Proof.
  apply (generateShares_shape sample_rng sample_key 5 3).
  - intros i Hi. apply Forall_forall. intros v Hin.
    change (randomBytes32 sample_rng i)
      with (map (fun k => Z.of_nat (7 * k + i)) (seq 0 32)) in Hin.
    apply in_map_iff in Hin as (k & <- & Hk). apply in_seq in Hk.
    change (Z.to_nat 3) with 3%nat in Hi. unfold is_byte. lia.
  - exact sample_split.
Defined.

(** ** The blob of an encrypted share, and key agreement *)

Section EncryptedBlob.
Context {P : Platform} {L : PlatformLaws P}.

(** For a recipient key pair and the ephemeral key pair drawn, whatever
    the share and the timestamp: [encryptShare] returns the blob of what
    [encrypt] made of the enriched share's text; the blob is [0x] and 194
    hex characters more than twice the text's bytes; and
    [parseFromContract] gives the four fields back. *)
Theorem encryptShare_blob_parses_back
        (recipientKey publicKeyBytes ephemeralPrivateKey ephemeralPublicKey ivBytes : list Z)
        (now : Z) (share : object) :
  getPublicKey recipientKey = Return publicKeyBytes ->
  getPublicKey ephemeralPrivateKey = Return ephemeralPublicKey ->
  List.length ivBytes = 16%nat ->
  let text := JSON_stringify (JObject (enrichShare now share)) in
  exists d,
    encrypt ephemeralPrivateKey ivBytes (bytesToHex publicKeyBytes) text = Return d
    /\ encryptShare now ephemeralPrivateKey ivBytes (bytesToHex publicKeyBytes) share
       = Return (formatForContract d)
    /\ String.length (formatForContract d)
       = (2 + 194 + 2 * List.length (utf8ToBytes text))%nat
    /\ parseFromContract (formatForContract d) = d.
Proof.
  intros Hpk Hepk Hiv text.
  destruct (public_key_uncompressed _ _ Hpk) as [_ Hpkb].
  destruct (ecdh_agreement _ _ _ _ Hepk Hpk) as (point & Hshared & _).
  destruct (encrypt_returns publicKeyBytes ephemeralPrivateKey ephemeralPublicKey ivBytes text
              Hpkb Hepk (ex_intro _ point Hshared) Hiv)
    as (d & Henc & Hliv & Hlkey & Hlct & Hlmac).
  exists d. split; [exact Henc|]. split.
  - unfold encryptShare. fold text. rewrite Henc. reflexivity.
  - split.
    + unfold formatForContract. cbn [String.length append].
      rewrite !string_length_app. lia.
    + now apply parseFromContract_formatForContract.
Qed.

(** Two parties who import their key pairs derive the same secret from
    their own private key and the other's public key. *)
Theorem deriveSharedSecret_symmetric (privateKeyA privateKeyB : string) (a b : KeyPair) :
  importFromPrivateKey privateKeyA = Return a ->
  importFromPrivateKey privateKeyB = Return b ->
  exists secret,
    deriveSharedSecret (privateKey a) (publicKey b) = Return secret
    /\ deriveSharedSecret (privateKey b) (publicKey a) = Return secret.
Proof.
  unfold importFromPrivateKey. intros Ha Hb.
  destruct (hexToBytes privateKeyA) as [skA|] eqn:EA; [|discriminate].
  destruct (hexToBytes privateKeyB) as [skB|] eqn:EB; [|discriminate].
  cbn [js_bind] in Ha, Hb.
  destruct (getPublicKey skA) as [pkA|] eqn:PA; [|discriminate].
  destruct (getPublicKey skB) as [pkB|] eqn:PB; [|discriminate].
  cbn [js_bind] in Ha, Hb. injection Ha as <-. injection Hb as <-.
  cbn [privateKey publicKey].
  destruct (public_key_uncompressed _ _ PA) as [_ HbA].
  destruct (public_key_uncompressed _ _ PB) as [_ HbB].
  destruct (ecdh_agreement _ _ _ _ PA PB) as (point & H1 & H2).
  exists (bytesToHex (sha256 (slice point 1 33))).
  unfold deriveSharedSecret.
  rewrite EA, EB, (hexToBytes_bytesToHex _ HbA), (hexToBytes_bytesToHex _ HbB).
  cbn [js_bind]. rewrite H1, H2. cbn [js_bind]. auto.
Qed.

End EncryptedBlob.

Lemma encryptShare_blob_parses_back_witness :
  exists d,
    encrypt sample_ephemeral_key sample_iv (bytesToHex (4 :: 240 :: repeat 0 63))
            (JSON_stringify (JObject (enrichShare 1700000000000 share_2_object)))
    = Return d
    /\ encryptShare 1700000000000 sample_ephemeral_key sample_iv
                    (bytesToHex (4 :: 240 :: repeat 0 63)) share_2_object
       = Return (formatForContract d)
    /\ String.length (formatForContract d)
       = (2 + 194
          + 2 * List.length
                  (utf8ToBytes (JSON_stringify
                                  (JObject (enrichShare 1700000000000 share_2_object)))))%nat
    /\ parseFromContract (formatForContract d) = d.
Proof.
  apply (encryptShare_blob_parses_back (L := sample_laws)
           (map Z.of_nat (seq 0 32)) (4 :: 240 :: repeat 0 63)
           sample_ephemeral_key (4 :: 112 :: repeat 0 63) sample_iv
           1700000000000 share_2_object).
  - vm_compute. reflexivity.
  - vm_compute. reflexivity.
  - reflexivity.
Defined.

Lemma deriveSharedSecret_symmetric_witness :
  exists secret,
    deriveSharedSecret sample_key (bytesToHex (4 :: 3 :: repeat 0 63)) = Return secret
    /\ deriveSharedSecret "0102" (bytesToHex (4 :: 240 :: repeat 0 63)) = Return secret.
Proof.
  apply (deriveSharedSecret_symmetric (L := sample_laws) sample_key "0102"
           {| privateKey := sample_key; publicKey := bytesToHex (4 :: 240 :: repeat 0 63) |}
           {| privateKey := "0102"; publicKey := bytesToHex (4 :: 3 :: repeat 0 63) |}).
  - vm_compute. reflexivity.
  - vm_compute. reflexivity.
Defined.

(** * The registry along its histories *)

(** ** What a transaction may touch *)

Lemma throttle_effect (timestamp : uint256) (account : address) (s s' : Storage) :
  _throttleRequests timestamp account s = Ok s' ->
  exists f, s' = set_failedAttempts s f
            /\ (forall u, f u = failedAttempts s u \/ f u = 0)
            /\ (account = contractOwner s
                \/ lastActionTimestamp s account + THROTTLE_DURATION <= timestamp).
Proof.
  unfold _throttleRequests. intros H.
  destruct (address_eqb account (contractOwner s)) eqn:Eo.
  { injection H as <-. exists (failedAttempts s). apply address_eqb_eq in Eo.
    split; [now destruct s | auto]. }
  unfold checked_sub, require in H.
  assert (Hzero : forall u, upd (failedAttempts s) account 0 u = failedAttempts s u
                            \/ upd (failedAttempts s) account 0 u = 0).
  { intros u. unfold upd. destruct (address_eqb u account); auto. }
  repeat (match type of H with
          | context [if ?c then _ else _] => destruct c eqn:?
          end; cbn [sol_bind] in H);
    try discriminate; injection H as <-;
    cbn [lastActionTimestamp set_failedAttempts] in *;
    match goal with
    | E : (THROTTLE_DURATION <=? _) = true |- _ => apply Z.leb_le in E
    end.
  - exists (upd (upd (failedAttempts s) account 0) account 0).
    split; [reflexivity|]. split; [|right; lia].
    intros u. unfold upd. destruct (address_eqb u account); auto.
  - exists (upd (failedAttempts s) account 0).
    split; [reflexivity|]. split; [exact Hzero | right; lia].
  - exists (upd (failedAttempts s) account 0).
    split; [reflexivity|]. split; [exact Hzero | right; lia].
  - exists (failedAttempts s). split; [now destruct s|]. split; [auto | right; lia].
Qed.

Ltac open_throttle :=
  repeat match goal with
         | T : _throttleRequests _ _ _ = Ok _ |- _ =>
             let f := fresh "f" in
             let Hf := fresh "Hf" in
             let Hwait := fresh "Hwait" in
             apply throttle_effect in T as (f & -> & Hf & Hwait)
         end.

Ltac open_call H :=
  first
    [ progress unfold initiateRecovery, cancelRecovery, addRecoveryAddress,
        setEmergencyContact, setServiceFee, setFeeCollector, setBlacklistStatus,
        setFeeExemption, pause, unpause, resetFailedAttempts, emergencyCancelRecovery,
        withdrawFees, transferOwnership, renounceOwnership in H; sol_inv; open_throttle; subst
    | unfold removeRecoveryAddress in H;
      let s1 := fresh "s1" in
      let Hth := fresh "Hth" in
      apply sol_bind_Ok in H as (s1 & Hth & H);
      match type of H with
      | match ?found with _ => _ end = _ => destruct found eqn:?; [|discriminate H]
      end;
      sol_inv; open_throttle; subst ].

Lemma registry_call_frame (e : Env) (c : call) (w w' : World) :
  touches_shares c = false ->
  execute e c w = Ok w' ->
  deployed w' = deployed w
  /\ userShares (storage w') = userShares (storage w)
  /\ shareConfigs (storage w') = shareConfigs (storage w).
Proof.
  destruct c; cbn [touches_shares execute]; intros Hc H; try discriminate Hc;
    open_call H; repeat split.
Qed.

Lemma storage_rewritten (s : Storage) :
  s = set_lastActionTimestamp
        (set_shareConfigs (set_userShares (set_failedAttempts s (failedAttempts s))
                                          (userShares s))
                          (shareConfigs s))
        (lastActionTimestamp s).
Proof. now destruct s. Qed.

Lemma deploy_shares_storage user data w acc w' cs :
  deploy_shares user data w acc = Ok (w', cs) ->
  storage w' = set_userShares (storage w) (userShares (storage w')).
Proof.
  intros H. apply deploy_shares_Ok in H as (_ & _ & _ & _ & _ & _ & _ & Hs).
  destruct (storage w'), (storage w). simpl in *. injection Hs. intros. subst. reflexivity.
Qed.

Lemma store_for_storage e user data threshold w w' cs :
  store_for e user data threshold w = Ok (w', cs) ->
  exists us cfg last,
    storage w' = set_lastActionTimestamp (set_shareConfigs (set_userShares (storage w) us) cfg)
                                         last.
Proof.
  unfold store_for. intros H.
  apply sol_bind_Ok in H as ([w1 cs1] & Hdep & H).
  apply sol_bind_Ok in H as (u & _ & H). injection H as <- <-.
  apply deploy_shares_storage in Hdep. cbn [with_storage storage].
  rewrite Hdep. eexists; eexists; eexists. reflexivity.
Qed.

(** What the transactions that touch shares leave of the registry's
    storage: the failed-attempt counters (reset at most), the books of
    shares, the configurations and the last-action timestamps may differ;
    nothing else does. *)
Lemma shares_call_storage (e : Env) (c : call) (w w' : World) :
  touches_shares c = true ->
  execute e c w = Ok w' ->
  exists f us cfg last,
    storage w'
    = set_lastActionTimestamp
        (set_shareConfigs (set_userShares (set_failedAttempts (storage w) f) us) cfg) last
    /\ forall u, f u = failedAttempts (storage w) u \/ f u = 0.
Proof.
  destruct c; cbn [touches_shares execute]; intros Hc H; try discriminate Hc.
  - apply sol_bind_Ok in H as ([w1 cs] & H & H1). injection H1 as <-.
    unfold storeShares in H.
    do 2 (apply sol_bind_Ok in H as (? & _ & H)).
    apply sol_bind_Ok in H as (s1 & Hth & H).
    do 5 (apply sol_bind_Ok in H as (? & _ & H)).
    apply throttle_effect in Hth as (f & -> & Hf & _).
    apply store_for_storage in H as (us & cfg & last & ->).
    exists f, us, cfg, last. auto.
  - apply sol_bind_Ok in H as ([w1 cs] & H & H1). injection H1 as <-.
    unfold storeSharesFor in H.
    do 4 (apply sol_bind_Ok in H as (? & _ & H)).
    apply sol_bind_Ok in H as (s1 & Hth & H).
    do 7 (apply sol_bind_Ok in H as (? & _ & H)).
    apply throttle_effect in Hth as (f & -> & Hf & _).
    apply store_for_storage in H as (us & cfg & last & ->).
    exists f, us, cfg, last. auto.
  - apply revokeShares_Ok in H as (w1 & Hde & _ & ->).
    apply deactivate_all_Ok in Hde as (Hs & _).
    cbn [with_storage storage]. rewrite Hs.
    exists (failedAttempts (storage w)), (userShares (storage w)),
      (upd (shareConfigs (storage w)) (msg_sender e)
           (ShareConfig.set_isActive (shareConfigs (storage w) (msg_sender e)) false)),
      (upd (lastActionTimestamp (storage w)) (msg_sender e) (block_timestamp e)).
    split; [|auto].
    destruct (storage w); reflexivity.
  - apply sol_bind_Ok in H as ([w1 cs] & H & H1). injection H1 as <-.
    unfold getShare in H.
    do 2 (apply sol_bind_Ok in H as (? & _ & H)).
    apply sol_bind_Ok in H as (s1 & Hth & H).
    apply sol_bind_Ok in H as (target & _ & H).
    apply call_share_Ok in H as (n & d & d' & _ & _ & _ & ->).
    cbn [with_storage storage].
    destruct (negb (address_eqb (msg_sender e) user)).
    + apply throttle_effect in Hth as (f & -> & Hf & _).
      exists f, (userShares (storage w)), (shareConfigs (storage w)),
        (lastActionTimestamp (storage w)).
      split; [destruct (storage w); reflexivity | exact Hf].
    + injection Hth as <-.
      exists (failedAttempts (storage w)), (userShares (storage w)),
        (shareConfigs (storage w)), (lastActionTimestamp (storage w)).
      split; [apply storage_rewritten | auto].
  - apply sol_bind_Ok in H as ([w1 cs] & H & H1). injection H1 as <-.
    apply call_share_Ok in H as (n & d & d' & _ & _ & _ & ->).
    exists (failedAttempts (storage w)), (userShares (storage w)),
      (shareConfigs (storage w)), (lastActionTimestamp (storage w)).
    split; [apply storage_rewritten | auto].
  - unfold share_deactivate in H.
    apply sol_bind_Ok in H as ([w1 cs] & H & H1). injection H1 as <-.
    apply call_share_Ok in H as (n & d & d' & _ & _ & _ & ->).
    exists (failedAttempts (storage w)), (userShares (storage w)),
      (shareConfigs (storage w)), (lastActionTimestamp (storage w)).
    split; [apply storage_rewritten | auto].
  - unfold share_updateShare in H.
    apply sol_bind_Ok in H as ([w1 cs] & H & H1). injection H1 as <-.
    apply call_share_Ok in H as (n & d & d' & _ & _ & _ & ->).
    exists (failedAttempts (storage w)), (userShares (storage w)),
      (shareConfigs (storage w)), (lastActionTimestamp (storage w)).
    split; [apply storage_rewritten | auto].
Qed.

(** ** Administration is the owner's *)

(** A transaction whose sender is not the owner of the registry, be it
    sent to the registry or to a share contract, leaves the fee, the fee
    collector, the blacklist, the fee exemptions, the pause flag and the
    ownership as they were. *)
Theorem only_the_owner_administers (e : Env) (c : call) (w w' : World) :
  msg_sender e <> contractOwner (storage w) ->
  execute e c w = Ok w' ->
  serviceFee (storage w') = serviceFee (storage w)
  /\ feeCollector (storage w') = feeCollector (storage w)
  /\ blacklisted (storage w') = blacklisted (storage w)
  /\ feeExemptions (storage w') = feeExemptions (storage w)
  /\ paused (storage w') = paused (storage w)
  /\ contractOwner (storage w') = contractOwner (storage w).
Proof.
  intros Hsender H.
  destruct (touches_shares c) eqn:Hc.
  - apply shares_call_storage in H as (f & us & cfg & last & -> & _); [|exact Hc].
    repeat split.
  - destruct c; cbn [touches_shares execute] in *; try discriminate Hc;
      open_call H;
      try (match goal with
           | E : onlyOwner _ _ = Ok _ |- _ =>
               unfold onlyOwner in E; apply require_Ok, address_eqb_eq in E; congruence
           end);
      repeat split.
Qed.

Lemma only_the_owner_administers_witness :
  serviceFee (storage world_stored) = serviceFee (storage genesis)
  /\ feeCollector (storage world_stored) = feeCollector (storage genesis)
  /\ blacklisted (storage world_stored) = blacklisted (storage genesis)
  /\ feeExemptions (storage world_stored) = feeExemptions (storage genesis)
  /\ paused (storage world_stored) = paused (storage genesis)
  /\ contractOwner (storage world_stored) = contractOwner (storage genesis).
Proof.
  apply (only_the_owner_administers (tx alice 1000) (StoreShares payloads_1 2)).
  - discriminate.
  - vm_compute. reflexivity.
Defined.

(** ** What [storeShares] creates *)

Lemma deploy_shares_exact (user : address) (data : list bytes) :
  forall (w w' : World) (acc cs : list address),
    deploy_shares user data w acc = Ok (w', cs) ->
    cs = (acc ++ fresh_addresses (List.length (deployed w)) (List.length data))%list
    /\ deployed w' = (deployed w ++ map (fresh_custodian user) data)%list
    /\ userShares (storage w') user
       = (userShares (storage w) user
          ++ fresh_addresses (List.length (deployed w)) (List.length data))%list
    /\ (data <> [] -> user <> zero_address)
    /\ Forall (fun d => d <> []) data.
Proof.
  induction data as [|d rest IH]; intros w w' acc cs H; simpl in H.
  - injection H as <- <-. unfold fresh_addresses. simpl. rewrite !app_nil_r.
    repeat split; auto; congruence.
  - apply sol_bind_Ok in H as (? & Hd & H). apply require_Ok in Hd.
    apply sol_bind_Ok in H as (c & Hc & H).
    unfold SecureShareContract.constructor in Hc.
    apply sol_bind_Ok in Hc as (? & Hu & Hc). apply require_Ok in Hu.
    do 2 (apply sol_bind_Ok in Hc as (? & _ & Hc)). injection Hc as <-.
    apply IH in H as (-> & Hdep & Hus & _ & Hall).
    cbn [deployed storage userShares set_userShares] in *.
    rewrite upd_same in Hus. rewrite !length_app in *. cbn [List.length] in *.
    unfold fresh_addresses in *. cbn [List.length seq map].
    replace (List.length (deployed w) + 1)%nat with (S (List.length (deployed w))) in * by lia.
    rewrite <- !app_assoc in *. cbn [app] in *.
    split; [reflexivity|]. split; [exact Hdep|]. split; [exact Hus|].
    split.
    + intros _. now apply negb_true_iff, address_eqb_neq in Hu.
    + constructor; [|exact Hall]. destruct d; [discriminate Hd | discriminate].
Qed.

Lemma custodian_kept_refl (c : SecureShareContract.State) : custodian_kept c c.
Proof. repeat split; auto. Qed.

Lemma custodians_kept_refl (l : list SecureShareContract.State) : custodians_kept l l.
Proof.
  split; [reflexivity|]. intros n c H. exists c. split; [exact H | apply custodian_kept_refl].
Qed.

Lemma custodians_kept_list_set (l : list SecureShareContract.State) (n : nat)
      (c c' : SecureShareContract.State) :
  nth_error l n = Some c -> custodian_kept c c' -> custodians_kept l (list_set l n c').
Proof.
  intros Hn Hk. split; [apply length_list_set|].
  intros m d Hm. destruct (Nat.eq_dec n m) as [<-|Hne].
  - exists c'. split; [eapply nth_error_list_set_same; eauto|]. congruence.
  - exists d. rewrite nth_error_list_set_other by assumption.
    split; [exact Hm | apply custodian_kept_refl].
Qed.

Lemma call_share_kept {A : Type} (w w' : World) (target : address) (a : A)
      (f : SecureShareContract.State -> sol_result (SecureShareContract.State * A)) :
  (forall c c' a, f c = Ok (c', a) -> custodian_kept c c') ->
  call_share w target f = Ok (w', a) ->
  storage w' = storage w /\ custodians_kept (deployed w) (deployed w').
Proof.
  intros Hf H. apply call_share_Ok in H as (n & c & c' & -> & Hn & Hfc & ->).
  split; [reflexivity|]. cbn [deployed].
  eapply custodians_kept_list_set; eauto.
Qed.

Lemma getShare_custodian_kept view sender timestamp c c' payload :
  SecureShareContract.getShare view sender timestamp c = Ok (c', payload) ->
  custodian_kept c c'.
Proof.
  unfold SecureShareContract.getShare, SecureShareContract.onlyActive. intros H.
  sol_inv. subst c'. repeat split; auto.
Qed.

Lemma deactivate_custodian_kept sender c c' :
  SecureShareContract.deactivate sender c = Ok c' -> custodian_kept c c'.
Proof.
  unfold SecureShareContract.deactivate. intros H. sol_inv. subst c'. repeat split; auto.
Qed.

Lemma updateShare_custodian_kept sender data c c' :
  SecureShareContract.updateShare sender data c = Ok c' -> custodian_kept c c'.
Proof.
  unfold SecureShareContract.updateShare. intros H. sol_inv. subst c'.
  repeat split. intros _. cbn [SecureShareContract.encryptedShare SecureShareContract.set_encryptedShare].
  destruct data; [discriminate | discriminate].
Qed.

Lemma deactivate_all_kept (shares : list address) (w w' : World) :
  deactivate_all shares w = Ok w' ->
  storage w' = storage w /\ custodians_kept (deployed w) (deployed w').
Proof.
  intros H. pose proof (deactivate_all_exact _ _ _ H) as Hex.
  apply deactivate_all_Ok in H as (Hs & _ & Hlen & _).
  split; [exact Hs|]. split; [exact Hlen|].
  intros n c Hn. rewrite (Hex n c Hn). eexists. split; [reflexivity|].
  destruct (address_in (ShareAddress n) shares); repeat split; auto.
Qed.

Lemma store_for_effect e user data threshold w w' cs :
  store_for e user data threshold w = Ok (w', cs) ->
  cs = fresh_addresses (List.length (deployed w)) (List.length data)
  /\ deployed w' = (deployed w ++ map (fresh_custodian user) data)%list
  /\ userShares (storage w') user = (userShares (storage w) user ++ cs)%list
  /\ (forall a, a <> user -> userShares (storage w') a = userShares (storage w) a)
  /\ shareConfigs (storage w') user
     = stored_config user (Z.of_nat (List.length data)) threshold (block_timestamp e) cs
  /\ (forall a, a <> user -> shareConfigs (storage w') a = shareConfigs (storage w) a)
  /\ (data <> [] -> user <> zero_address)
  /\ Forall (fun d => d <> []) data.
Proof.
  unfold store_for. intros H.
  apply sol_bind_Ok in H as ([w1 cs1] & Hdep & H).
  apply sol_bind_Ok in H as (u & _ & H). injection H as <- <-.
  pose proof (deploy_shares_exact _ _ _ _ _ _ Hdep) as (-> & Hd & Hus & Hnz & Hall).
  apply deploy_shares_Ok in Hdep as (added & news & _ & _ & _ & _ & Hother & Hs).
  cbn [app] in *. cbn [with_storage storage deployed userShares shareConfigs
                       set_lastActionTimestamp set_shareConfigs].
  split; [reflexivity|]. split; [exact Hd|]. split; [exact Hus|].
  split; [exact Hother|]. split; [apply upd_same|].
  split; [|split; assumption].
  intros a Ha. rewrite upd_other by assumption.
  rewrite <- Hs. reflexivity.
Qed.

Lemma shares_effect (e : Env) (c : call) (w w' : World) :
  execute e c w = Ok w' ->
  keeps_shares w w' \/ stores_shares (block_timestamp e) w w'.
Proof.
  intros H. destruct (touches_shares c) eqn:Hc.
  2:{ left. destruct (registry_call_frame e c w w' Hc H) as (Hd & Hu & Hcfg).
      split; [exact Hu|]. split; [rewrite Hd; apply custodians_kept_refl|].
      intros a. left. now rewrite Hcfg. }
  destruct c; cbn [touches_shares execute] in *; try discriminate Hc.
  - right. apply sol_bind_Ok in H as ([w1 cs] & H & H1). injection H1 as <-.
    unfold storeShares in H.
    do 2 (apply sol_bind_Ok in H as (? & _ & H)).
    apply sol_bind_Ok in H as (s1 & Hth & H).
    apply sol_bind_Ok in H as (? & _ & H).
    apply sol_bind_Ok in H as (? & Hthr & H). apply require_Ok in Hthr.
    apply sol_bind_Ok in H as (? & Hmin & H). apply require_Ok in Hmin.
    apply sol_bind_Ok in H as (? & Hmax & H). apply require_Ok in Hmax.
    apply sol_bind_Ok in H as (? & Hnone & H). apply require_Ok in Hnone.
    apply throttle_effect in Hth as (f & -> & _ & _).
    apply store_for_effect in H as (-> & Hd & Hus & Huo & Hcfg & Hco & Hnz & Hall).
    apply andb_true_iff in Hthr as [Hpos Hle].
    apply Z.ltb_lt in Hpos. apply Z.leb_le in Hle, Hmin, Hmax.
    apply negb_true_iff in Hnone.
    exists (msg_sender e), encryptedShareData, threshold.
    cbn [with_storage storage deployed userShares shareConfigs set_failedAttempts] in *.
    split; [apply Hnz; destruct encryptedShareData; [simpl in Hmin; lia | discriminate]|].
    unfold bytes in *.
    split; [exact Hall|]. split; [lia|]. split; [lia|]. split; [exact Hnone|].
    repeat (split; [assumption|]). assumption.
  - right. apply sol_bind_Ok in H as ([w1 cs] & H & H1). injection H1 as <-.
    unfold storeSharesFor in H.
    do 4 (apply sol_bind_Ok in H as (? & _ & H)).
    apply sol_bind_Ok in H as (s1 & Hth & H).
    apply sol_bind_Ok in H as (? & _ & H).
    apply sol_bind_Ok in H as (? & Hthr & H). apply require_Ok in Hthr.
    apply sol_bind_Ok in H as (? & Hmin & H). apply require_Ok in Hmin.
    apply sol_bind_Ok in H as (? & Hmax & H). apply require_Ok in Hmax.
    apply sol_bind_Ok in H as (? & Hnone & H). apply require_Ok in Hnone.
    do 2 (apply sol_bind_Ok in H as (? & _ & H)).
    apply throttle_effect in Hth as (f & -> & _ & _).
    apply store_for_effect in H as (-> & Hd & Hus & Huo & Hcfg & Hco & Hnz & Hall).
    apply andb_true_iff in Hthr as [Hpos Hle].
    apply Z.ltb_lt in Hpos. apply Z.leb_le in Hle, Hmin, Hmax.
    apply negb_true_iff in Hnone.
    exists user, encryptedShareData, threshold.
    cbn [with_storage storage deployed userShares shareConfigs set_failedAttempts] in *.
    split; [apply Hnz; destruct encryptedShareData; [simpl in Hmin; lia | discriminate]|].
    unfold bytes in *.
    split; [exact Hall|]. split; [lia|]. split; [lia|]. split; [exact Hnone|].
    repeat (split; [assumption|]). assumption.
  - left. unfold keeps_shares. apply revokeShares_Ok in H as (w1 & Hde & _ & ->).
    apply deactivate_all_kept in Hde as (Hs & Hk).
    cbn [with_storage storage deployed userShares shareConfigs
         set_lastActionTimestamp set_shareConfigs].
    rewrite Hs. split; [reflexivity|]. split; [exact Hk|].
    intros a. unfold upd. destruct (address_eqb a (msg_sender e)) eqn:E; [|now left].
    apply address_eqb_eq in E. subst a. now right.
  - left. unfold keeps_shares. apply sol_bind_Ok in H as ([w1 cs] & H & H1). injection H1 as <-.
    unfold getShare in H.
    do 2 (apply sol_bind_Ok in H as (? & _ & H)).
    apply sol_bind_Ok in H as (s1 & Hth & H).
    apply sol_bind_Ok in H as (target & _ & H).
    apply call_share_kept in H as (Hs & Hk);
      [|intros ? ? ?; apply getShare_custodian_kept].
    cbn [with_storage storage deployed] in *. rewrite Hs.
    assert (Hs1 : userShares s1 = userShares (storage w)
                  /\ shareConfigs s1 = shareConfigs (storage w)).
    { destruct (negb (address_eqb (msg_sender e) user)).
      - apply throttle_effect in Hth as (f & -> & _). split; reflexivity.
      - injection Hth as <-. split; reflexivity. }
    destruct Hs1 as [Hu Hcfg].
    split; [exact Hu|]. split; [exact Hk|]. intros a. left. now rewrite Hcfg.
  - left. unfold keeps_shares. apply sol_bind_Ok in H as ([w1 cs] & H & H1). injection H1 as <-.
    apply call_share_kept in H as (Hs & Hk);
      [|intros ? ? ?; apply getShare_custodian_kept].
    rewrite Hs. split; [reflexivity|]. split; [exact Hk|]. now left.
  - left. unfold keeps_shares. unfold share_deactivate in H.
    apply sol_bind_Ok in H as ([w1 cs] & H & H1). injection H1 as <-.
    apply call_share_kept in H as (Hs & Hk).
    + rewrite Hs. split; [reflexivity|]. split; [exact Hk|]. now left.
    + intros d d' [] Hd. apply sol_bind_Ok in Hd as (d'' & Hd & Hd').
      injection Hd' as <-. now apply deactivate_custodian_kept in Hd.
  - left. unfold keeps_shares. unfold share_updateShare in H.
    apply sol_bind_Ok in H as ([w1 cs] & H & H1). injection H1 as <-.
    apply call_share_kept in H as (Hs & Hk).
    + rewrite Hs. split; [reflexivity|]. split; [exact Hk|]. now left.
    + intros d d' [] Hd. apply sol_bind_Ok in Hd as (d'' & Hd & Hd').
      injection Hd' as <-. now apply updateShare_custodian_kept in Hd.
Qed.

Lemma custody_kept (w w' : World) :
  custody w -> keeps_shares w w' -> custody w'.
Proof.
  intros [H1 H2 H3] (Hu & (Hlen & Hk) & _). constructor.
  - intros u a Hin. rewrite Hu in Hin.
    destruct (H1 u a Hin) as (n & c & -> & Hn & Ho).
    destruct (Hk n c Hn) as (c' & Hn' & Ho' & _).
    exists n, c'. repeat split; auto. congruence.
  - intros u. rewrite Hu. apply H2.
  - intros n c' Hn'.
    assert (Hlt : (n < List.length (deployed w))%nat)
      by (rewrite <- Hlen; apply nth_error_Some; congruence).
    destruct (nth_error (deployed w) n) as [c|] eqn:Hn;
      [|apply nth_error_None in Hn; lia].
    destruct (Hk n c Hn) as (c'' & Hn'' & Ho & Hr & Hp).
    assert (c'' = c') by congruence. subst c''.
    destruct (H3 n c Hn) as (Ha & Hb & Hc & Hd).
    rewrite Hu, Ho, Hr. auto.
Qed.

Lemma fresh_addresses_In (first count : nat) (a : address) :
  In a (fresh_addresses first count)
  <-> exists n, a = ShareAddress n /\ (first <= n < first + count)%nat.
Proof.
  unfold fresh_addresses. rewrite in_map_iff. split.
  - intros (n & <- & Hn). apply in_seq in Hn. eauto.
  - intros (n & -> & Hn). exists n. split; [reflexivity | apply in_seq; lia].
Qed.

Lemma fresh_addresses_NoDup (first count : nat) : NoDup (fresh_addresses first count).
Proof.
  unfold fresh_addresses.
  assert (H : forall l : list nat, NoDup l -> NoDup (map ShareAddress l)).
  { induction 1 as [|a l Hnin _ IH]; cbn [map]; constructor; [|exact IH].
    rewrite in_map_iff. intros (k & Hk & Hin). injection Hk as ->. contradiction. }
  apply H, seq_NoDup.
Qed.

Lemma nth_error_fresh_custodian (user : address) (data : list bytes)
      (old : list SecureShareContract.State) (n : nat) (c : SecureShareContract.State) :
  nth_error (old ++ map (fresh_custodian user) data)%list n = Some c ->
  (List.length old <= n)%nat ->
  exists d, nth_error data (n - List.length old) = Some d /\ c = fresh_custodian user d.
Proof.
  intros H Hge. rewrite nth_error_app2 in H by exact Hge.
  rewrite nth_error_map in H.
  destruct (nth_error data (n - List.length old)) as [d|]; [|discriminate].
  injection H as <-. eauto.
Qed.

Lemma custody_stored (timestamp : uint256) (w w' : World) :
  custody w -> stores_shares timestamp w w' -> custody w'.
Proof.
  intros [H1 H2 H3]
         (user & data & threshold & Hnz & Hall & Hcount & _ & _ & Hd & Hus & Huo & _).
  unfold bytes in *.
  assert (Hold : forall u a, In a (userShares (storage w) u) ->
                             exists n, a = ShareAddress n /\ (n < List.length (deployed w))%nat).
  { intros u a Hin. destruct (H1 u a Hin) as (n & c & -> & Hn & _).
    exists n. split; [reflexivity|]. apply nth_error_Some. congruence. }
  constructor.
  - intros u a Hin. destruct (address_eqb u user) eqn:E.
    + apply address_eqb_eq in E. subst u. rewrite Hus in Hin.
      apply in_app_or in Hin as [Hin|Hin].
      * destruct (H1 user a Hin) as (n & c & -> & Hn & Ho).
        exists n, c. repeat split; auto. rewrite Hd.
        rewrite nth_error_app1; [exact Hn|]. apply nth_error_Some. congruence.
      * apply fresh_addresses_In in Hin as (n & -> & Hn).
        destruct (nth_error data (n - List.length (deployed w))) as [d|] eqn:Ed;
          [|apply nth_error_None in Ed; lia].
        exists n, (fresh_custodian user d). repeat split.
        rewrite Hd, nth_error_app2 by lia. now rewrite nth_error_map, Ed.
    + apply address_eqb_neq in E. rewrite (Huo u E) in Hin.
      destruct (H1 u a Hin) as (n & c & -> & Hn & Ho).
      exists n, c. repeat split; auto. rewrite Hd.
      rewrite nth_error_app1; [exact Hn|]. apply nth_error_Some. congruence.
  - intros u. destruct (address_eqb u user) eqn:E.
    + apply address_eqb_eq in E. subst u. rewrite Hus.
      apply NoDup_app; [apply H2 | apply fresh_addresses_NoDup|].
      intros a Ha Hb. apply Hold in Ha as (n & -> & Hn).
      apply fresh_addresses_In in Hb as (m & Hm & Hrange). injection Hm as ->. lia.
    + apply address_eqb_neq in E. rewrite (Huo u E). apply H2.
  - intros n c Hn. rewrite Hd in Hn.
    destruct (Nat.lt_ge_cases n (List.length (deployed w))) as [Hlt|Hge].
    + rewrite nth_error_app1 in Hn by exact Hlt.
      destruct (H3 n c Hn) as (Ha & Hb & Hc & Hin).
      repeat split; auto.
      destruct (address_eqb (SecureShareContract.owner c) user) eqn:E.
      * apply address_eqb_eq in E. rewrite E in *. rewrite Hus. apply in_or_app. now left.
      * apply address_eqb_neq in E. now rewrite (Huo _ E).
    + pose proof Hn as Hn'.
      apply nth_error_fresh_custodian in Hn as (d & Hdn & ->); [|exact Hge].
      unfold bytes in *.
      cbn [fresh_custodian SecureShareContract.registry SecureShareContract.owner
           SecureShareContract.encryptedShare].
      split; [reflexivity|]. split; [exact Hnz|]. split.
      * rewrite Forall_forall in Hall. apply Hall. eapply nth_error_In; eauto.
      * rewrite Hus. apply in_or_app. right. apply fresh_addresses_In.
        exists n. split; [reflexivity|].
        assert ((n - List.length (deployed w) < List.length data)%nat)
          by (apply nth_error_Some; congruence).
        lia.
Qed.

Lemma configurations_kept (w w' : World) :
  configurations_proper w -> keeps_shares w w' -> configurations_proper w'.
Proof.
  intros H (Hu & _ & Hcfg) u. cbv zeta. rewrite Hu.
  destruct (H u) as [Hle Hact].
  destruct (Hcfg u) as [-> | ->]; [auto|].
  cbn [ShareConfig.set_isActive ShareConfig.totalShares ShareConfig.isActive
       ShareConfig.threshold].
  split; [exact Hle | discriminate].
Qed.

Lemma configurations_stored (timestamp : uint256) (w w' : World) :
  configurations_proper w -> stores_shares timestamp w w' -> configurations_proper w'.
Proof.
  intros H (user & data & threshold & _ & _ & Hcount & Hthr & _ & _ & Hus & Huo & Hcfg & Hco) u.
  cbv zeta. destruct (address_eqb u user) eqn:E.
  - apply address_eqb_eq in E. subst u. rewrite Hcfg, Hus.
    cbn [stored_config ShareConfig.totalShares ShareConfig.isActive ShareConfig.threshold].
    rewrite length_app. unfold fresh_addresses. rewrite length_map, length_seq.
    unfold bytes in *. split; [lia|]. intros _. lia.
  - apply address_eqb_neq in E. rewrite (Hco u E), (Huo u E). apply H.
Qed.

Lemma execute_keeps_custody e c w w' :
  execute e c w = Ok w' -> custody w /\ configurations_proper w ->
  custody w' /\ configurations_proper w'.
Proof.
  intros H [Hc Hp]. apply shares_effect in H as [Hk|Hs].
  - split; [eapply custody_kept | eapply configurations_kept]; eauto.
  - split; [eapply custody_stored | eapply configurations_stored]; eauto.
Qed.

Lemma run_keeps_custody (history : list (Env * call)) :
  forall w, custody w /\ configurations_proper w ->
            custody (run history w) /\ configurations_proper (run history w).
Proof.
  induction history as [|[e c] rest IH]; intros w Hw; simpl; [exact Hw|].
  destruct (execute e c w) as [w'| |] eqn:E; auto.
  apply IH. eapply execute_keeps_custody; eauto.
Qed.

Lemma constructed_custody deployer fee collector w0 :
  constructor deployer fee collector = Ok w0 -> custody w0 /\ configurations_proper w0.
Proof.
  unfold constructor. intros H. sol_inv. subst w0. split.
  - constructor; cbn [storage deployed userShares].
    + intros u a [].
    + intros u. constructor.
    + intros [|n] c Hn; discriminate Hn.
  - intros u. cbn. split; [lia | discriminate].
Qed.

Lemma reachable_custody (w : World) :
  reachable w -> custody w /\ configurations_proper w.
Proof.
  intros (deployer & fee & collector & w0 & history & Hc & <-).
  apply run_keeps_custody. eapply constructed_custody; eauto.
Qed.

(** ** What holds in every world the registry can reach *)

(** From the constructor on and along any history, the books of the
    registry and the share contracts agree. *)
Theorem books_and_custodians_agree (w : World) : reachable w -> custody w.
Proof. intros H. now apply reachable_custody in H. Qed.

Lemma books_and_custodians_agree_witness : custody world_restored.
Proof.
  apply books_and_custodians_agree.
  exists admin, 0, collector, genesis, history_restored.
  split; [exact genesis_constructed | unfold world_restored; reflexivity].
Defined.

(** In every reachable world, every index the bounds check of [getShare]
    lets through names a share contract of that user, bound to the
    registry: the array access behind the check cannot fail. *)
Theorem index_in_bounds_has_custodian (w : World) (user : address) (index : uint256) :
  reachable w ->
  0 <= index < ShareConfig.totalShares (shareConfigs (storage w) user) ->
  exists n c,
    nth_error (userShares (storage w) user) (Z.to_nat index) = Some (ShareAddress n)
    /\ nth_error (deployed w) n = Some c
    /\ SecureShareContract.owner c = user
    /\ SecureShareContract.registry c = RegistryAddress.
Proof.
  intros Hr Hidx. apply reachable_custody in Hr as [[H1 H2 H3] Hp].
  destruct (Hp user) as [Hle _].
  destruct (nth_error (userShares (storage w) user) (Z.to_nat index)) as [a|] eqn:Ea;
    [|apply nth_error_None in Ea; lia].
  destruct (H1 user a (nth_error_In _ _ Ea)) as (n & c & -> & Hn & Ho).
  destruct (H3 n c Hn) as (Hreg & _).
  exists n, c. auto.
Qed.

Lemma index_in_bounds_has_custodian_witness :
  exists n c,
    nth_error (userShares (storage world_restored) alice) (Z.to_nat 2) = Some (ShareAddress n)
    /\ nth_error (deployed world_restored) n = Some c
    /\ SecureShareContract.owner c = alice
    /\ SecureShareContract.registry c = RegistryAddress.
Proof.
  apply index_in_bounds_has_custodian.
  - exists admin, 0, collector, genesis, history_restored.
    split; [exact genesis_constructed | unfold world_restored; reflexivity].
  - vm_compute. split; [discriminate | reflexivity].
Defined.

(** In every reachable world a configuration never counts more shares
    than its user's array holds, and an active one has 3 to 100 shares and
    a threshold from 1 to their number. *)
Theorem reachable_configurations_proper (w : World) :
  reachable w -> configurations_proper w.
Proof. intros H. now apply reachable_custody in H. Qed.

Lemma reachable_configurations_proper_witness : configurations_proper world_restored.
Proof.
  apply reachable_configurations_proper.
  exists admin, 0, collector, genesis, history_restored.
  split; [exact genesis_constructed | unfold world_restored; reflexivity].
Defined.

Lemma deactivate_all_succeeds (shares : list address) :
  forall w,
    (forall a, In a shares ->
               exists n c, a = ShareAddress n
                           /\ nth_error (deployed w) n = Some c
                           /\ SecureShareContract.registry c = RegistryAddress) ->
    exists w', deactivate_all shares w = Ok w'.
Proof.
  induction shares as [|a rest IH]; intros w H; cbn [deactivate_all]; [eauto|].
  destruct (H a (or_introl eq_refl)) as (n & c & -> & Hn & Hreg).
  unfold call_share. rewrite Hn.
  unfold SecureShareContract.deactivate, SecureShareContract.onlyOwnerOrRegistry.
  rewrite Hreg. cbn [address_eqb]. rewrite orb_true_r. cbn [require sol_bind].
  apply IH. intros b Hb.
  destruct (H b (or_intror Hb)) as (m & d & -> & Hm & Hd).
  cbn [deployed]. destruct (Nat.eq_dec n m) as [<-|Hne].
  - exists n, (SecureShareContract.set_isActive c false).
    split; [reflexivity|]. split; [eapply nth_error_list_set_same; eauto|].
    assert (d = c) by congruence. subst d. exact Hd.
  - exists m, d. rewrite nth_error_list_set_other by assumption. auto.
Qed.

(** In every reachable world, [revokeShares] succeeds for exactly the
    callers that hold an active configuration: no share contract of the
    caller's array can refuse the registry's [deactivate]. *)
Theorem revokeShares_succeeds_iff (e : Env) (w : World) :
  reachable w ->
  ((exists w', revokeShares e w = Ok w') <-> hasShares (storage w) (msg_sender e) = true).
Proof.
  intros Hr. split.
  - intros [w' H]. now apply revokeShares_Ok in H as (_ & _ & Hhas & _).
  - intros Hhas. apply reachable_custody in Hr as [[H1 H2 H3] _].
    destruct (deactivate_all_succeeds (userShares (storage w) (msg_sender e)) w) as [w1 Hde].
    { intros a Hin. destruct (H1 _ a Hin) as (n & c & -> & Hn & _).
      destruct (H3 n c Hn) as (Hreg & _). eauto. }
    unfold revokeShares. rewrite Hhas. cbn [require sol_bind]. rewrite Hde.
    cbn [sol_bind]. eauto.
Qed.

Lemma revokeShares_succeeds_iff_witness :
  (exists w', revokeShares (tx alice 9000) world_restored = Ok w')
  <-> hasShares (storage world_restored) (msg_sender (tx alice 9000)) = true.
Proof.
  apply revokeShares_succeeds_iff.
  exists admin, 0, collector, genesis, history_restored.
  split; [exact genesis_constructed | unfold world_restored; reflexivity].
Defined.

(** ** Throttling *)

Lemma execute_failed_attempts e c w w' :
  execute e c w = Ok w' ->
  (forall u, failedAttempts (storage w) u = 0) ->
  forall u, failedAttempts (storage w') u = 0.
Proof.
  intros H Hzero u. destruct (touches_shares c) eqn:Hc.
  - apply shares_call_storage in H as (f & us & cfg & last & -> & Hf); [|exact Hc].
    cbn [failedAttempts set_lastActionTimestamp set_shareConfigs set_userShares
         set_failedAttempts].
    destruct (Hf u) as [-> | ->]; auto.
  - destruct c; cbn [touches_shares execute] in *; try discriminate Hc;
      open_call H;
      cbn [storage with_storage failedAttempts set_lastActionTimestamp set_serviceFee
           set_feeCollector set_recoveryRequests set_recoveryAddresses set_emergencyContacts
           set_blacklisted set_feeExemptions set_paused set_contractOwner set_failedAttempts];
      try apply Hzero;
      try (match goal with
           | Hf : forall u, ?f u = _ \/ ?f u = 0 |- ?f ?v = 0 =>
               destruct (Hf v) as [-> | ->]; auto
           end).
    unfold upd. destruct (address_eqb u account); auto.
Qed.

Lemma run_failed_attempts (history : list (Env * call)) :
  forall w, (forall u, failedAttempts (storage w) u = 0) ->
            forall u, failedAttempts (storage (run history w)) u = 0.
Proof.
  induction history as [|[e c] rest IH]; intros w Hw; simpl; [exact Hw|].
  destruct (execute e c w) as [w'| |] eqn:E; auto.
  apply IH. eapply execute_failed_attempts; eauto.
Qed.

Lemma reachable_failed_attempts (w : World) :
  reachable w -> forall u, failedAttempts (storage w) u = 0.
Proof.
  intros (deployer & fee & collector & w0 & history & Hc & <-).
  apply run_failed_attempts.
  unfold constructor in Hc. sol_inv. subst w0. reflexivity.
Qed.

(** No transaction ever records a failed attempt: in every reachable
    world all the counters are 0, so the lock-out after five failures
    never applies, and a request passes the throttle exactly when its
    sender is the owner of the registry or its last action is at least
    five minutes old. *)
Theorem throttle_is_the_five_minute_rule (w : World) (timestamp : uint256)
        (account : address) :
  reachable w ->
  (forall u, failedAttempts (storage w) u = 0)
  /\ ((exists s', _throttleRequests timestamp account (storage w) = Ok s')
      <-> account = contractOwner (storage w)
          \/ lastActionTimestamp (storage w) account + THROTTLE_DURATION <= timestamp).
Proof.
  intros Hr. pose proof (reachable_failed_attempts w Hr) as Hzero.
  split; [exact Hzero|]. split.
  - intros [s' H]. now apply throttle_effect in H as (f & _ & _ & Hwait).
  - intros [Ho|Hwait].
    + unfold _throttleRequests. apply address_eqb_eq in Ho. rewrite Ho. eauto.
    + destruct (throttle_passes timestamp account (storage w) Hwait) as [f Hf]; [|eauto].
      rewrite Hzero. reflexivity.
Qed.

Lemma throttle_is_the_five_minute_rule_witness :
  (forall u, failedAttempts (storage world_restored) u = 0)
  /\ ((exists s', _throttleRequests 5100 alice (storage world_restored) = Ok s')
      <-> alice = contractOwner (storage world_restored)
          \/ lastActionTimestamp (storage world_restored) alice + THROTTLE_DURATION <= 5100).
Proof.
  apply throttle_is_the_five_minute_rule.
  exists admin, 0, collector, genesis, history_restored.
  split; [exact genesis_constructed | unfold world_restored; reflexivity].
Defined.





(** ** Recovery addresses *)

Lemma find_address_split (v : address) (l : list address) :
  forall k i, find_address v l k = Some i ->
              exists l1 l2, l = (l1 ++ v :: l2)%list /\ ~ In v l1 /\ i = (k + List.length l1)%nat.
Proof.
  induction l as [|h l IH]; intros k i H; simpl in H; [discriminate|].
  destruct (address_eqb h v) eqn:E.
  - apply address_eqb_eq in E. subst h. injection H as <-.
    exists [], l. simpl. repeat split; auto; lia.
  - apply address_eqb_neq in E.
    destruct (IH _ _ H) as (l1 & l2 & -> & Hnin & ->).
    exists (h :: l1), l2. simpl. repeat split; [|lia].
    intros [Heq|Hin]; [congruence | contradiction].
Qed.

Lemma find_address_None (v : address) (l : list address) :
  forall k, find_address v l k = None -> ~ In v l.
Proof.
  induction l as [|h l IH]; intros k H; simpl in *; [tauto|].
  destruct (address_eqb h v) eqn:E; [discriminate|].
  apply address_eqb_neq in E. intros [Heq|Hin]; [congruence|]. eapply IH; eauto.
Qed.

Lemma list_set_middle {A : Type} (l1 l2 : list A) (v z : A) :
  list_set (l1 ++ v :: l2)%list (List.length l1) z = (l1 ++ z :: l2)%list.
Proof. induction l1 as [|h l1 IH]; simpl; [reflexivity | now rewrite IH]. Qed.

Lemma swap_and_pop_permutation (v : address) (l1 l2 : list address) :
  Permutation (v :: swap_and_pop (l1 ++ v :: l2) (List.length l1)) (l1 ++ v :: l2).
Proof.
  unfold swap_and_pop.
  destruct l2 as [|z0 l2 _] using rev_ind.
  - assert (Hlen : List.length (l1 ++ [v]) = S (List.length l1))
      by (rewrite length_app; simpl; lia).
    rewrite Hlen.
    destruct (Nat.ltb_spec (List.length l1) (S (List.length l1) - 1)) as [|_]; [lia|].
    rewrite removelast_last. apply Permutation_cons_append.
  - assert (Hlen : List.length (l1 ++ v :: l2 ++ [z0])
                   = S (S (List.length l1 + List.length l2)))
      by (rewrite !length_app; simpl; rewrite length_app; simpl; lia).
    rewrite Hlen.
    destruct (Nat.ltb_spec (List.length l1) (S (S (List.length l1 + List.length l2)) - 1))
      as [_|]; [|lia].
    replace (nth (S (S (List.length l1 + List.length l2)) - 1)
                 (l1 ++ v :: l2 ++ [z0]) zero_address) with z0.
    2:{ rewrite app_nth2 by lia.
        replace (S (S (List.length l1 + List.length l2)) - 1 - List.length l1)%nat
          with (S (List.length l2)) by lia.
        cbn [nth]. rewrite app_nth2 by lia. now rewrite Nat.sub_diag. }
    rewrite list_set_middle.
    replace (l1 ++ z0 :: l2 ++ [z0])%list with ((l1 ++ z0 :: l2) ++ [z0])%list
      by (rewrite <- app_assoc; reflexivity).
    rewrite removelast_last.
    apply Permutation_trans with (l1 ++ v :: z0 :: l2)%list.
    + apply Permutation_middle.
    + apply Permutation_app_head. apply perm_skip. apply Permutation_cons_append.
Qed.

Lemma removeRecoveryAddress_Ok (e : Env) (a : address) (w w' : World) :
  removeRecoveryAddress e a w = Ok w' ->
  exists l1 l2,
    recoveryAddresses (storage w) (msg_sender e) = (l1 ++ a :: l2)%list
    /\ ~ In a l1
    /\ recoveryAddresses (storage w') (msg_sender e)
       = swap_and_pop (l1 ++ a :: l2) (List.length l1)
    /\ (forall u, u <> msg_sender e ->
                  recoveryAddresses (storage w') u = recoveryAddresses (storage w) u)
    /\ emergencyContacts (storage w') = emergencyContacts (storage w).
Proof.
  unfold removeRecoveryAddress. intros H.
  apply sol_bind_Ok in H as (s1 & Hth & H).
  apply throttle_effect in Hth as (f & -> & _ & _).
  cbn [recoveryAddresses set_failedAttempts] in H.
  destruct (find_address a (recoveryAddresses (storage w) (msg_sender e)) 0) as [i|] eqn:Ef;
    [|discriminate].
  injection H as <-.
  apply find_address_split in Ef as (l1 & l2 & Hl & Hnin & ->).
  exists l1, l2. split; [exact Hl|]. split; [exact Hnin|].
  cbn [with_storage storage recoveryAddresses emergencyContacts set_lastActionTimestamp
       set_recoveryAddresses set_failedAttempts].
  split; [rewrite upd_same, Hl; reflexivity|].
  split; [intros u Hu; now apply upd_other | reflexivity].
Qed.

(** A successful [removeRecoveryAddress] takes out the address it was
    given and nothing else: the new list with the address put back is a
    rearrangement of the old one.  Where the old list held no address
    twice, the address is no recovery address afterwards and every other
    address is one exactly if it was; other users' lists are untouched. *)
Theorem removeRecoveryAddress_removes (e : Env) (a : address) (w w' : World) :
  removeRecoveryAddress e a w = Ok w' ->
  let sender := msg_sender e in
  Permutation (a :: recoveryAddresses (storage w') sender)
              (recoveryAddresses (storage w) sender)
  /\ (NoDup (recoveryAddresses (storage w) sender) ->
      isRecoveryAddress (storage w') sender a = false
      /\ forall b, b <> a ->
                   isRecoveryAddress (storage w') sender b
                   = isRecoveryAddress (storage w) sender b)
  /\ (forall u, u <> sender ->
                recoveryAddresses (storage w') u = recoveryAddresses (storage w) u).
Proof.
  intros H sender. subst sender.
  apply removeRecoveryAddress_Ok in H as (l1 & l2 & Hl & Hnin & Hnew & Hother & _).
  assert (Hperm : Permutation (a :: recoveryAddresses (storage w') (msg_sender e))
                              (recoveryAddresses (storage w) (msg_sender e))).
  { rewrite Hnew, Hl. apply swap_and_pop_permutation. }
  split; [exact Hperm|]. split; [|exact Hother].
  intros Hnd.
  assert (Hnd' : NoDup (a :: recoveryAddresses (storage w') (msg_sender e)))
    by (eapply Permutation_NoDup; [apply Permutation_sym; exact Hperm | exact Hnd]).
  inversion Hnd' as [|? ? Hnotin Hrest]. subst.
  unfold isRecoveryAddress. split.
  - destruct (address_in a (recoveryAddresses (storage w') (msg_sender e))) eqn:E;
      [|reflexivity].
    apply address_in_In in E. contradiction.
  - intros b Hb.
    destruct (address_in b (recoveryAddresses (storage w) (msg_sender e))) eqn:E.
    + apply address_in_In in E. apply address_in_In.
      apply (Permutation_in _ (Permutation_sym Hperm)) in E.
      destruct E as [Heq|Hin]; [congruence | exact Hin].
    + destruct (address_in b (recoveryAddresses (storage w') (msg_sender e))) eqn:E';
        [|reflexivity].
      apply address_in_In in E'.
      assert (In b (recoveryAddresses (storage w) (msg_sender e)))
        by (apply (Permutation_in _ Hperm); now right).
      apply address_in_In in H. congruence.
Qed.

Lemma addRecoveryAddress_Ok (e : Env) (a : address) (w w' : World) :
  addRecoveryAddress e a w = Ok w' ->
  a <> zero_address /\ a <> msg_sender e
  /\ ~ In a (recoveryAddresses (storage w) (msg_sender e))
  /\ (List.length (recoveryAddresses (storage w) (msg_sender e)) < 10)%nat
  /\ recoveryAddresses (storage w') (msg_sender e)
     = (recoveryAddresses (storage w) (msg_sender e) ++ [a])%list
  /\ (forall u, u <> msg_sender e ->
                recoveryAddresses (storage w') u = recoveryAddresses (storage w) u)
  /\ emergencyContacts (storage w') = emergencyContacts (storage w).
Proof.
  unfold addRecoveryAddress. intros H.
  apply sol_bind_Ok in H as (? & Hz & H). apply require_Ok in Hz.
  apply sol_bind_Ok in H as (? & Hself & H). apply require_Ok in Hself.
  apply sol_bind_Ok in H as (s1 & Hth & H).
  apply sol_bind_Ok in H as (? & _ & H).
  apply sol_bind_Ok in H as (? & Hnew & H). apply require_Ok in Hnew.
  apply sol_bind_Ok in H as (? & Hlen & H). apply require_Ok in Hlen.
  apply sol_bind_Ok in H as (? & _ & H). injection H as <-.
  apply throttle_effect in Hth as (f & -> & _ & _).
  cbn [recoveryAddresses set_failedAttempts] in *.
  apply negb_true_iff, address_eqb_neq in Hz, Hself.
  apply negb_true_iff in Hnew. apply Nat.ltb_lt in Hlen.
  split; [exact Hz|]. split; [exact Hself|]. split.
  { rewrite <- address_in_In. congruence. }
  split; [exact Hlen|].
  cbn [with_storage storage recoveryAddresses emergencyContacts set_lastActionTimestamp
       set_recoveryAddresses set_failedAttempts].
  split; [apply upd_same|].
  split; [intros u Hu; now apply upd_other | reflexivity].
Qed.

Lemma recovery_frame (e : Env) (c : call) (w w' : World) :
  writes_recovery c = false ->
  execute e c w = Ok w' ->
  recoveryAddresses (storage w') = recoveryAddresses (storage w)
  /\ emergencyContacts (storage w') = emergencyContacts (storage w).
Proof.
  intros Hc H. destruct (touches_shares c) eqn:Ht.
  - apply shares_call_storage in H as (f & us & cfg & last & -> & _); [|exact Ht].
    split; reflexivity.
  - destruct c; cbn [touches_shares writes_recovery execute] in *;
      try discriminate Hc; try discriminate Ht;
      open_call H; split; reflexivity.
Qed.

Lemma setEmergencyContact_Ok (e : Env) (contact : address) (w w' : World) :
  setEmergencyContact e contact w = Ok w' ->
  contact <> zero_address /\ contact <> msg_sender e
  /\ emergencyContacts (storage w') (msg_sender e) = contact
  /\ (forall u, u <> msg_sender e ->
                emergencyContacts (storage w') u = emergencyContacts (storage w) u)
  /\ recoveryAddresses (storage w') = recoveryAddresses (storage w).
Proof.
  unfold setEmergencyContact. intros H.
  apply sol_bind_Ok in H as (? & Hz & H). apply require_Ok in Hz.
  apply sol_bind_Ok in H as (? & Hself & H). apply require_Ok in Hself.
  apply sol_bind_Ok in H as (s1 & Hth & H).
  apply sol_bind_Ok in H as (? & _ & H). injection H as <-.
  apply throttle_effect in Hth as (f & -> & _ & _).
  apply negb_true_iff, address_eqb_neq in Hz, Hself.
  cbn [with_storage storage recoveryAddresses emergencyContacts set_lastActionTimestamp
       set_emergencyContacts set_failedAttempts].
  split; [exact Hz|]. split; [exact Hself|]. split; [apply upd_same|].
  split; [intros u Hu; now apply upd_other | reflexivity].
Qed.

Lemma execute_recovery_proper e c w w' :
  execute e c w = Ok w' -> recovery_proper w -> recovery_proper w'.
Proof.
  intros H Hp. destruct (writes_recovery c) eqn:Hc.
  2:{ destruct (recovery_frame e c w w' Hc H) as [Hr He]. intros u. rewrite Hr, He. apply Hp. }
  destruct c; cbn [writes_recovery execute] in *; try discriminate Hc.
  - apply addRecoveryAddress_Ok in H as (Hz & Hself & Hnew & Hlen & Hl & Ho & He).
    intros u. rewrite He. destruct (Hp u) as (P1 & P2 & P3 & P4 & P5).
    destruct (address_eqb u (msg_sender e)) eqn:E.
    + apply address_eqb_eq in E. subst u. rewrite Hl.
      split.
      { apply NoDup_app; [exact P1 | repeat constructor; intros [] |].
        intros a Ha [<-|[]]. contradiction. }
      split; [rewrite length_app; simpl; lia|].
      split; [intros Hin; apply in_app_or in Hin as [|[|[]]]; [contradiction | congruence]|].
      split; [intros Hin; apply in_app_or in Hin as [|[|[]]]; [contradiction | congruence]|].
      exact P5.
    + apply address_eqb_neq in E. rewrite (Ho u E). auto.
  - apply removeRecoveryAddress_Ok in H as (l1 & l2 & Hl & Hnin & Hnew & Ho & He).
    intros u. rewrite He. destruct (Hp u) as (P1 & P2 & P3 & P4 & P5).
    destruct (address_eqb u (msg_sender e)) eqn:E.
    + apply address_eqb_eq in E. subst u.
      pose proof (swap_and_pop_permutation recoveryAddress l1 l2) as Hperm.
      rewrite <- Hnew, <- Hl in Hperm.
      assert (Hnd : NoDup (recoveryAddress :: recoveryAddresses (storage w') (msg_sender e)))
        by (eapply Permutation_NoDup; [apply Permutation_sym; exact Hperm | exact P1]).
      assert (Hsub : forall b, In b (recoveryAddresses (storage w') (msg_sender e)) ->
                               In b (recoveryAddresses (storage w) (msg_sender e)))
        by (intros b Hb; apply (Permutation_in _ Hperm); now right).
      split; [now inversion Hnd|].
      split.
      { apply Permutation_length in Hperm. simpl in Hperm. lia. }
      split; [intros Hin; apply P3, Hsub, Hin|].
      split; [intros Hin; apply P4, Hsub, Hin | exact P5].
    + apply address_eqb_neq in E. rewrite (Ho u E). auto.
  - apply setEmergencyContact_Ok in H as (Hz & Hself & Hset & Ho & Hr).
    intros u. rewrite Hr. destruct (Hp u) as (P1 & P2 & P3 & P4 & P5).
    repeat (split; [assumption|]).
    destruct (address_eqb u (msg_sender e)) eqn:E.
    + apply address_eqb_eq in E. subst u. rewrite Hset. now right.
    + apply address_eqb_neq in E. now rewrite (Ho u E).
Qed.

Lemma run_recovery_proper (history : list (Env * call)) :
  forall w, recovery_proper w -> recovery_proper (run history w).
Proof.
  induction history as [|[e c] rest IH]; intros w Hw; simpl; [exact Hw|].
  destruct (execute e c w) as [w'| |] eqn:E; auto.
  apply IH. eapply execute_recovery_proper; eauto.
Qed.

(** In every reachable world each user's recovery addresses are at most
    ten, pairwise different, and hold neither the user nor the zero
    address; and an emergency contact that is set is not the user. *)
Theorem reachable_recovery_proper (w : World) : reachable w -> recovery_proper w.
Proof.
  intros (deployer & fee & collector & w0 & history & Hc & <-).
  apply run_recovery_proper.
  unfold constructor in Hc. sol_inv. subst w0.
  intros u. cbn. repeat split; auto; try constructor; try lia.
Qed.

Lemma reachable_recovery_proper_witness : recovery_proper world_restored.
Proof.
  apply reachable_recovery_proper.
  exists admin, 0, collector, genesis, history_restored.
  split; [exact genesis_constructed | unfold world_restored; reflexivity].
Defined.

(** A successful [addRecoveryAddress] appends the address to the sender's
    list, which did not hold it; from then on it is a recovery address of
    the sender, authorized for the sender's shares at any time. *)
Theorem addRecoveryAddress_authorizes (e : Env) (a : address) (w w' : World) :
  addRecoveryAddress e a w = Ok w' ->
  let sender := msg_sender e in
  ~ In a (recoveryAddresses (storage w) sender)
  /\ recoveryAddresses (storage w') sender
     = (recoveryAddresses (storage w) sender ++ [a])%list
  /\ isRecoveryAddress (storage w') sender a = true
  /\ (forall timestamp, isAuthorizedForShare (storage w') timestamp sender a = true)
  /\ (forall u, u <> sender ->
                recoveryAddresses (storage w') u = recoveryAddresses (storage w) u).
Proof.
  intros H sender. subst sender.
  apply addRecoveryAddress_Ok in H as (_ & _ & Hnew & _ & Hl & Ho & _).
  assert (Hin : In a (recoveryAddresses (storage w') (msg_sender e)))
    by (rewrite Hl; apply in_or_app; right; now left).
  split; [exact Hnew|]. split; [exact Hl|].
  split; [now apply address_in_In|].
  split; [|exact Ho].
  intros timestamp. apply isAuthorizedForShare_iff. auto.
Qed.

Lemma addRecoveryAddress_authorizes_witness :
  isAuthorizedForShare (storage world_with_recovery_address) 2000 alice bob = true.
Proof.
  assert (H : addRecoveryAddress (tx alice 2000) bob world_stored
              = Ok world_with_recovery_address) by (vm_compute; reflexivity).
  destruct (addRecoveryAddress_authorizes (tx alice 2000) bob world_stored
              world_with_recovery_address H) as (_ & _ & _ & Hauth & _).
  apply Hauth.
Defined.

Lemma removeRecoveryAddress_removes_witness :
  exists w',
    removeRecoveryAddress (tx alice 3000) bob world_with_recovery_address = Ok w'
    /\ isRecoveryAddress (storage w') alice bob = false.
Proof.
  assert (H : exists w',
             removeRecoveryAddress (tx alice 3000) bob world_with_recovery_address = Ok w')
    by (eexists; vm_compute; reflexivity).
  destruct H as [w' H]. exists w'. split; [exact H|].
  destruct (removeRecoveryAddress_removes (tx alice 3000) bob world_with_recovery_address w' H)
    as (_ & Hnd & _).
  apply Hnd.
  assert (Hl : recoveryAddresses (storage world_with_recovery_address)
                                 (msg_sender (tx alice 3000)) = [bob])
    by (vm_compute; reflexivity).
  rewrite Hl. repeat constructor. intros [].
Defined.

(** ** Reading a share from its contract *)

(** What the owner stored is what the owner reads back: [storeShares]
    returns one address per payload, in order, and at each of them the
    sender's own [getShare], at any time, returns that payload. *)
Theorem stored_payloads_read_back (e : Env) (data : list bytes) (threshold : uint256)
        (w w' : World) (created : list address) :
  storeShares e data threshold w = Ok (w', created) ->
  List.length created = List.length data
  /\ forall (i : nat) (payload : bytes),
      nth_error data i = Some payload ->
      exists a,
        nth_error created i = Some a
        /\ forall e', msg_sender e' = msg_sender e ->
                      exists w'', share_getShare e' a w' = Ok (w'', payload).
Proof.
  intros H. unfold storeShares in H.
  do 2 (apply sol_bind_Ok in H as (? & _ & H)).
  apply sol_bind_Ok in H as (s1 & _ & H).
  do 5 (apply sol_bind_Ok in H as (? & _ & H)).
  apply store_for_effect in H as (-> & Hd & _).
  cbn [with_storage deployed] in Hd.
  unfold fresh_addresses. split; [now rewrite length_map, length_seq|].
  intros i payload Hi.
  assert (Hlt : (i < List.length data)%nat) by (apply nth_error_Some; congruence).
  exists (ShareAddress (List.length (deployed w) + i)). split.
  - rewrite nth_error_map, nth_error_seq.
    destruct (Nat.ltb_spec i (List.length data)); [reflexivity | lia].
  - intros e' Hsender.
    unfold share_getShare, call_share. rewrite Hd.
    rewrite nth_error_app2 by lia.
    replace (List.length (deployed w) + i - List.length (deployed w))%nat with i by lia.
    rewrite nth_error_map, Hi. cbn [option_map].
    unfold SecureShareContract.getShare, SecureShareContract.onlyActive, fresh_custodian.
    cbn [SecureShareContract.isActive SecureShareContract.owner
         SecureShareContract.accessCount SecureShareContract.encryptedShare
         require sol_bind].
    rewrite Hsender, address_eqb_refl. cbn [negb require sol_bind].
    unfold checked_add. change (0 + 1 <=? MAX_UINT256) with true.
    cbn [sol_bind]. eauto.
Qed.

Lemma stored_payloads_read_back_witness :
  List.length [ShareAddress 0; ShareAddress 1; ShareAddress 2] = List.length payloads_1
  /\ forall (i : nat) (payload : bytes),
      nth_error payloads_1 i = Some payload ->
      exists a,
        nth_error [ShareAddress 0; ShareAddress 1; ShareAddress 2] i = Some a
        /\ forall e', msg_sender e' = msg_sender (tx alice 1000) ->
                      exists w'', share_getShare e' a world_stored = Ok (w'', payload).
Proof.
  apply (stored_payloads_read_back (tx alice 1000) payloads_1 2 genesis world_stored).
  exact sample_store.
Defined.

(** A caller other than the owner who has read a share from its contract
    cannot read it again from there during the next five minutes; the
    owner is under no such limit. *)
Theorem share_reads_five_minutes_apart (e1 e2 : Env) (n : nat)
        (c : SecureShareContract.State) (w w1 : World) (payload : bytes) :
  nth_error (deployed w) n = Some c ->
  share_getShare e1 (ShareAddress n) w = Ok (w1, payload) ->
  msg_sender e2 = msg_sender e1 ->
  msg_sender e1 <> SecureShareContract.owner c ->
  block_timestamp e2 < block_timestamp e1 + 5 * minutes ->
  forall result, share_getShare e2 (ShareAddress n) w1 <> Ok result.
Proof.
  intros Hn H1 Hsame Hno Hsoon [w2 payload2] H2.
  unfold share_getShare in H1, H2.
  apply call_share_Ok in H1 as (m & d & d' & Hm & Hd & Hget & ->).
  injection Hm as <-. assert (d = c) by congruence. subst d.
  unfold SecureShareContract.getShare in Hget.
  do 3 (apply sol_bind_Ok in Hget as (? & _ & Hget)).
  apply sol_bind_Ok in Hget as (count & _ & Hget). injection Hget as <- _.
  apply call_share_Ok in H2 as (m & d & d'' & Hm & Hd' & Hget & _).
  injection Hm as <-. cbn [deployed] in Hd'.
  rewrite (nth_error_list_set_same _ _ _ _ Hn) in Hd'. injection Hd' as <-.
  unfold SecureShareContract.getShare in Hget.
  do 2 (apply sol_bind_Ok in Hget as (? & _ & Hget)).
  apply sol_bind_Ok in Hget as (? & Hrate & _).
  cbn [SecureShareContract.owner SecureShareContract.record_access
       SecureShareContract.lastAccessByAddress] in Hrate.
  rewrite Hsame in Hrate.
  apply address_eqb_neq in Hno. rewrite Hno in Hrate. cbn [negb] in Hrate.
  rewrite upd_same in Hrate.
  apply sol_bind_Ok in Hrate as (elapsed & Hsub & Hreq). apply require_Ok in Hreq.
  unfold checked_sub in Hsub.
  destruct (block_timestamp e1 <=? block_timestamp e2); [|discriminate].
  injection Hsub as <-. apply Z.leb_le in Hreq. lia.
Qed.

Lemma share_reads_five_minutes_apart_witness :
  exists w1,
    share_getShare (tx bob 3000) (ShareAddress 0) world_with_recovery_address
    = Ok (w1, [x01])
    /\ forall result, share_getShare (tx bob 3100) (ShareAddress 0) w1 <> Ok result.
Proof.
  assert (Hc : exists c, nth_error (deployed world_with_recovery_address) 0 = Some c
                         /\ SecureShareContract.owner c = alice)
    by (eexists; split; vm_compute; reflexivity).
  destruct Hc as (c & Hc & Ho).
  assert (Hread : exists w1, share_getShare (tx bob 3000) (ShareAddress 0)
                               world_with_recovery_address = Ok (w1, [x01]))
    by (eexists; vm_compute; reflexivity).
  destruct Hread as [w1 Hread].
  exists w1. split; [exact Hread|].
  apply (share_reads_five_minutes_apart (tx bob 3000) (tx bob 3100) 0 c
           world_with_recovery_address w1 [x01] Hc Hread eq_refl).
  - rewrite Ho. discriminate.
  - vm_compute. reflexivity.
Defined.

(** ** The life of a recovery request *)



(** ** Retrying a transaction *)

Lemma retry_loop_outcome {A : Type}
      (txFunction : nat -> SecureShareRegistryService.outcome A) (maxRetries : nat) :
  forall remaining attempt lastError waited,
    (1 <= attempt)%nat ->
    (1 <= remaining)%nat ->
    (attempt + remaining = maxRetries + 2)%nat ->
    (forall k, (1 <= k < attempt)%nat ->
               exists error, txFunction k = SecureShareRegistryService.Rejected error
                             /\ SecureShareRegistryService.shouldRetry error = Return true) ->
    waited = map SecureShareRegistryService.delay (seq 2 (attempt - 2)) ->
    exists calls,
      (1 <= calls <= maxRetries + 1)%nat
      /\ (forall k, (1 <= k < calls)%nat ->
                    exists error, txFunction k = SecureShareRegistryService.Rejected error
                                  /\ SecureShareRegistryService.shouldRetry error = Return true)
      /\ match fst (SecureShareRegistryService.retry_loop
                      txFunction maxRetries attempt remaining lastError waited) with
         | SecureShareRegistryService.Returned value =>
             txFunction calls = SecureShareRegistryService.Resolved value
         | SecureShareRegistryService.Threw (Some error) =>
             txFunction calls = SecureShareRegistryService.Rejected error
             /\ (SecureShareRegistryService.shouldRetry error = Return false
                 \/ (SecureShareRegistryService.shouldRetry error = Return true
                     /\ calls = (maxRetries + 1)%nat))
         | SecureShareRegistryService.Threw None => False
         | SecureShareRegistryService.ThrewTypeError text =>
             exists error, txFunction calls = SecureShareRegistryService.Rejected error
                           /\ SecureShareRegistryService.shouldRetry error = Throw text
         end
      /\ snd (SecureShareRegistryService.retry_loop
                txFunction maxRetries attempt remaining lastError waited)
         = map SecureShareRegistryService.delay (seq 2 (calls - 1)).
Proof.
  induction remaining as [|remaining IH]; intros attempt lastError waited Ha Hr Hsum Hprev Hw;
    [lia|].
  cbn [SecureShareRegistryService.retry_loop].
  set (waited' := if (1 <? attempt)%nat
                  then (waited ++ [SecureShareRegistryService.delay attempt])%list
                  else waited).
  assert (Hw' : waited' = map SecureShareRegistryService.delay (seq 2 (attempt - 1))).
  { unfold waited'. subst waited. destruct (Nat.ltb_spec 1 attempt) as [Hlt|Hge].
    - replace (attempt - 1)%nat with (S (attempt - 2)) by lia.
      rewrite seq_S, map_app. cbn [map].
      replace (2 + (attempt - 2))%nat with attempt by lia. reflexivity.
    - replace attempt with 1%nat by lia. reflexivity. }
  destruct (txFunction attempt) as [value|error] eqn:Ecall.
  - exists attempt. cbn [fst snd]. repeat split; auto; lia.
  - destruct (SecureShareRegistryService.shouldRetry error) as [[|]|text] eqn:Eretry;
      cbn [negb orb].
    + destruct (Nat.ltb_spec maxRetries attempt) as [Hlast|Hmore].
      * exists attempt. cbn [fst snd].
        split; [lia|]. split; [exact Hprev|]. split; [|exact Hw'].
        split; [exact Ecall|]. right. split; [exact Eretry|lia].
      * apply IH; try lia;
          [|rewrite Hw'; do 2 f_equal; lia].
        intros k Hk. destruct (Nat.eq_dec k attempt) as [->|Hne]; [eauto|].
        apply Hprev. lia.
    + exists attempt. cbn [fst snd].
      split; [lia|]. split; [exact Hprev|]. split; [|exact Hw'].
      split; [exact Ecall|]. left. exact Eretry.
    + exists attempt. cbn [fst snd].
      split; [lia|]. split; [exact Hprev|]. split; [|exact Hw'].
      exists error. split; [exact Ecall|exact Eretry].
Qed.

(** [_sendTransactionWithRetry] makes between 1 and [maxRetries + 1]
    calls.  Every call before the last was rejected with an error worth
    retrying.  It returns what the last call resolved to, or throws the
    error the last call rejected with, and then that error is not worth
    retrying or the calls are used up; it never throws [undefined].  An
    error with no retryable code and no message makes it throw a TypeError
    instead.  It sleeps before each call but the first: 2, 4, 8 seconds,
    then 10. *)
Theorem sendTransactionWithRetry_outcome {A : Type}
        (txFunction : nat -> SecureShareRegistryService.outcome A) (maxRetries : nat) :
  exists calls,
    (1 <= calls <= maxRetries + 1)%nat
    /\ (forall k, (1 <= k < calls)%nat ->
                  exists error, txFunction k = SecureShareRegistryService.Rejected error
                                /\ SecureShareRegistryService.shouldRetry error = Return true)
    /\ match fst (SecureShareRegistryService._sendTransactionWithRetry txFunction maxRetries) with
       | SecureShareRegistryService.Returned value =>
           txFunction calls = SecureShareRegistryService.Resolved value
       | SecureShareRegistryService.Threw (Some error) =>
           txFunction calls = SecureShareRegistryService.Rejected error
           /\ (SecureShareRegistryService.shouldRetry error = Return false
               \/ (SecureShareRegistryService.shouldRetry error = Return true
                   /\ calls = (maxRetries + 1)%nat))
       | SecureShareRegistryService.Threw None => False
       | SecureShareRegistryService.ThrewTypeError text =>
           exists error, txFunction calls = SecureShareRegistryService.Rejected error
                         /\ SecureShareRegistryService.shouldRetry error = Throw text
       end
    /\ snd (SecureShareRegistryService._sendTransactionWithRetry txFunction maxRetries)
       = map SecureShareRegistryService.delay (seq 2 (calls - 1))
    /\ Forall (fun d => 2000 <= d <= 10000)
              (snd (SecureShareRegistryService._sendTransactionWithRetry txFunction maxRetries)).
Proof.
  unfold SecureShareRegistryService._sendTransactionWithRetry.
  assert (Hnone : forall k, (1 <= k < 1)%nat ->
                            exists error, txFunction k = SecureShareRegistryService.Rejected error
                                          /\ SecureShareRegistryService.shouldRetry error
                                             = Return true)
    by (intros k Hk; lia).
  destruct (retry_loop_outcome txFunction maxRetries (maxRetries + 1) 1 None []
              ltac:(lia) ltac:(lia) ltac:(lia) Hnone eq_refl)
    as (calls & H1 & H2 & H3 & H4).
  exists calls. split; [exact H1|]. split; [exact H2|]. split; [exact H3|].
  split; [exact H4|].
  rewrite H4. apply Forall_forall. intros d Hd.
  apply in_map_iff in Hd as (k & <- & Hk). apply in_seq in Hk.
  unfold SecureShareRegistryService.delay.
  assert (1 <= 2 ^ (Z.of_nat k - 2)) by (apply (Z.pow_le_mono_r 2 0); lia).
  lia.
Qed.
